(** * translate-json: the translation pipeline, embedded and verified

    This development embeds the core of the JSON translation tool:

    - [JsonProcessor] (src/utils/jsonProcessor.ts): the classifier
      [shouldTranslate], the tree walker [extractStrings] and
      [applyTranslations], the deduplicator [deduplicateStrings], the
      patch generator [createPatch] with its helper [setValueAtPath], and
      the diff [generateDiff];
    - [CacheService] (src/services/cacheService.ts): [getCacheKey], and
      [get], [set], [isValidEntry], [addToMemoryCache] and the sweep of
      the memory cache in [cleanupExpired];
    - [TranslationService] (the orchestrator): [startTranslation],
      [resumeTranslation], [canResume], [createBatches],
      [processBatches], [processBatch], [processJob],
      [generateFinalResult] and [updateSessionProgress];
    - [RateLimiterService]: [waitForSlot], [cleanupOldRequests],
      [getRemainingRequests], [getResetTime] and [reset].

    Modelling conventions.

    - A JavaScript string is a Rocq [string] whose characters are the
      string's UTF-16 code units; the model covers the code units below 256,
      so that [String.length] is the [.length] of the source.
    - A JSON value is the inductive type [json].  An object is the list of
      its own entries in enumeration order; [wf] says that no object has two
      entries with one key, which every JavaScript object satisfies.  Keys are
      ordinary data keys: names that resolve through [Object.prototype] are
      outside the model.
    - JSON numbers carry an integer payload: the code only ever compares
      them.
    - [Map<string, string>] is stdpp's [gmap string string]; the
      insertion-ordered [Map] of the deduplicator, whose order is observable,
      is an association list.
    - The external collaborators of the orchestrator (translator backend,
      pause requests of the user interface) are oracles, variables of a
      section; the cache and the log of backend calls are explicit state. *)

From Stdlib Require Import ZArith Ascii String List Bool Lia.
From stdpp Require Import base option list strings pretty gmap.

Local Open Scope string_scope.
Local Open Scope list_scope.

(** ** Characters and a small regular expression matcher

    The classifier is written with regular expressions.  They are embedded
    as syntax trees over character classes and matched with derivatives. *)

Module Regex.

Definition code (c : ascii) : nat := nat_of_ascii c.

Definition between (lo hi c : ascii) : bool :=
  (code lo <=? code c)%nat && (code c <=? code hi)%nat.

Definition chr (a c : ascii) : bool := (code a =? code c)%nat.

Definition digit : ascii -> bool := between "0" "9".
Definition lower : ascii -> bool := between "a" "z".
Definition upper : ascii -> bool := between "A" "Z".
Definition letter (c : ascii) : bool := lower c || upper c.
(** [\w] without the letters is [0-9_] *)
Definition word (c : ascii) : bool := letter c || digit c || chr "_" c.
Definition hexdigit (c : ascii) : bool :=
  digit c || between "a" "f" c || between "A" "F" c.

(** [\s], and the characters removed by [trim], among the code units
    below 256: tab, line feed, vertical tab, form feed, carriage return,
    space and no-break space. *)
Definition space (c : ascii) : bool :=
  let n := code c in
  ((9 <=? n)%nat && (n <=? 13)%nat) || (n =? 32)%nat || (n =? 160)%nat.

Definition non (p : ascii -> bool) (c : ascii) : bool := negb (p c).
Definition either (p q : ascii -> bool) (c : ascii) : bool := p c || q c.
(** a letter under the [i] flag *)
Definition ci (a : ascii) (c : ascii) : bool :=
  chr a c || (lower a && (code c + 32 =? code a)%nat)
         || (upper a && (code c =? code a + 32)%nat).

Inductive regex : Type :=
| RNone : regex
| REps : regex
| RChar : (ascii -> bool) -> regex
| RSeq : regex -> regex -> regex
| RAlt : regex -> regex -> regex
| RStar : regex -> regex.

Definition RPlus (r : regex) : regex := RSeq r (RStar r).
Definition ROpt (r : regex) : regex := RAlt r REps.
Definition RAny : regex := RStar (RChar (fun _ => true)).

Fixpoint RRep (n : nat) (r : regex) : regex :=
  match n with
  | O => REps
  | S k => RSeq r (RRep k r)
  end.

Fixpoint RLit (s : string) : regex :=
  match s with
  | EmptyString => REps
  | String a s' => RSeq (RChar (chr a)) (RLit s')
  end.

(** a literal under the [i] flag *)
Fixpoint RLitCI (s : string) : regex :=
  match s with
  | EmptyString => REps
  | String a s' => RSeq (RChar (ci a)) (RLitCI s')
  end.

Fixpoint nullable (r : regex) : bool :=
  match r with
  | RNone => false
  | REps => true
  | RChar _ => false
  | RSeq a b => nullable a && nullable b
  | RAlt a b => nullable a || nullable b
  | RStar _ => true
  end.

Definition seq' (a b : regex) : regex :=
  match a, b with
  | RNone, _ => RNone
  | _, RNone => RNone
  | REps, _ => b
  | _, _ => RSeq a b
  end.

Definition alt' (a b : regex) : regex :=
  match a, b with
  | RNone, _ => b
  | _, RNone => a
  | _, _ => RAlt a b
  end.

Fixpoint deriv (c : ascii) (r : regex) : regex :=
  match r with
  | RNone => RNone
  | REps => RNone
  | RChar p => if p c then REps else RNone
  | RSeq a b =>
      alt' (seq' (deriv c a) b) (if nullable a then deriv c b else RNone)
  | RAlt a b => alt' (deriv c a) (deriv c b)
  | RStar a => seq' (deriv c a) (RStar a)
  end.

(** the whole of [s] matches [r]: [/^r$/.test(s)] *)
Fixpoint matches (r : regex) (s : string) : bool :=
  match s with
  | EmptyString => nullable r
  | String c s' => matches (deriv c r) s'
  end.

(** [/^r/.test(s)]: a prefix of [s] matches [r] *)
Definition matches_prefix (r : regex) (s : string) : bool :=
  matches (RSeq r RAny) s.

(** Length of the longest prefix of [s] that matches [r], if any.
    [n] counts the characters consumed so far. *)
Fixpoint longest (r : regex) (s : string) (n : nat) : option nat :=
  let here := if nullable r then Some n else None in
  match s with
  | EmptyString => here
  | String c s' =>
      match longest (deriv c r) s' (S n) with
      | Some m => Some m
      | None => here
      end
  end.

(** [(s.match(/r/g) || []).reduce((sum, m) => sum + m.length, 0)]: the
    matches are found from left to right and do not overlap.  For the
    patterns of the classifier the match that the backtracking matcher
    reports at a position is the longest one there: within one
    alternative the match is determined by the first closing delimiter,
    and where two alternatives start alike the first listed is the
    longer.  [skip] is the number of characters still covered by the
    previous match. *)
Fixpoint matched_length (r : regex) (s : string) (skip : nat) : nat :=
  match s with
  | EmptyString => 0
  | String _ s' =>
      match skip with
      | S k => matched_length r s' k
      | O =>
          match longest r s 0 with
          | Some (S n) => S n + matched_length r s' n
          | _ => matched_length r s' 0
          end
      end
  end.

End Regex.

(** ** String helpers of the JavaScript runtime *)

(** [s.trim()] *)
Fixpoint trimStart (s : string) : string :=
  match s with
  | EmptyString => EmptyString
  | String c s' => if Regex.space c then trimStart s' else s
  end.

Fixpoint trimEnd (s : string) : string :=
  match s with
  | EmptyString => EmptyString
  | String c s' =>
      match trimEnd s' with
      | EmptyString => if Regex.space c then EmptyString else String c EmptyString
      | t => String c t
      end
  end.

Definition trim (s : string) : string := trimEnd (trimStart s).

(** [index.toString()] for an array index *)
Definition toString (index : nat) : string := pretty index.

(** [path.join('.')] *)
Fixpoint join (path : list string) : string :=
  match path with
  | [] => ""
  | [k] => k
  | k :: rest => k ++ "." ++ join rest
  end.

(** ** The classifier: [JsonProcessor.shouldTranslate] *)

Module Patterns.
Import Regex.

Definition cat (rs : list regex) : regex := fold_right RSeq REps rs.
Definition alts (rs : list regex) : regex := fold_right RAlt RNone rs.

Definition not_brace : regex := RChar (non (chr "}")).
(** [[a-zA-Z_]] *)
Definition ident_start : ascii -> bool := either letter (chr "_").
(** [[^\s@]] *)
Definition no_space_at : ascii -> bool := non (either space (chr "@")).

(** [/^https?:\/\/[^\s]+$/i] *)
Definition URL_PATTERN : regex :=
  cat [RLitCI "http"; ROpt (RChar (ci "s")); RLit "://";
       RPlus (RChar (non space))].

(** [/^#([A-Fa-f0-9]{6}|[A-Fa-f0-9]{3})$/] *)
Definition HEX_COLOR_PATTERN : regex :=
  cat [RLit "#"; RAlt (RRep 6 (RChar hexdigit)) (RRep 3 (RChar hexdigit))].

(** [/^[^\s@]+@[^\s@]+\.[^\s@]+$/] *)
Definition EMAIL_PATTERN : regex :=
  cat [RPlus (RChar no_space_at); RLit "@"; RPlus (RChar no_space_at);
       RLit "."; RPlus (RChar no_space_at)].

(** [/^-?\d+(\.\d+)?$/] *)
Definition NUMBER_PATTERN : regex :=
  cat [ROpt (RLit "-"); RPlus (RChar digit);
       ROpt (cat [RLit "."; RPlus (RChar digit)])].

(** [/\{\{[^}]+\}\}|\{[^}]+\}|%[a-zA-Z0-9_]+%|\$\{[^}]+\}/g] *)
Definition PLACEHOLDER_PATTERN : regex :=
  alts [cat [RLit "{{"; RPlus not_brace; RLit "}}"];
        cat [RLit "{"; RPlus not_brace; RLit "}"];
        cat [RLit "%"; RPlus (RChar word); RLit "%"];
        cat [RLit "${"; RPlus not_brace; RLit "}"]].

(** [/<[^>]+>/g] *)
Definition HTML_TAG_PATTERN : regex :=
  cat [RLit "<"; RPlus (RChar (non (chr ">"))); RLit ">"].

(** [/\$[a-zA-Z_][a-zA-Z0-9_]*|\{[a-zA-Z_][a-zA-Z0-9_]*\}/g] *)
Definition VARIABLE_PATTERN : regex :=
  alts [cat [RLit "$"; RChar ident_start; RStar (RChar word)];
        cat [RLit "{"; RChar ident_start; RStar (RChar word); RLit "}"]].

(** The [technicalPatterns] array; the flag tells whether the pattern is
    anchored at the end too ([$]). *)
Definition technicalPatterns : list (bool * regex) :=
  [ (* CONSTANT_NAMES: /^[A-Z_][A-Z0-9_]*$/ *)
    (true, cat [RChar (either upper (chr "_"));
                RStar (RChar (either upper (either digit (chr "_"))))]);
    (* camelCase: /^[a-z]+G*$/ with G = [A-Z][a-z]* *)
    (true, cat [RPlus (RChar lower);
                RStar (cat [RChar upper; RStar (RChar lower)])]);
    (* kebab-case: /^[a-z]+G*$/ with G = -[a-z]+ *)
    (true, cat [RPlus (RChar lower);
                RStar (cat [RLit "-"; RPlus (RChar lower)])]);
    (* snake_case: /^[a-z]+G*$/ with G = _[a-z]+ *)
    (true, cat [RPlus (RChar lower);
                RStar (cat [RLit "_"; RPlus (RChar lower)])]);
    (* dates: /^\d{4}-\d{2}-\d{2}/ *)
    (false, cat [RRep 4 (RChar digit); RLit "-"; RRep 2 (RChar digit);
                 RLit "-"; RRep 2 (RChar digit)]);
    (* CSS units: /^\d+px$|^\d+%$|^\d+em$|^\d+rem$/ *)
    (true, alts [cat [RPlus (RChar digit); RLit "px"];
                 cat [RPlus (RChar digit); RLit "%"];
                 cat [RPlus (RChar digit); RLit "em"];
                 cat [RPlus (RChar digit); RLit "rem"]]);
    (* CSS colors: /^rgb\(|^rgba\(|^hsl\(|^hsla\(/i *)
    (false, alts [RLitCI "rgb("; RLitCI "rgba("; RLitCI "hsl(";
                  RLitCI "hsla("]) ].

(** [pattern.test(s)] for an entry of [technicalPatterns] *)
Definition test (p : bool * regex) (s : string) : bool :=
  if fst p then matches (snd p) s else matches_prefix (snd p) s.

End Patterns.

Definition shouldTranslate (text : string) : bool :=
  (* !text *)
  if String.eqb text "" then false
  (* skip empty strings or only whitespace *)
  else if (String.length (trim text) =? 0)%nat then false
  (* skip if too short *)
  else if (String.length (trim text) <? 2)%nat then false
  else if Regex.matches Patterns.URL_PATTERN text then false
  else if Regex.matches Patterns.EMAIL_PATTERN text then false
  else if Regex.matches Patterns.HEX_COLOR_PATTERN text then false
  else if Regex.matches Patterns.NUMBER_PATTERN (trim text) then false
  else
    let matchedLength :=
      (Regex.matched_length Patterns.PLACEHOLDER_PATTERN text 0
       + Regex.matched_length Patterns.VARIABLE_PATTERN text 0)%nat in
    (* matchedLength > text.length * 0.5 *)
    if (String.length text <? 2 * matchedLength)%nat then false
    else
      let htmlLength := Regex.matched_length Patterns.HTML_TAG_PATTERN text 0 in
      (* htmlLength > text.length * 0.7, compared over the rationals *)
      if (7 * String.length text <? 10 * htmlLength)%nat then false
      else negb (existsb (fun p => Patterns.test p (trim text))
                   Patterns.technicalPatterns).

(** ** JSON trees *)

Unset Elimination Schemes.
Inductive json : Type :=
| JNull : json
| JBool : bool -> json
| JNum : Z -> json
| JStr : string -> json
| JArr : list json -> json
| JObj : list (string * json) -> json.
Set Elimination Schemes.

(** Induction over a tree gives the property for every element of an array
    and every value of an object. *)
Section JsonInduction.
Variable P : json -> Prop.
Hypothesis Hnull : P JNull.
Hypothesis Hbool : forall b, P (JBool b).
Hypothesis Hnum : forall n, P (JNum n).
Hypothesis Hstr : forall s, P (JStr s).
Hypothesis Harr : forall l, Forall P l -> P (JArr l).
Hypothesis Hobj : forall l, Forall (fun kv => P (snd kv)) l -> P (JObj l).

Fixpoint json_ind (j : json) : P j :=
  match j with
  | JNull => Hnull
  | JBool b => Hbool b
  | JNum n => Hnum n
  | JStr s => Hstr s
  | JArr l =>
      Harr l ((fix elements (l : list json) : Forall P l :=
                 match l with
                 | [] => List.Forall_nil P
                 | x :: l' => List.Forall_cons P x l' (json_ind x) (elements l')
                 end) l)
  | JObj l =>
      Hobj l ((fix values (l : list (string * json))
                 : Forall (fun kv => P (snd kv)) l :=
                 match l with
                 | [] => List.Forall_nil _
                 | kv :: l' =>
                     List.Forall_cons _ kv l' (json_ind (snd kv)) (values l')
                 end) l)
  end.
End JsonInduction.

(** The entries of an array, paired with [index.toString()], starting at
    index [i]. *)
Fixpoint indexed (i : nat) (l : list json) : list (string * json) :=
  match l with
  | [] => []
  | x :: l' => (toString i, x) :: indexed (S i) l'
  end.

(** [obj[key]] on the entries of an object: the value of an own property *)
Fixpoint assoc (key : string) (l : list (string * json)) : option json :=
  match l with
  | [] => None
  | (k, v) :: l' => if String.eqb key k then Some v else assoc key l'
  end.

(** The own properties that the tree walkers iterate: the elements of an
    array with their indices as strings, the entries of an object. *)
Definition entries (j : json) : list (string * json) :=
  match j with
  | JArr l => indexed 0 l
  | JObj l => l
  | _ => []
  end.

(** [j[key]] *)
Definition child (j : json) (key : string) : option json := assoc key (entries j).

(** The value at a path, walking down with [child]. *)
Fixpoint get_path (j : json) (path : list string) : option json :=
  match path with
  | [] => Some j
  | k :: rest =>
      match child j k with
      | Some c => get_path c rest
      | None => None
      end
  end.

Definition keys (l : list (string * json)) : list string := map fst l.

(** No object of the tree has two entries with one key. *)
Fixpoint wf (j : json) : Prop :=
  match j with
  | JArr l => (fix all (l : list json) : Prop :=
                 match l with [] => True | x :: l' => wf x /\ all l' end) l
  | JObj l => NoDup (keys l) /\
              (fix all (l : list (string * json)) : Prop :=
                 match l with [] => True | (_, x) :: l' => wf x /\ all l' end) l
  | _ => True
  end.

(** ** The tree walker: [extractStrings] and [applyTranslations] *)

Record occurrence : Type := Occurrence { path : list string; value : string }.

(** [JsonProcessor.extractStrings(obj, path)] *)
Fixpoint extractStrings (obj : json) (path : list string) : list occurrence :=
  match obj with
  | JStr s => if shouldTranslate s then [Occurrence path s] else []
  | JArr l =>
      (fix forEach (l : list json) (index : nat) : list occurrence :=
         match l with
         | [] => []
         | item :: l' =>
             extractStrings item (path ++ [toString index])
               ++ forEach l' (S index)
         end) l 0%nat
  | JObj l =>
      (fix forEach (l : list (string * json)) : list occurrence :=
         match l with
         | [] => []
         | (key, value) :: l' =>
             extractStrings value (path ++ [key]) ++ forEach l'
         end) l
  | _ => []
  end.

(** Every string leaf of a tree with its path, translatable or not, in the
    order of [extractStrings]. *)
Fixpoint stringLeaves (obj : json) (path : list string) : list occurrence :=
  match obj with
  | JStr s => [Occurrence path s]
  | JArr l =>
      (fix forEach (l : list json) (index : nat) : list occurrence :=
         match l with
         | [] => []
         | item :: l' =>
             stringLeaves item (path ++ [toString index])
               ++ forEach l' (S index)
         end) l 0%nat
  | JObj l =>
      (fix forEach (l : list (string * json)) : list occurrence :=
         match l with
         | [] => []
         | (key, value) :: l' =>
             stringLeaves value (path ++ [key]) ++ forEach l'
         end) l
  | _ => []
  end.

(** The loops of [extractStrings] and of [stringLeaves] over the elements
    of an array from index [index] on, and over the entries of an object. *)
Definition extractArr (path : list string) :=
  fix forEach (l : list json) (index : nat) : list occurrence :=
    match l with
    | [] => []
    | item :: l' =>
        extractStrings item (path ++ [toString index]) ++ forEach l' (S index)
    end.

Definition extractObj (path : list string) :=
  fix forEach (l : list (string * json)) : list occurrence :=
    match l with
    | [] => []
    | (key, value) :: l' =>
        extractStrings value (path ++ [key]) ++ forEach l'
    end.

Definition leavesArr (path : list string) :=
  fix forEach (l : list json) (index : nat) : list occurrence :=
    match l with
    | [] => []
    | item :: l' =>
        stringLeaves item (path ++ [toString index]) ++ forEach l' (S index)
    end.

Definition leavesObj (path : list string) :=
  fix forEach (l : list (string * json)) : list occurrence :=
    match l with
    | [] => []
    | (key, value) :: l' =>
        stringLeaves value (path ++ [key]) ++ forEach l'
    end.

(** In the value model a deep copy of a tree is the tree. *)
Definition cloneDeep (j : json) : json := j.

(** [translations.get(pathKey) || obj]: a missing entry and an empty text
    both leave the original string. *)
Definition translated_or (translations : gmap string string)
    (pathKey : string) (obj : string) : string :=
  match translations !! pathKey with
  | Some t => if String.eqb t "" then obj else t
  | None => obj
  end.

(** The closure [applyToValue] of [applyTranslations].  The object case
    assigns [newObj[key]] for the entries in enumeration order, which gives
    the entries of the original with the new values. *)
Fixpoint applyToValue (translations : gmap string string)
    (obj : json) (path : list string) : json :=
  match obj with
  | JStr s => JStr (translated_or translations (join path) s)
  | JArr l =>
      JArr ((fix map_ (l : list json) (index : nat) : list json :=
               match l with
               | [] => []
               | item :: l' =>
                   applyToValue translations item (path ++ [toString index])
                     :: map_ l' (S index)
               end) l 0%nat)
  | JObj l =>
      JObj ((fix forEach (l : list (string * json)) : list (string * json) :=
               match l with
               | [] => []
               | (key, value) :: l' =>
                   (key, applyToValue translations value (path ++ [key]))
                     :: forEach l'
               end) l)
  | _ => obj
  end.

(** The loops of [applyToValue] over the elements of an array from index
    [index] on, and over the entries of an object. *)
Definition applyArr (translations : gmap string string) (path : list string) :=
  fix map_ (l : list json) (index : nat) : list json :=
    match l with
    | [] => []
    | item :: l' =>
        applyToValue translations item (path ++ [toString index])
          :: map_ l' (S index)
    end.

Definition applyObj (translations : gmap string string) (path : list string) :=
  fix forEach (l : list (string * json)) : list (string * json) :=
    match l with
    | [] => []
    | (key, value) :: l' =>
        (key, applyToValue translations value (path ++ [key]))
          :: forEach l'
    end.

(** [JsonProcessor.applyTranslations(originalObj, translations)] *)
Definition applyTranslations (originalObj : json)
    (translations : gmap string string) : json :=
  let result := cloneDeep originalObj in
  applyToValue translations result [].

(** The identity map of a list of occurrences: the dot-joined path of each
    occurrence mapped to its own value, set in the order of the list. *)
Definition identityMap (occs : list occurrence) : gmap string string :=
  fold_left (fun m o => <[join (path o) := value o]> m) occs ∅.

(** ** The deduplicator: [deduplicateStrings] *)

(** The insertion-ordered [Map<string, number[]>] of the deduplicator: an
    association list in insertion order, one entry per key. *)
Module ValueMap.
Definition t : Type := list (string * list nat).

Fixpoint has (m : t) (key : string) : bool :=
  match m with
  | [] => false
  | (k, _) :: m' => String.eqb key k || has m' key
  end.

Fixpoint get (m : t) (key : string) : option (list nat) :=
  match m with
  | [] => None
  | (k, v) :: m' => if String.eqb key k then Some v else get m' key
  end.

(** [m.set(key, v)]: a known key keeps its place, a new one goes last *)
Fixpoint set (m : t) (key : string) (v : list nat) : t :=
  match m with
  | [] => [(key, v)]
  | (k, w) :: m' =>
      if String.eqb key k then (k, v) :: m' else (k, w) :: set m' key v
  end.

(** [m.get(key)!.push(index)]: the array held by the map grows in place *)
Definition push (m : t) (key : string) (index : nat) : t :=
  match get m key with
  | Some indices => set m key (indices ++ [index])
  | None => m
  end.
End ValueMap.

Record uniqueString : Type := UniqueString {
  upath : list string;
  uvalue : string;
  originalIndices : list nat
}.

(** The first loop of [deduplicateStrings], from index [index] on. *)
Fixpoint groupByValue (strings : list occurrence) (index : nat)
    (valueMap : ValueMap.t) : ValueMap.t :=
  match strings with
  | [] => valueMap
  | item :: rest =>
      let valueMap1 :=
        if negb (ValueMap.has valueMap (value item))
        then ValueMap.set valueMap (value item) []
        else valueMap in
      groupByValue rest (S index) (ValueMap.push valueMap1 (value item) index)
  end.

(** [strings[firstIndex].path] with [firstIndex = indices[0]]; the empty
    path stands for the access that fails, which does not happen: the
    index lists of the map are not empty and hold indices of [strings]. *)
Definition pathOfFirst (strings : list occurrence) (indices : list nat)
    : list string :=
  match indices with
  | firstIndex :: _ =>
      match nth_error strings firstIndex with
      | Some o => path o
      | None => []
      end
  | [] => []
  end.

(** [JsonProcessor.deduplicateStrings(strings)]:
    the pair of [unique] and [duplicateMap]. *)
Definition deduplicateStrings (strings : list occurrence)
    : list uniqueString * ValueMap.t :=
  let valueMap := groupByValue strings 0 [] in
  let unique :=
    map (fun entry =>
           UniqueString (pathOfFirst strings (snd entry)) (fst entry)
             (snd entry)) valueMap in
  (unique, valueMap).

(** One iteration of the first loop, in one piece: the index joins the
    entry of the value, which is created last when the value is new. *)
Fixpoint bump (value : string) (index : nat) (valueMap : ValueMap.t)
    : ValueMap.t :=
  match valueMap with
  | [] => [(value, [index])]
  | (k, indices) :: m' =>
      if String.eqb value k then (k, indices ++ [index]) :: m'
      else (k, indices) :: bump value index m'
  end.

(** Whether the occurrence at index [i] has the value [v] *)
Definition hasValue (strings : list occurrence) (v : string) (i : nat) : bool :=
  match nth_error strings i with
  | Some o => String.eqb (value o) v
  | None => false
  end.

(** The indices below [n] of the occurrences with value [v], ascending *)
Definition indicesOf (strings : list occurrence) (v : string) (n : nat)
    : list nat :=
  List.filter (hasValue strings v) (List.seq 0 n).

(** The state of the first loop before index [n]: the keys are distinct,
    each entry holds the indices below [n] of its value, which are not
    none, and every value met so far has an entry. *)
Definition grouped (strings : list occurrence) (n : nat) (m : ValueMap.t)
    : Prop :=
  NoDup (map fst m) /\
  (forall v idx, ValueMap.get m v = Some idx ->
                 idx = indicesOf strings v n /\ idx <> []) /\
  (forall i o, (i < n)%nat -> nth_error strings i = Some o ->
               In (value o) (map fst m)).

(** ** The patch generator: [createPatch] and [setValueAtPath] *)

(** [key in obj] on the entries of an object *)
Definition has_key (key : string) (l : list (string * json)) : bool :=
  match assoc key l with Some _ => true | None => false end.

(** [obj[key] = v] on the entries of an object: a known key keeps its
    place, a new one goes last. *)
Fixpoint assoc_set (key : string) (v : json) (l : list (string * json))
    : list (string * json) :=
  match l with
  | [] => [(key, v)]
  | (k, w) :: l' =>
      if String.eqb key k then (k, v) :: l' else (k, w) :: assoc_set key v l'
  end.

(** [current[key] = value].  The patch is made of objects created by [{}]
    and of string leaves; an assignment to a property of a string throws a
    [TypeError] in strict mode, which is [None]. *)
Definition set_prop (current : json) (key : string) (value : json)
    : option json :=
  match current with
  | JObj l => Some (JObj (assoc_set key value l))
  | _ => None
  end.

(** [JsonProcessor.setValueAtPath(obj, path, value)].  The loop walks down
    the first [path.length - 1] keys, creating [{}] where a key is missing,
    and assigns at the last key; with the empty path the last key
    [path[-1]] is [undefined], the property named ["undefined"].  The
    objects are shared with their parents, so the assignment shows in
    [obj]: the result is [obj] after the call.  [key in current] on a
    string throws a [TypeError]: [None]. *)
Fixpoint setValueAtPath (obj : json) (path : list string) (value : json)
    : option json :=
  match path with
  | [] => set_prop obj "undefined" value
  | [key] => set_prop obj key value
  | key :: rest =>
      match obj with
      | JObj l =>
          let l1 := if has_key key l then l else assoc_set key (JObj []) l in
          match assoc key l1 with
          | Some current =>
              match setValueAtPath current rest value with
              | Some current' => Some (JObj (assoc_set key current' l1))
              | None => None
              end
          | None => None
          end
      | _ => None
      end
  end.

(** The closure [createPatchForPath] of [createPatch], with the patch it
    mutates as explicit state.  [None] is an exception out of
    [setValueAtPath]. *)
Fixpoint createPatchForPath (orig trans : json) (path : list string)
    (patch : json) : option json :=
  match trans with
  | JStr t =>
      match orig with
      | JStr o =>
          (* typeof orig === 'string' && typeof trans === 'string'
             && orig !== trans *)
          if String.eqb o t then Some patch
          else setValueAtPath patch path (JStr t)
      | _ => Some patch
      end
  | JArr tl =>
      match orig with
      | JArr ol =>
          (* Array.isArray(orig) && Array.isArray(trans) *)
          (fix forEach (tl : list json) (index : nat) (patch : json)
             : option json :=
             match tl with
             | [] => Some patch
             | item :: tl' =>
                 match
                   (* index < orig.length *)
                   match nth_error ol index with
                   | Some o =>
                       createPatchForPath o item (path ++ [toString index])
                         patch
                   | None => Some patch
                   end
                 with
                 | Some patch' => forEach tl' (S index) patch'
                 | None => None
                 end
             end) tl 0%nat patch
      | JObj ol =>
          (* both are objects for typeof; Object.keys(trans) are the
             indices of the array *)
          (fix forEach (tl : list json) (index : nat) (patch : json)
             : option json :=
             match tl with
             | [] => Some patch
             | item :: tl' =>
                 match
                   match assoc (toString index) ol with
                   | Some o =>
                       createPatchForPath o item (path ++ [toString index])
                         patch
                   | None => Some patch
                   end
                 with
                 | Some patch' => forEach tl' (S index) patch'
                 | None => None
                 end
             end) tl 0%nat patch
      | _ => Some patch
      end
  | JObj tl =>
      match orig with
      | JArr _ | JObj _ =>
          (* orig && typeof orig === 'object' && trans
             && typeof trans === 'object' *)
          (fix forEach (tl : list (string * json)) (patch : json)
             : option json :=
             match tl with
             | [] => Some patch
             | (key, item) :: tl' =>
                 match
                   (* key in orig *)
                   match child orig key with
                   | Some o =>
                       createPatchForPath o item (path ++ [key]) patch
                   | None => Some patch
                   end
                 with
                 | Some patch' => forEach tl' patch'
                 | None => None
                 end
             end) tl patch
      | _ => Some patch
      end
  | _ => Some patch
  end.

(** [JsonProcessor.createPatch(original, translated)] *)
Definition createPatch (original translated : json) : option json :=
  createPatchForPath original translated [] (JObj []).

(** The calls [setValueAtPath(patch, path, trans)] that [createPatch]
    makes, in order: the leaves it emits. *)
Fixpoint emitted (orig trans : json) (path : list string)
    : list (list string * string) :=
  match trans with
  | JStr t =>
      match orig with
      | JStr o => if String.eqb o t then [] else [(path, t)]
      | _ => []
      end
  | JArr tl =>
      match orig with
      | JArr _ | JObj _ =>
          (fix forEach (tl : list json) (index : nat)
             : list (list string * string) :=
             match tl with
             | [] => []
             | item :: tl' =>
                 match child orig (toString index) with
                 | Some o => emitted o item (path ++ [toString index])
                 | None => []
                 end ++ forEach tl' (S index)
             end) tl 0%nat
      | _ => []
      end
  | JObj tl =>
      match orig with
      | JArr _ | JObj _ =>
          (fix forEach (tl : list (string * json))
             : list (list string * string) :=
             match tl with
             | [] => []
             | (key, item) :: tl' =>
                 match child orig key with
                 | Some o => emitted o item (path ++ [key])
                 | None => []
                 end ++ forEach tl'
             end) tl
      | _ => []
      end
  | _ => []
  end.

(** An array or an object: a value that [typeof] calls an object and that
    is not [null]. *)
Definition isContainer (j : json) : bool :=
  match j with
  | JArr _ | JObj _ => true
  | _ => false
  end.

(** The calls of [setValueAtPath] in a row, on the patch as state *)
Fixpoint performWrites (writes : list (list string * string)) (patch : json)
    : option json :=
  match writes with
  | [] => Some patch
  | (path, text) :: writes' =>
      match setValueAtPath patch path (JStr text) with
      | Some patch' => performWrites writes' patch'
      | None => None
      end
  end.

(** The object that [current] stands for after the check of [key] in the
    loop of [setValueAtPath] *)
Definition currentAt (l : list (string * json)) (key : string) : json :=
  match assoc key l with
  | Some current => current
  | None => JObj []
  end.

(** A patch that holds the writes [writes] and nothing else: it is an
    object, every write is a string leaf of it, and every value in it is
    an object or the string of a write at that path. *)
Definition patchOf (writes : list (list string * string)) (patch : json)
    : Prop :=
  (exists l, patch = JObj l) /\
  (forall p v, In (p, v) writes -> get_path patch p = Some (JStr v)) /\
  (forall p x, get_path patch p = Some x ->
               (exists l, x = JObj l) \/
               (exists v, x = JStr v /\ In (p, v) writes)).

(** [translated] has no key or array index that [original] does not have:
    every path of [translated] is a path of [original]. *)
Definition noNewPaths (original translated : json) : Prop :=
  forall p, is_Some (get_path translated p) -> is_Some (get_path original p).

(** Modelled from the spec: the application of a patch as overrides onto
    the original, which the repository does not implement.  "Overwriting
    exactly the leaf paths present in the patch, leaving all other nodes of
    original unchanged": a leaf of the patch is a value that is not an
    object, and the node of the original at the path of a leaf is replaced
    by the leaf. *)
Definition patch_leaf (patch : json) (path : list string) : option json :=
  match get_path patch path with
  | Some (JObj _) => None
  | Some leaf => Some leaf
  | None => None
  end.

(** Modelled from the spec: the original with the leaves of the patch in
    the place of its nodes at their paths, from the path [path] down. *)
Fixpoint override (patch : json) (original : json) (path : list string)
    : json :=
  match patch_leaf patch path with
  | Some leaf => leaf
  | None =>
      match original with
      | JArr l =>
          JArr ((fix map_ (l : list json) (index : nat) : list json :=
                   match l with
                   | [] => []
                   | item :: l' =>
                       override patch item (path ++ [toString index])
                         :: map_ l' (S index)
                   end) l 0%nat)
      | JObj l =>
          JObj ((fix map_ (l : list (string * json)) : list (string * json) :=
                   match l with
                   | [] => []
                   | (key, item) :: l' =>
                       (key, override patch item (path ++ [key])) :: map_ l'
                   end) l)
      | _ => original
      end
  end.

(** The loops of [override] over the elements of an array from index
    [index] on, and over the entries of an object. *)
Definition overrideArr (patch : json) (path : list string) :=
  fix map_ (l : list json) (index : nat) : list json :=
    match l with
    | [] => []
    | item :: l' =>
        override patch item (path ++ [toString index]) :: map_ l' (S index)
    end.

Definition overrideObj (patch : json) (path : list string) :=
  fix map_ (l : list (string * json)) : list (string * json) :=
    match l with
    | [] => []
    | (key, item) :: l' =>
        (key, override patch item (path ++ [key])) :: map_ l'
    end.

(** Modelled from the spec: the patch applied as overrides onto the
    original. *)
Definition applyPatch (original patch : json) : json :=
  override patch original [].

(** Deep equality of trees ([isEqual]): arrays element by element, objects
    key by key whatever the order of their entries. *)
Inductive deepEqual : json -> json -> Prop :=
| de_null : deepEqual JNull JNull
| de_bool b : deepEqual (JBool b) (JBool b)
| de_num n : deepEqual (JNum n) (JNum n)
| de_str s : deepEqual (JStr s) (JStr s)
| de_arr l l' :
    length l = length l' ->
    (forall i x x', nth_error l i = Some x -> nth_error l' i = Some x' ->
                    deepEqual x x') ->
    deepEqual (JArr l) (JArr l')
| de_obj l l' :
    (forall k, assoc k l = None <-> assoc k l' = None) ->
    (forall k x x', assoc k l = Some x -> assoc k l' = Some x' ->
                    deepEqual x x') ->
    deepEqual (JObj l) (JObj l').

(** [translated] is a retranslation of [original]: the same tree up to its
    string leaves.  Arrays have the same length, objects the same keys,
    leaves that are not strings are equal, and a string stands where a
    string stood. *)
Inductive retranslation : json -> json -> Prop :=
| rt_null : retranslation JNull JNull
| rt_bool b : retranslation (JBool b) (JBool b)
| rt_num n : retranslation (JNum n) (JNum n)
| rt_str s s' : retranslation (JStr s) (JStr s')
| rt_arr l l' :
    length l = length l' ->
    (forall i x x', nth_error l i = Some x -> nth_error l' i = Some x' ->
                    retranslation x x') ->
    retranslation (JArr l) (JArr l')
| rt_obj l l' :
    (forall k, assoc k l = None <-> assoc k l' = None) ->
    (forall k x x', assoc k l = Some x -> assoc k l' = Some x' ->
                    retranslation x x') ->
    retranslation (JObj l) (JObj l').

(** ** The cache key: [CacheService.getCacheKey] *)

Module CacheKey.

(** [encodeURIComponent]: the characters it leaves alone *)
Definition unreserved (c : ascii) : bool :=
  Regex.letter c || Regex.digit c
  || existsb (fun a => Regex.chr a c)
       (list_ascii_of_string "-_.!~*'()").

Definition hexChar (n : N) : ascii :=
  match String.get (N.to_nat n) "0123456789ABCDEF" with
  | Some c => c
  | None => "0"%char
  end.

(** [%XX] for one byte *)
Definition percent (byte : N) : string :=
  String "%" (String (hexChar (byte / 16)) (String (hexChar (byte mod 16)) "")).

(** A code unit below 128 is one byte of UTF-8; a code unit from 128 to
    255 takes two: [110000xx 10xxxxxx]. *)
Definition encodeUnit (c : ascii) : string :=
  let n := N_of_ascii c in
  if unreserved c then String c ""
  else if (n <? 128)%N then percent n
  else percent (192 + n / 64) ++ percent (128 + n mod 64).

Fixpoint encodeURIComponent (s : string) : string :=
  match s with
  | EmptyString => EmptyString
  | String c s' => encodeUnit c ++ encodeURIComponent s'
  end.

(** the value of a hexadecimal digit of [percent] *)
Definition hexValue (c : ascii) : option N :=
  match index 0 (String c "") "0123456789ABCDEF" with
  | Some i => Some (N.of_nat i)
  | None => None
  end.

(** [%XX] at the head of a string: the byte and the rest *)
Definition percentHead (s : string) : option (N * string) :=
  match s with
  | String p (String h (String l rest)) =>
      if Regex.chr "%" p then
        match hexValue h, hexValue l with
        | Some x, Some y => Some ((16 * x + y)%N, rest)
        | _, _ => None
        end
      else None
  | _ => None
  end.

(** The code unit that the head of an encoded string stands for, and the
    rest of the string: the inverse of [encodeUnit]. *)
Definition decodeHead (s : string) : option (ascii * string) :=
  match s with
  | EmptyString => None
  | String c rest =>
      if Regex.chr "%" c then
        match percentHead s with
        | Some (byte, rest1) =>
            if (byte <? 128)%N then Some (ascii_of_N byte, rest1)
            else
              match percentHead rest1 with
              | Some (byte2, rest2) =>
                  Some (ascii_of_N ((byte - 192) * 64 + (byte2 - 128)), rest2)
              | None => None
              end
        | None => None
        end
      else Some (c, rest)
  end.

(** [btoa]: base64 with padding.  A digit of base64 stands for six bits,
    given here from the most significant one. *)
Definition sextet : Type := (bool * bool * bool * bool * bool * bool)%type.

Definition sextetIndex (x : sextet) : nat :=
  let '(x5, x4, x3, x2, x1, x0) := x in
  (if x5 then 32 else 0) + (if x4 then 16 else 0) + (if x3 then 8 else 0)
  + (if x2 then 4 else 0) + (if x1 then 2 else 0) + (if x0 then 1 else 0).

Definition alphabet : string :=
  "ABCDEFGHIJKLMNOPQRSTUVWXYZabcdefghijklmnopqrstuvwxyz0123456789+/".

Definition b64 (x : sextet) : ascii :=
  match String.get (sextetIndex x) alphabet with
  | Some c => c
  | None => "="%char
  end.

(** [Ascii b0 .. b7] has [b0] as its least significant bit. *)
Fixpoint btoa (s : string) : string :=
  match s with
  | String (Ascii a0 a1 a2 a3 a4 a5 a6 a7)
      (String (Ascii b0 b1 b2 b3 b4 b5 b6 b7)
         (String (Ascii c0 c1 c2 c3 c4 c5 c6 c7) rest)) =>
      String (b64 (a7, a6, a5, a4, a3, a2))
        (String (b64 (a1, a0, b7, b6, b5, b4))
           (String (b64 (b3, b2, b1, b0, c7, c6))
              (String (b64 (c5, c4, c3, c2, c1, c0)) (btoa rest))))
  | String (Ascii a0 a1 a2 a3 a4 a5 a6 a7)
      (String (Ascii b0 b1 b2 b3 b4 b5 b6 b7) EmptyString) =>
      String (b64 (a7, a6, a5, a4, a3, a2))
        (String (b64 (a1, a0, b7, b6, b5, b4))
           (String (b64 (b3, b2, b1, b0, false, false)) "="))
  | String (Ascii a0 a1 a2 a3 a4 a5 a6 a7) EmptyString =>
      String (b64 (a7, a6, a5, a4, a3, a2))
        (String (b64 (a1, a0, false, false, false, false)) "==")
  | EmptyString => EmptyString
  end.

(** [`${text}-${sourceLanguage}-${targetLanguage}`] *)
Definition template (text sourceLanguage targetLanguage : string) : string :=
  text ++ "-" ++ sourceLanguage ++ "-" ++ targetLanguage.

Definition getCacheKey (text sourceLanguage targetLanguage : string)
    : string :=
  btoa (encodeURIComponent (template text sourceLanguage targetLanguage)).

(** the inverse of [b64] on the alphabet *)
Definition unb64 (c : ascii) : option sextet :=
  find (fun x => Regex.chr (b64 x) c)
    (x5 ← [false; true]; x4 ← [false; true]; x3 ← [false; true];
     x2 ← [false; true]; x1 ← [false; true]; x0 ← [false; true];
     [(x5, x4, x3, x2, x1, x0)]).

(** the language code holds no [-] *)
Fixpoint hyphenFree (s : string) : bool :=
  match s with
  | EmptyString => true
  | String c s' => negb (Regex.chr "-" c) && hyphenFree s'
  end.

End CacheKey.

(** ** The orchestrator: [TranslationService]

    Fields that no decision of the code reads are not carried: the
    identifiers, the timestamps and the progress percentage of a batch.
    The log of the session is part of the world, as the stream of its
    entries. *)

Inductive jobStatus : Type :=
| JobPending | JobTranslating | JobCompleted | JobError | JobSkipped.

Inductive batchStatus : Type :=
| BatchPending | BatchProcessing | BatchCompleted | BatchError.

Inductive sessionStatus : Type :=
| SessionIdle | SessionProcessing | SessionCompleted | SessionPaused
| SessionError.

Record TranslationJob : Type := Job {
  originalText : string;
  translatedText : option string;
  sourceLanguage : string;
  targetLanguage : string;
  status : jobStatus;
  error : option string;
  retryCount : nat
}.

Record TranslationBatch : Type := Batch {
  jobs : list TranslationJob;
  batch_status : batchStatus
}.

Record TranslationSession : Type := Session {
  session_sourceLanguage : string;
  session_targetLanguage : string;
  originalJson : json;
  translatedJson : option json;
  batches : list TranslationBatch;
  totalStrings : nat;
  translatedStrings : nat;
  skippedStrings : nat;
  errorStrings : nat;
  session_status : sessionStatus
}.

(** [batchSize] is a positive integer: with [0] the loop of
    [createBatches] does not advance. *)
Record TranslationConfig : Type := Config {
  config_sourceLanguage : string;
  config_targetLanguage : string;
  batchSize : positive;
  maxRetries : Z
}.

(** The entries of the log, by what they report. *)
Inductive logEntry : Type :=
| LogStarting (strings unique : nat)
| LogCompleted
| LogResuming
| LogResumedAndCompleted
| LogCacheHit (text : string)
| LogDetected (language text : string)
| LogTranslated (text translated : string)
| LogRetry (retryCount : nat) (maxRetries : Z) (text : string)
| LogFailed (text message : string)
| LogFinalResult.

(** A call of the backend: [translate({q, source, target})] *)
Record request : Type := Request { q : string; source : string; target : string }.

(** The world around the service: the cache (its entries within their time
    to live, by key), the calls of [translate] made so far, the backoff
    delays waited so far in milliseconds, the log, and the number of runs
    of [processJob] so far. *)
Record world : Type := World {
  cache : gmap string string;
  requests : list request;
  waits : list Z;
  log : list logEntry;
  ticks : nat
}.

(** The fields of [TranslationService] *)
Record service : Type := Service {
  currentSession : option TranslationSession;
  isProcessing : bool;
  pauseRequested : bool
}.

Inductive serviceError : Type :=
| AlreadyRunning            (* 'Translation already in progress' *)
| NoTranslatableContent     (* 'No translatable strings found in the JSON' *)
| NothingToResume.          (* 'No session to resume or already processing' *)

Definition addLog (entry : logEntry) (w : world) : world :=
  World (cache w) (requests w) (waits w) (log w ++ [entry]) (ticks w).

(** [cacheService.get(text, source, target)] *)
Definition cache_get (w : world) (text src tgt : string) : option string :=
  cache w !! CacheKey.getCacheKey text src tgt.

(** [cacheService.set(text, source, target, translated)] *)
Definition cache_set (text src tgt translated : string) (w : world) : world :=
  World (<[CacheKey.getCacheKey text src tgt := translated]> (cache w))
    (requests w) (waits w) (log w) (ticks w).

Definition record_request (r : request) (w : world) : world :=
  World (cache w) (requests w ++ [r]) (waits w) (log w) (ticks w).

(** [await new Promise(resolve => setTimeout(resolve, ms))] *)
Definition sleep (ms : Z) (w : world) : world :=
  World (cache w) (requests w) (waits w ++ [ms]) (log w) (ticks w).

Definition tick (w : world) : world :=
  World (cache w) (requests w) (waits w) (log w) (S (ticks w)).

Definition set_job (j : TranslationJob) (translated : option string)
    (st : jobStatus) (err : option string) (retries : nat) : TranslationJob :=
  Job (originalText j) translated (sourceLanguage j) (targetLanguage j)
    st err retries.

Definition pendingOrError (job : TranslationJob) : bool :=
  match status job with
  | JobPending | JobError => true
  | _ => false
  end.

Definition isCompleted (job : TranslationJob) : bool :=
  match status job with JobCompleted => true | _ => false end.

Section Orchestrator.

(** The translator backend: the answer to the [n]-th call of
    [translate], a text or the message of the error thrown. *)
Variable translate : nat -> request -> string + string.
(** [libreTranslateService.detectLanguage], which does not throw *)
Variable detectLanguage : string -> string.
(** Whether the user asks for a pause while the [n]-th run of
    [processJob] is suspended; the awaits of the service all lie within
    [processJob]. *)
Variable pauseSignal : nat -> bool.

(** [job.status = 'translating'] *)
Definition markTranslating (job : TranslationJob) : TranslationJob :=
  set_job job (translatedText job) JobTranslating (error job) (retryCount job).

(** [job.retryCount++] *)
Definition countRetry (job : TranslationJob) : TranslationJob :=
  set_job job (translatedText job) (status job) (error job)
    (S (retryCount job)).

(** The cached text that counts as a hit: [if (cachedResult)] holds for a
    text that is not empty. *)
Definition cachedResult (w : world) (job : TranslationJob) : option string :=
  match cache_get w (originalText job) (sourceLanguage job)
          (targetLanguage job) with
  | Some (String c text) => Some (String c text)
  | _ => None
  end.

(** The source language of the call, detected when the job says ["auto"],
    with the world after the detection. *)
Definition detectSource (job : TranslationJob) (w : world) : string * world :=
  if String.eqb (sourceLanguage job) "auto"
  then let detected := detectLanguage (originalText job) in
       (detected, addLog (LogDetected detected (originalText job)) w)
  else (sourceLanguage job, w).

(** The call of [translate] that an attempt makes after a cache miss, and
    the world once the call is made. *)
Definition attemptRequest (job : TranslationJob) (w : world) : request :=
  Request (originalText job) (fst (detectSource job w)) (targetLanguage job).

Definition afterRequest (job : TranslationJob) (w : world) : world :=
  record_request (attemptRequest job w) (snd (detectSource job w)).

(** One pass through the [try] block and the [catch] block of
    [processJob]; the recursive call of the source is the recursive call
    here, and [fuel] bounds their number.  The wait for a slot of the rate
    limiter does not change the state modelled. *)
Fixpoint processJob_loop (fuel : nat) (job : TranslationJob)
    (config : TranslationConfig) (w : world)
    : option (TranslationJob * world) :=
  match fuel with
  | O => None
  | S fuel' =>
      let job := markTranslating job in
      match cachedResult w job with
      | Some cached =>
          Some (set_job job (Some cached) JobCompleted (error job)
                  (retryCount job),
                addLog (LogCacheHit (originalText job)) w)
      | None =>
          let r := attemptRequest job w in
          match translate (length (requests w)) r with
          | inl translated =>
              let w := afterRequest job w in
              let w := cache_set (originalText job) (source r)
                         (targetLanguage job) translated w in
              Some (set_job job (Some translated) JobCompleted (error job)
                      (retryCount job),
                    addLog (LogTranslated (originalText job) translated) w)
          | inr message =>
              let w := afterRequest job w in
              let job := countRetry job in
              if (Z.of_nat (retryCount job) <=? maxRetries config)%Z then
                let w := addLog (LogRetry (retryCount job)
                                   (maxRetries config) (originalText job)) w in
                (* exponential backoff *)
                let w := sleep (2 ^ Z.of_nat (retryCount job) * 1000)%Z w in
                processJob_loop fuel' job config w
              else
                Some (set_job job (translatedText job) JobError
                        (Some message) (retryCount job),
                      addLog (LogFailed (originalText job) message) w)
          end
      end
  end.

(** The recursion of [processJob] ends: every retry has a greater
    [retryCount], bounded by [maxRetries]. *)
Definition retryBudget (job : TranslationJob) (config : TranslationConfig)
    : nat :=
  S (Z.to_nat (maxRetries config - Z.of_nat (retryCount job))).

(** [TranslationService.processJob(job, config)] *)
Definition processJob (job : TranslationJob) (config : TranslationConfig)
    (w : world) : TranslationJob * world :=
  match processJob_loop (retryBudget job config) job config w with
  | Some r => r
  | None => (job, w)
  end.

(** The loop over [pendingJobs] in [processBatch].  The filter is taken
    before the loop; a job is changed by its own run only, so its status
    at its turn is its status at the filter.  The result carries the
    flag [pauseRequested]. *)
Fixpoint processJobs (jobs : list TranslationJob)
    (config : TranslationConfig) (paused : bool) (w : world)
    : list TranslationJob * bool * world :=
  match jobs with
  | [] => ([], paused, w)
  | job :: rest =>
      if pendingOrError job then
        if paused then (jobs, paused, w)   (* break *)
        else
          let '(job', w') := processJob job config w in
          let paused' := pauseSignal (ticks w') in
          let '(rest', paused'', w'') :=
            processJobs rest config paused' (tick w') in
          (job' :: rest', paused'', w'')
      else
        let '(rest', paused', w') := processJobs rest config paused w in
        (job :: rest', paused', w')
  end.

(** The jobs that a pass over the batches has to run: the pending and
    error jobs of the batches that are not completed, in order. *)
Definition todo (bs : list TranslationBatch) : list TranslationJob :=
  flat_map (fun batch => match batch_status batch with
                         | BatchCompleted => []
                         | _ => List.filter pendingOrError (jobs batch)
                         end) bs.

(** [processJob] on the jobs of a list in a row, until a pause is
    requested: the flag and the world afterwards. *)
Fixpoint runJobs (js : list TranslationJob) (config : TranslationConfig)
    (paused : bool) (w : world) : bool * world :=
  match js with
  | [] => (paused, w)
  | job :: rest =>
      if paused then (paused, w)
      else
        let '(_, w') := processJob job config w in
        runJobs rest config (pauseSignal (ticks w')) (tick w')
  end.

(** [TranslationService.processBatch(batch, config)] *)
Definition processBatch (batch : TranslationBatch)
    (config : TranslationConfig) (paused : bool) (w : world)
    : TranslationBatch * bool * world :=
  let '(jobs', paused', w') := processJobs (jobs batch) config paused w in
  (Batch jobs' (if paused' then BatchProcessing else BatchCompleted),
   paused', w').

Definition allJobs (bs : list TranslationBatch) : list TranslationJob :=
  concat (map jobs bs).

Definition countStatus (f : TranslationJob -> bool)
    (bs : list TranslationBatch) : nat :=
  fold_left (fun sum batch => (sum + length (filter f (jobs batch)))%nat)
    bs 0%nat.

(** The loop over [session.batches] in [processBatches].  The flag
    [touched] tells whether a batch was processed, that is whether
    [updateSessionProgress] ran. *)
Fixpoint processBatchList (bs : list TranslationBatch)
    (config : TranslationConfig) (touched paused : bool) (w : world)
    : list TranslationBatch * bool * bool * world :=
  match bs with
  | [] => ([], touched, paused, w)
  | batch :: rest =>
      if paused then (bs, touched, paused, w)   (* break *)
      else
        match batch_status batch with
        | BatchCompleted =>
            (* skip already completed batches *)
            let '(rest', touched', paused', w') :=
              processBatchList rest config touched paused w in
            (batch :: rest', touched', paused', w')
        | _ =>
            let '(batch', paused', w') :=
              processBatch batch config paused w in
            let '(rest', touched', paused'', w'') :=
              processBatchList rest config true paused' w' in
            (batch' :: rest', touched', paused'', w'')
        end
  end.

(** [job.status === 'completed' && job.translatedText]: the jobs whose
    translation [generateFinalResult] applies *)
Definition hasTranslation (job : TranslationJob) : bool :=
  match status job, translatedText job with
  | JobCompleted, Some (String _ _) => true
  | _, _ => false
  end.

(** The body of the loops of [generateFinalResult] for one job: the state
    is [uniqueIndex] and [translationMap]. *)
Definition finalStep (allStrings : list occurrence)
    (uniqueStrings : list uniqueString)
    (st : nat * gmap string string) (job : TranslationJob)
    : nat * gmap string string :=
  let '(uniqueIndex, translationMap) := st in
  match status job, translatedText job with
  | JobCompleted, Some (String c text) =>
      (* job.status === 'completed' && job.translatedText *)
      let translated := String c text in
      let translationMap' :=
        match nth_error uniqueStrings uniqueIndex with
        | Some uniqueString =>
            fold_left
              (fun m originalIndex =>
                 match nth_error allStrings originalIndex with
                 | Some originalString =>
                     <[join (path originalString) := translated]> m
                 | None => m
                 end)
              (originalIndices uniqueString) translationMap
        | None => translationMap
        end in
      (S uniqueIndex, translationMap')
  | _, _ => (uniqueIndex, translationMap)
  end.

(** The translation map that [generateFinalResult] builds *)
Definition finalTranslationMap (session : TranslationSession)
    : gmap string string :=
  let allStrings := extractStrings (originalJson session) [] in
  let uniqueStrings := fst (deduplicateStrings allStrings) in
  snd (fold_left (finalStep allStrings uniqueStrings)
         (allJobs (batches session)) (0%nat, ∅)).

(** [TranslationService.generateFinalResult(session)] *)
Definition generateFinalResult (session : TranslationSession) (w : world)
    : TranslationSession * world :=
  (Session (session_sourceLanguage session) (session_targetLanguage session)
     (originalJson session)
     (Some (applyTranslations (originalJson session)
              (finalTranslationMap session)))
     (batches session) (totalStrings session) (translatedStrings session)
     (skippedStrings session) (errorStrings session)
     (session_status session),
   addLog LogFinalResult w).

(** [TranslationService.updateSessionProgress(session)]: the counts are
    taken anew over all the jobs of all the batches. *)
Definition updateSessionProgress (session : TranslationSession)
    : TranslationSession :=
  let skipped job := match status job with
                     | JobSkipped => true | _ => false end in
  let failed job := match status job with
                    | JobError => true | _ => false end in
  Session (session_sourceLanguage session) (session_targetLanguage session)
    (originalJson session) (translatedJson session) (batches session)
    (totalStrings session)
    (countStatus isCompleted (batches session))
    (countStatus skipped (batches session))
    (countStatus failed (batches session))
    (session_status session).

(** The session with the batches as the loop left them.
    [updateSessionProgress] runs after each processed batch; the batches
    after the last processed one are not changed, so its last run counts
    over the final batches. *)
Definition set_batches (session : TranslationSession)
    (bs : list TranslationBatch) (touched : bool) : TranslationSession :=
  let session' :=
    Session (session_sourceLanguage session) (session_targetLanguage session)
      (originalJson session) (translatedJson session) bs
      (totalStrings session) (translatedStrings session)
      (skippedStrings session) (errorStrings session)
      (session_status session) in
  if touched then updateSessionProgress session' else session'.

Definition set_status (session : TranslationSession) (st : sessionStatus)
    : TranslationSession :=
  Session (session_sourceLanguage session) (session_targetLanguage session)
    (originalJson session) (translatedJson session) (batches session)
    (totalStrings session) (translatedStrings session)
    (skippedStrings session) (errorStrings session) st.

(** [TranslationService.processBatches(session, config)].  A pause
    request also sets the status of the session to ['paused'], which is
    not ['error']: the final result is generated when no pause is
    requested. *)
Definition processBatches (session : TranslationSession)
    (config : TranslationConfig) (paused : bool) (w : world)
    : TranslationSession * bool * world :=
  let '(bs, touched, paused', w') :=
    processBatchList (batches session) config false paused w in
  let session' := set_batches session bs touched in
  let session' := if paused' then set_status session' SessionPaused
                  else session' in
  if negb paused' then
    let '(session'', w'') := generateFinalResult session' w' in
    (session'', paused', w'')
  else (session', paused', w').

(** [TranslationService.createBatches(strings, batchSize)]: the jobs of
    the unique strings, cut into batches of [batchSize]. *)
Definition newJob (src tgt : string) (item : uniqueString) : TranslationJob :=
  Job (uvalue item) None src tgt JobPending None 0.

Fixpoint chunks (fuel : nat) (size : nat) (l : list TranslationJob)
    : list (list TranslationJob) :=
  match fuel, l with
  | S fuel', _ :: _ => take size l :: chunks fuel' size (drop size l)
  | _, _ => []
  end.

Definition createBatches (src tgt : string) (strings : list uniqueString)
    (batchSize : positive) : list TranslationBatch :=
  map (fun js => Batch js BatchPending)
    (chunks (length strings) (Pos.to_nat batchSize)
       (map (newJob src tgt) strings)).

(** [TranslationService.startTranslation(jsonData, config)]: the result
    or the error thrown, with the service and the world afterwards. *)
Definition startTranslation (jsonData : json) (config : TranslationConfig)
    (sv : service) (w : world)
    : (serviceError + TranslationSession) * service * world :=
  if isProcessing sv then (inl AlreadyRunning, sv, w)
  else
    let strings := extractStrings jsonData [] in
    match strings with
    | [] => (inl NoTranslatableContent, sv, w)
    | _ :: _ =>
        let uniqueStrings := fst (deduplicateStrings strings) in
        let w := addLog (LogStarting (length strings) (length uniqueStrings))
                   w in
        let session :=
          Session (config_sourceLanguage config)
            (config_targetLanguage config) jsonData None
            (createBatches (config_sourceLanguage config)
               (config_targetLanguage config) uniqueStrings
               (batchSize config))
            (length strings) 0 0 0 SessionProcessing in
        let '(session, paused, w) := processBatches session config false w in
        let '(session, w) :=
          if negb paused
          then (set_status session SessionCompleted, addLog LogCompleted w)
          else (session, w) in
        (inr session, Service (Some session) false paused, w)
    end.

(** [TranslationService.resumeTranslation()], with the retry budget read
    from the environment. *)
Definition resumeTranslation (envBatchSize : positive) (envMaxRetries : Z)
    (sv : service) (w : world)
    : (serviceError + unit) * service * world :=
  match currentSession sv, isProcessing sv with
  | Some session, false =>
      let session := set_status session SessionProcessing in
      let w := addLog LogResuming w in
      let config := Config (session_sourceLanguage session)
                      (session_targetLanguage session) envBatchSize
                      envMaxRetries in
      let '(session, paused, w) := processBatches session config false w in
      let '(session, w) :=
        if negb paused
        then (set_status session SessionCompleted,
              addLog LogResumedAndCompleted w)
        else (session, w) in
      (inr tt, Service (Some session) false paused, w)
  | _, _ => (inl NothingToResume, sv, w)
  end.

End Orchestrator.

(** ** The diff: [generateDiff] *)

Inductive diffType : Type := Added | Removed | Changed | Unchanged.

(** [JsonDiff]: [original] and [translated] are [undefined], which is
    [None], in the records of kind [added] and [removed]. *)
Record JsonDiff : Type := Diff {
  dpath : list string;
  doriginal : option json;
  dtranslated : option json;
  dtype : diffType
}.

(** lodash's [isEqual] on parsed JSON: scalars by value, arrays element by
    element, objects key by key whatever the order of their entries. *)
Fixpoint isEqual (a b : json) : bool :=
  match a, b with
  | JNull, JNull => true
  | JBool x, JBool y => Bool.eqb x y
  | JNum x, JNum y => Z.eqb x y
  | JStr x, JStr y => String.eqb x y
  | JArr l, JArr l' =>
      (fix all (l l' : list json) {struct l} : bool :=
         match l, l' with
         | [], [] => true
         | x :: r, y :: r' => isEqual x y && all r r'
         | _, _ => false
         end) l l'
  | JObj l, JObj l' =>
      Nat.eqb (length l) (length l') &&
      (fix all (l : list (string * json)) : bool :=
         match l with
         | [] => true
         | (k, x) :: r =>
             match assoc k l' with
             | Some y => isEqual x y
             | None => false
             end && all r
         end) l
  | _, _ => false
  end.

(** The records for the indices [i >= original.length] of the array loop
    of [generateDiff] *)
Fixpoint addedFrom (path : list string) (tl : list json) (i : nat)
    : list JsonDiff :=
  match tl with
  | [] => []
  | t :: tl' =>
      Diff (path ++ [toString i]) None (Some t) Added
        :: addedFrom path tl' (S i)
  end.

(** The records for the keys of [translated] that are not [in original],
    which come last in [allKeys] *)
Definition addedKeys (original : json) (path : list string)
    (tl : list (string * json)) : list JsonDiff :=
  flat_map (fun kv =>
              match child original (fst kv) with
              | Some _ => []
              | None => [Diff (path ++ [fst kv]) None (Some (snd kv)) Added]
              end) tl.

(** [JsonProcessor.generateDiff(original, translated, path)].  The set
    [allKeys] enumerates the keys of [original] and then the keys of
    [translated] that [original] does not have.  As in [createPatch],
    [key in x] is the test for an own property. *)
Fixpoint generateDiff (original translated : json) (path : list string)
    : list JsonDiff :=
  match original, translated with
  | JStr o, JStr t =>
      if negb (String.eqb o t)
      then [Diff path (Some original) (Some translated) Changed]
      else [Diff path (Some original) (Some translated) Unchanged]
  | JArr ol, JArr tl =>
      (* for (let i = 0; i < maxLength; i++) *)
      (fix loop (ol tl : list json) (i : nat) {struct ol} : list JsonDiff :=
         match ol with
         | [] => addedFrom path tl i
         | o :: ol' =>
             match tl with
             | [] =>
                 Diff (path ++ [toString i]) (Some o) None Removed
                   :: loop ol' [] (S i)
             | t :: tl' =>
                 generateDiff o t (path ++ [toString i])
                   ++ loop ol' tl' (S i)
             end
         end) ol tl 0%nat
  | JArr ol, JObj tl =>
      (* an array against an object: both are objects for typeof *)
      (fix loop (ol : list json) (i : nat) : list JsonDiff :=
         match ol with
         | [] => []
         | o :: ol' =>
             match assoc (toString i) tl with
             | Some t => generateDiff o t (path ++ [toString i])
             | None => [Diff (path ++ [toString i]) (Some o) None Removed]
             end ++ loop ol' (S i)
         end) ol 0%nat
      ++ addedKeys original path tl
  | JObj ol, (JArr _ | JObj _) =>
      (fix loop (ol : list (string * json)) : list JsonDiff :=
         match ol with
         | [] => []
         | (key, o) :: ol' =>
             match child translated key with
             | Some t => generateDiff o t (path ++ [key])
             | None => [Diff (path ++ [key]) (Some o) None Removed]
             end ++ loop ol'
         end) ol
      ++ addedKeys original path (entries translated)
  | _, _ =>
      if negb (isEqual original translated)
      then [Diff path (Some original) (Some translated) Changed]
      else [Diff path (Some original) (Some translated) Unchanged]
  end.

(** ** The orchestrator, continued *)

(** [TranslationService.canResume()] *)
Definition canResume (sv : service) : bool :=
  match currentSession sv with
  | Some session =>
      match session_status session with
      | SessionPaused => negb (isProcessing sv)
      | _ => false
      end
  | None => false
  end.

(** ** The rate limiter: [RateLimiterService]

    The clock is explicit: a call is made at a time [now], the value of
    [Date.now()] in milliseconds. *)

Module RateLimiterService.
Local Open Scope Z_scope.

(** The [limiter]; [maxRequests] is the integer read from the
    environment. *)
Record RateLimiter : Type := Limiter {
  requests : list Z;
  maxRequests : Z;
  windowMs : Z
}.

(** [cleanupOldRequests()] *)
Definition cleanupOldRequests (now : Z) (limiter : RateLimiter)
    : RateLimiter :=
  Limiter
    (List.filter (fun timestamp => now - timestamp <? windowMs limiter)
       (requests limiter))
    (maxRequests limiter) (windowMs limiter).

(** [Math.min(...requests)]; [None] is [Infinity], the minimum of no
    number. *)
Fixpoint minimum (l : list Z) : option Z :=
  match l with
  | [] => None
  | x :: l' =>
      match minimum l' with
      | Some y => Some (Z.min x y)
      | None => Some x
      end
  end.

(** [getRemainingRequests()]: the number and the limiter afterwards *)
Definition getRemainingRequests (now : Z) (limiter : RateLimiter)
    : Z * RateLimiter :=
  let limiter := cleanupOldRequests now limiter in
  (Z.max 0 (maxRequests limiter - Z.of_nat (length (requests limiter))),
   limiter).

(** [getResetTime()] *)
Definition getResetTime (limiter : RateLimiter) : Z :=
  match minimum (requests limiter) with
  | None => 0          (* requests.length === 0 *)
  | Some oldestRequest => oldestRequest + windowMs limiter
  end.

(** [reset()] *)
Definition reset (limiter : RateLimiter) : RateLimiter :=
  Limiter [] (maxRequests limiter) (windowMs limiter).

Section WaitForSlot.

(** A timer set for a delay fires after the delay or later: [late k] is
    the lateness of the [k]-th timer that [waitForSlot] sets. *)
Variable late : nat -> Z.

(** The closure [checkSlot] of [waitForSlot], run at the time [now] as
    the check number [k]; [fuel] bounds the number of checks.  The result
    is the time at which the promise resolves, with the limiter then. *)
Fixpoint checkSlot (fuel : nat) (k : nat) (now : Z) (limiter : RateLimiter)
    : option (Z * RateLimiter) :=
  match fuel with
  | O => None
  | S fuel' =>
      let limiter := cleanupOldRequests now limiter in
      if Z.of_nat (length (requests limiter)) <? maxRequests limiter
      then
        Some (now, Limiter (requests limiter ++ [now]) (maxRequests limiter)
                     (windowMs limiter))
      else
        (* Math.min(waitTime, 1000), with waitTime = Infinity when there
           is no request *)
        let delay :=
          match minimum (requests limiter) with
          | Some oldestRequest =>
              Z.min (Z.max 0 (oldestRequest + windowMs limiter - now)) 1000
          | None => 1000
          end in
        checkSlot fuel' (S k) (now + delay + late k) limiter
  end.

(** [waitForSlot()], called at the time [now] *)
Definition waitForSlot (fuel : nat) (now : Z) (limiter : RateLimiter)
    : option (Z * RateLimiter) :=
  checkSlot fuel 0%nat now limiter.

End WaitForSlot.

End RateLimiterService.

(** ** The cache: [CacheService]

    The clock is explicit, as the time [now] of a call.  The store of
    IndexedDB is a map from keys to entries; [available] tells whether it
    can be opened, and a store that cannot be opened is neither read nor
    written.  [ttl] is the time to live read from the environment. *)

Module CacheService.

Record CacheEntry : Type := Entry {
  text : string;
  sourceLanguage : string;
  targetLanguage : string;
  translatedText : string;
  timestamp : Z
}.

(** [memoryCache] is a [Map], which keeps its entries in the order of
    their insertion: the list of its entries, oldest first. *)
Record state : Type := State {
  memoryCache : list (string * CacheEntry);
  store : gmap string CacheEntry
}.

Definition maxMemorySize : nat := 1000.

(** [memoryCache.get(key)] *)
Fixpoint memoryGet (key : string) (m : list (string * CacheEntry))
    : option CacheEntry :=
  match m with
  | [] => None
  | (k, entry) :: m' => if String.eqb key k then Some entry else memoryGet key m'
  end.

(** [memoryCache.set(key, entry)]: a known key keeps its place, a new one
    goes last. *)
Fixpoint memorySet (key : string) (entry : CacheEntry)
    (m : list (string * CacheEntry)) : list (string * CacheEntry) :=
  match m with
  | [] => [(key, entry)]
  | (k, e) :: m' =>
      if String.eqb key k then (k, entry) :: m'
      else (k, e) :: memorySet key entry m'
  end.

(** [memoryCache.delete(key)] *)
Definition memoryDelete (key : string) (m : list (string * CacheEntry))
    : list (string * CacheEntry) :=
  List.filter (fun kv => negb (String.eqb key (fst kv))) m.

(** [isValidEntry(entry)] *)
Definition isValidEntry (ttl now : Z) (entry : CacheEntry) : bool :=
  (now - timestamp entry <? ttl)%Z.

(** [addToMemoryCache(key, entry)]; [if (oldestKey)] holds for a key that
    is not the empty string. *)
Definition addToMemoryCache (key : string) (entry : CacheEntry)
    (m : list (string * CacheEntry)) : list (string * CacheEntry) :=
  let m1 :=
    if (maxMemorySize <=? length m)%nat then
      match m with
      | (oldestKey, _) :: _ =>
          if String.eqb oldestKey "" then m else memoryDelete oldestKey m
      | [] => m
      end
    else m in
  memorySet key entry m1.

(** [get(text, sourceLanguage, targetLanguage)]: the result, [None] for
    [null], and the state afterwards. *)
Definition get (ttl now : Z) (available : bool)
    (text sourceLanguage targetLanguage : string) (st : state)
    : option string * state :=
  let key := CacheKey.getCacheKey text sourceLanguage targetLanguage in
  let fromStore :=
    if available then
      match store st !! key with
      | Some entry =>
          if isValidEntry ttl now entry
          then (Some (translatedText entry),
                State (addToMemoryCache key entry (memoryCache st))
                  (store st))
          else (None, st)
      | None => (None, st)
      end
    else (None, st) in
  match memoryGet key (memoryCache st) with
  | Some memoryEntry =>
      if isValidEntry ttl now memoryEntry
      then (Some (translatedText memoryEntry), st)
      else fromStore
  | None => fromStore
  end.

(** [set(text, sourceLanguage, targetLanguage, translatedText)] *)
Definition set (now : Z) (available : bool)
    (text sourceLanguage targetLanguage translatedText : string) (st : state)
    : state :=
  let key := CacheKey.getCacheKey text sourceLanguage targetLanguage in
  let entry := Entry text sourceLanguage targetLanguage translatedText now in
  State (addToMemoryCache key entry (memoryCache st))
    (if available then <[key := entry]> (store st) else store st).

(** The loop of [cleanupExpired] over the memory cache; the sweep of the
    store that follows it is not modelled. *)
Definition cleanupExpiredMemory (ttl now : Z)
    (m : list (string * CacheEntry)) : list (string * CacheEntry) :=
  let cutoff := (now - ttl)%Z in
  List.filter (fun kv => negb (timestamp (snd kv) <? cutoff)%Z) m.

(** The memory cache as a [Map] of keys made by [getCacheKey]: no key
    twice, no empty key, and at most [maxMemorySize] entries. *)
Definition memoryOk (m : list (string * CacheEntry)) : Prop :=
  NoDup (map fst m) /\ ~ In "" (map fst m) /\
  (length m <= maxMemorySize)%nat.

End CacheService.

(** * Properties *)

(** ** Paths, entries and lookups *)

Lemma toString_inj i j : toString i = toString j -> i = j.
Proof. unfold toString. apply (inj pretty). Qed.

Lemma eqb_refl' s : String.eqb s s = true.
Proof. apply String.eqb_refl. Qed.

Lemma assoc_indexed_lt k n i l :
  (i < n)%nat -> k = toString i -> assoc k (indexed n l) = None.
Proof.
  revert n. induction l as [|x l IH]; intros n Hlt ->; simpl; [done|].
  destruct (String.eqb_spec (toString i) (toString n)) as [E|_].
  - apply toString_inj in E. lia.
  - apply IH; [lia|done].
Qed.

(** [arr[index.toString()]] is [arr[index]] *)
Lemma assoc_indexed n l i :
  assoc (toString (n + i)) (indexed n l) = nth_error l i.
Proof.
  revert n i. induction l as [|x l IH]; intros n i; simpl.
  - by destruct i.
  - destruct i as [|i]; simpl.
    + by rewrite Nat.add_0_r, eqb_refl'.
    + destruct (String.eqb_spec (toString (n + S i)) (toString n)) as [E|_].
      * apply toString_inj in E. lia.
      * replace (n + S i)%nat with (S n + i)%nat by lia. apply IH.
Qed.

Lemma assoc_indexed_Some k n l x :
  assoc k (indexed n l) = Some x ->
  exists i, k = toString (n + i) /\ nth_error l i = Some x.
Proof.
  revert n. induction l as [|y l IH]; intros n; simpl; [done|].
  destruct (String.eqb_spec k (toString n)) as [->|_].
  - intros [= ->]. exists 0%nat. by rewrite Nat.add_0_r.
  - intros H. destruct (IH _ H) as (i & -> & Hi).
    exists (S i). split; [f_equal; lia|done].
Qed.

Lemma assoc_indexed0 l i : assoc (toString i) (indexed 0 l) = nth_error l i.
Proof. apply (assoc_indexed 0). Qed.

Lemma child_arr l i : child (JArr l) (toString i) = nth_error l i.
Proof. apply assoc_indexed0. Qed.

Lemma assoc_In k l x : assoc k l = Some x -> In (k, x) l.
Proof.
  induction l as [|[k' y] l IH]; simpl; [done|].
  destruct (String.eqb_spec k k') as [->|_].
  - intros [= ->]. by left.
  - intros H. right. by apply IH.
Qed.

Lemma assoc_None k l : assoc k l = None <-> ~ In k (keys l).
Proof.
  induction l as [|[k' y] l IH]; simpl.
  - tauto.
  - destruct (String.eqb_spec k k') as [->|Hne].
    + split; [done|]. intros H. destruct H. by left.
    + rewrite IH. split; [|tauto]. intros H [E|E]; [by subst|tauto].
Qed.

Lemma In_assoc k l x : NoDup (keys l) -> In (k, x) l -> assoc k l = Some x.
Proof.
  induction l as [|[k' y] l IH]; simpl; [done|].
  intros Hnd [[= -> ->]|Hin].
  - by rewrite eqb_refl'.
  - apply NoDup_cons in Hnd as [Hnot Hnd].
    destruct (String.eqb_spec k k') as [->|_].
    + exfalso. apply Hnot. apply list_elem_of_In.
      change k' with (fst (k', x)). by apply in_map.
    + by apply IH.
Qed.

Lemma get_path_app j p p' :
  get_path j (p ++ p') =
  match get_path j p with Some c => get_path c p' | None => None end.
Proof.
  revert j. induction p as [|k p IH]; intros j; simpl; [done|].
  destruct (child j k); [apply IH|done].
Qed.

(** ** The tree walker *)

Section ApplyToValue.
Variable translations : gmap string string.

Lemma applyToValue_arr l path :
  applyToValue translations (JArr l) path = JArr (applyArr translations path l 0).
Proof. reflexivity. Qed.

Lemma applyToValue_obj l path :
  applyToValue translations (JObj l) path = JObj (applyObj translations path l).
Proof. reflexivity. Qed.

Lemma applyArr_length path l n : length (applyArr translations path l n) = length l.
Proof. revert n. induction l; intros; simpl; [done|]. by rewrite IHl. Qed.

Lemma applyArr_nth path l n i :
  nth_error (applyArr translations path l n) i =
  option_map (fun x => applyToValue translations x
                         (path ++ [toString (n + i)]))
    (nth_error l i).
Proof.
  revert n i. induction l as [|x l IH]; intros n i; simpl.
  - by destruct i.
  - destruct i as [|i]; simpl.
    + by rewrite Nat.add_0_r.
    + rewrite IH. by replace (S n + i)%nat with (n + S i)%nat by lia.
Qed.

Lemma applyObj_keys path l : keys (applyObj translations path l) = keys l.
Proof.
  induction l as [|[k v] l IH]; simpl; [done|]. by rewrite IH.
Qed.

Lemma applyObj_assoc path l k :
  assoc k (applyObj translations path l) =
  option_map (fun x => applyToValue translations x (path ++ [k]))
    (assoc k l).
Proof.
  induction l as [|[k' v] l IH]; simpl; [done|].
  destruct (String.eqb_spec k k') as [->|_]; [done|apply IH].
Qed.

(** the children of the rebuilt node are the rebuilt children *)
Lemma child_applyToValue j path k :
  child (applyToValue translations j path) k =
  option_map (fun x => applyToValue translations x (path ++ [k]))
    (child j k).
Proof.
  destruct j as [| | | |l|l]; try reflexivity.
  - rewrite applyToValue_arr. unfold child. simpl.
    destruct (assoc k (indexed 0 l)) as [x|] eqn:E.
    + apply assoc_indexed_Some in E as (i & -> & Hi). simpl in *.
      rewrite assoc_indexed0, applyArr_nth, Hi. reflexivity.
    + destruct (assoc k (indexed 0 (applyArr translations path l 0))) as [y|] eqn:E';
        [|done].
      apply assoc_indexed_Some in E' as (i & -> & Hi). simpl in *.
      rewrite assoc_indexed0 in E.
      rewrite applyArr_nth, E in Hi. done.
  - rewrite applyToValue_obj. apply applyObj_assoc.
Qed.

Lemma get_path_applyToValue j prefix p :
  get_path (applyToValue translations j prefix) p =
  option_map (fun x => applyToValue translations x (prefix ++ p))
    (get_path j p).
Proof.
  revert j prefix. induction p as [|k p IH]; intros j prefix; simpl.
  - by rewrite app_nil_r.
  - rewrite child_applyToValue. destruct (child j k) as [c|]; simpl; [|done].
    rewrite IH. by rewrite <- app_assoc.
Qed.

End ApplyToValue.



(** Deep equality holds between a tree and itself. *)
Lemma deepEqual_refl j : deepEqual j j.
Proof.
  induction j as [| | | |l IH|l IH] using json_ind; try constructor; try done.
  - intros i x x' Hx Hx'. rewrite Hx in Hx'. injection Hx' as <-.
    rewrite List.Forall_forall in IH. apply IH. eapply nth_error_In, Hx.
  - intros k x x' Hx Hx'. rewrite Hx in Hx'. injection Hx' as <-.
    rewrite List.Forall_forall in IH.
    apply (IH (k, x)). by apply assoc_In.
Qed.

Lemma extractStrings_arr l path :
  extractStrings (JArr l) path = extractArr path l 0.
Proof. reflexivity. Qed.

Lemma extractStrings_obj l path :
  extractStrings (JObj l) path = extractObj path l.
Proof. reflexivity. Qed.

Lemma stringLeaves_arr l path :
  stringLeaves (JArr l) path = leavesArr path l 0.
Proof. reflexivity. Qed.

Lemma stringLeaves_obj l path :
  stringLeaves (JObj l) path = leavesObj path l.
Proof. reflexivity. Qed.

(** The occurrences extracted are the string leaves that the classifier
    accepts. *)
Lemma extractStrings_leaves j path o :
  In o (extractStrings j path) ->
  In o (stringLeaves j path) /\ shouldTranslate (value o) = true.
Proof.
  revert path.
  induction j as [| | |s|l IH|l IH] using json_ind; intros path; simpl;
    try done.
  - destruct (shouldTranslate s) eqn:E; simpl; [|done].
    intros [<-|[]]. by split; [left|].
  - change (In o (extractArr path l 0) ->
            In o (leavesArr path l 0) /\ shouldTranslate (value o) = true).
    generalize 0%nat.
    induction IH as [|x l Hx _ IHl]; intros n; simpl; [done|].
    rewrite !in_app_iff. intros [H|H].
    + destruct (Hx _ H). by split; [left|].
    + destruct (IHl _ H). by split; [right|].
  - change (In o (extractObj path l) ->
            In o (leavesObj path l) /\ shouldTranslate (value o) = true).
    induction IH as [|[k x] l Hx _ IHl]; simpl; [done|].
    rewrite !in_app_iff. intros [H|H].
    + destruct (Hx _ H). by split; [left|].
    + destruct (IHl H). by split; [right|].
Qed.

(** Where the map leaves every string leaf as it is, the rebuilt tree is
    the tree. *)
Lemma applyToValue_fixed translations j prefix :
  (forall l, In l (stringLeaves j prefix) ->
             translated_or translations (join (path l)) (value l) = value l) ->
  applyToValue translations j prefix = j.
Proof.
  revert prefix.
  induction j as [| | |s|l IH|l IH] using json_ind; intros prefix H;
    try reflexivity.
  - simpl. f_equal. apply (H (Occurrence prefix s)). by left.
  - rewrite applyToValue_arr. f_equal.
    rewrite stringLeaves_arr in H. revert H. generalize 0%nat.
    induction IH as [|x l Hx _ IHl]; intros n H; simpl; [done|].
    f_equal.
    + apply Hx. intros o Ho. apply H. simpl. apply in_app_iff. by left.
    + apply IHl. intros o Ho. apply H. simpl. apply in_app_iff. by right.
  - rewrite applyToValue_obj. f_equal.
    rewrite stringLeaves_obj in H. revert H.
    induction IH as [|[k x] l Hx _ IHl]; intros H; simpl; [done|].
    f_equal.
    + f_equal. apply Hx. intros o Ho. apply H. simpl. apply in_app_iff.
      by left.
    + apply IHl. intros o Ho. apply H. simpl. apply in_app_iff. by right.
Qed.

(** An entry of the identity map comes from an occurrence. *)
Lemma identityMap_lookup occs k v :
  identityMap occs !! k = Some v ->
  exists o, In o occs /\ join (path o) = k /\ value o = v.
Proof.
  unfold identityMap.
  assert (forall (m0 : gmap string string),
             fold_left (fun m o => <[join (path o) := value o]> m) occs m0
               !! k = Some v ->
             m0 !! k = Some v \/
             exists o, In o occs /\ join (path o) = k /\ value o = v) as G.
  { induction occs as [|o occs IH]; intros m0; simpl; [by left|].
    intros H. destruct (IH _ H) as [H0|(o' & Hin & Hk & Hv)].
    - destruct (decide (join (path o) = k)) as [E|E].
      + rewrite <- E, lookup_insert_eq in H0. injection H0 as <-.
        right. exists o. by split; [left|].
      + rewrite lookup_insert_ne in H0 by done. by left.
    - right. exists o'. by split; [right|]. }
  intros H. destruct (G _ H) as [H0|H0]; [|done].
  by rewrite lookup_empty in H0.
Qed.





(** ** The deduplicator *)

Lemma has_get m v :
  ValueMap.has m v = true <-> exists idx, ValueMap.get m v = Some idx.
Proof.
  induction m as [|[k idx] m IH]; simpl.
  - split; [done|]. by intros [? ?].
  - destruct (String.eqb v k); simpl; [|done]. split; eauto.
Qed.

Lemma has_keys m v : ValueMap.has m v = true <-> In v (map fst m).
Proof.
  induction m as [|[k idx] m IH]; simpl; [done|].
  destruct (String.eqb_spec v k) as [->|]; simpl.
  - split; [by left|done].
  - rewrite IH. split; [by right|]. by intros [|].
Qed.

Lemma get_In m v idx : ValueMap.get m v = Some idx -> In (v, idx) m.
Proof.
  induction m as [|[k i0] m IH]; simpl; [done|].
  destruct (String.eqb_spec v k) as [->|].
  - intros [= ->]. by left.
  - intros H. right. by apply IH.
Qed.

Lemma In_get m v idx :
  NoDup (map fst m) -> In (v, idx) m -> ValueMap.get m v = Some idx.
Proof.
  induction m as [|[k i0] m IH]; simpl; [done|].
  intros Hnd [[= -> ->]|Hin].
  - by rewrite eqb_refl'.
  - apply NoDup_cons in Hnd as [Hnot Hnd].
    destruct (String.eqb_spec v k) as [->|]; [|by apply IH].
    exfalso. apply Hnot, list_elem_of_In.
    change k with (fst (k, idx)). by apply in_map.
Qed.

Lemma get_set m v idx :
  ValueMap.get (ValueMap.set m v idx) v = Some idx.
Proof.
  induction m as [|[k i0] m IH]; simpl.
  - by rewrite eqb_refl'.
  - destruct (String.eqb_spec v k) as [->|Hne]; simpl.
    + by rewrite eqb_refl'.
    + by destruct (String.eqb_spec v k).
Qed.

Lemma set_set m v idx idx' :
  ValueMap.set (ValueMap.set m v idx) v idx' = ValueMap.set m v idx'.
Proof.
  induction m as [|[k i0] m IH]; simpl.
  - by rewrite eqb_refl'.
  - destruct (String.eqb_spec v k) as [->|Hne]; simpl.
    + by rewrite eqb_refl'.
    + destruct (String.eqb_spec v k); [done|]. by rewrite IH.
Qed.

Lemma set_known m v idx0 idx :
  ValueMap.get m v = Some idx0 ->
  ValueMap.set m v (idx0 ++ [idx]) = bump v idx m.
Proof.
  induction m as [|[k i0] m IH]; simpl; [done|].
  destruct (String.eqb_spec v k) as [->|Hne].
  - by intros [= ->].
  - intros H. by rewrite IH.
Qed.

Lemma set_new m v n :
  ValueMap.has m v = false -> ValueMap.set m v [n] = bump v n m.
Proof.
  induction m as [|[k i0] m IH]; simpl; [done|].
  destruct (String.eqb_spec v k) as [->|Hne]; simpl; [done|].
  intros H. by rewrite IH.
Qed.

(** The first loop of [deduplicateStrings] is a fold of [bump]. *)
Lemma groupByValue_step item rest n m :
  groupByValue (item :: rest) n m =
  groupByValue rest (S n) (bump (value item) n m).
Proof.
  simpl. f_equal. unfold ValueMap.push.
  destruct (ValueMap.has m (value item)) eqn:H; simpl.
  - apply has_get in H as [idx0 H]. rewrite H. by apply set_known.
  - rewrite get_set, set_set. simpl. by apply set_new.
Qed.

Lemma bump_keys v n m :
  map fst (bump v n m) =
  if ValueMap.has m v then map fst m else map fst m ++ [v].
Proof.
  induction m as [|[k idx] m IH]; simpl; [done|].
  destruct (String.eqb_spec v k) as [->|]; simpl; [done|].
  rewrite IH. by destruct (ValueMap.has m v).
Qed.

Lemma get_bump v n m w :
  ValueMap.get (bump v n m) w =
  if String.eqb w v
  then Some (match ValueMap.get m v with Some idx => idx | None => [] end
             ++ [n])
  else ValueMap.get m w.
Proof.
  induction m as [|[k idx] m IH]; simpl.
  - by destruct (String.eqb w v).
  - destruct (String.eqb_spec v k) as [->|Hne]; simpl.
    + by destruct (String.eqb w k).
    + rewrite IH. destruct (String.eqb_spec w k) as [E|];
        destruct (String.eqb_spec w v) as [E'|]; congruence.
Qed.

Lemma indicesOf_S strings v n :
  indicesOf strings v (S n) =
  indicesOf strings v n ++ (if hasValue strings v n then [n] else []).
Proof.
  unfold indicesOf. rewrite seq_S, List.filter_app. simpl.
  by destruct (hasValue strings v n).
Qed.

Lemma indicesOf_In strings v n i :
  In i (indicesOf strings v n) <->
  (i < n)%nat /\ exists o, nth_error strings i = Some o /\ value o = v.
Proof.
  unfold indicesOf. rewrite List.filter_In, in_seq. unfold hasValue.
  split.
  - intros [? H]. split; [lia|].
    destruct (nth_error strings i) as [o|]; [|done].
    exists o. split; [done|]. by apply String.eqb_eq.
  - intros [? (o & -> & <-)]. split; [lia|]. apply eqb_refl'.
Qed.

Lemma bump_grouped strings n m item :
  nth_error strings n = Some item ->
  grouped strings n m -> grouped strings (S n) (bump (value item) n m).
Proof.
  intros Hn (Hnd & Hget & Hcov). repeat split.
  - rewrite bump_keys. destruct (ValueMap.has m (value item)) eqn:H.
    { exact Hnd. }
    apply NoDup_app. split; [exact Hnd|]. split; [|apply NoDup_singleton].
    intros x Hx Hx'. apply list_elem_of_singleton in Hx'. subst x.
    apply list_elem_of_In, has_keys in Hx. congruence.
  - rewrite get_bump in H. rewrite indicesOf_S. unfold hasValue. rewrite Hn.
    destruct (String.eqb_spec v (value item)) as [->|Hne].
    + rewrite eqb_refl'. injection H as <-.
      destruct (ValueMap.get m (value item)) as [idx0|] eqn:G.
      * by destruct (Hget _ _ G) as [<- _].
      * destruct (indicesOf strings (value item) n) as [|i l] eqn:E; [done|].
        assert (In i (indicesOf strings (value item) n)) as Hi
            by (rewrite E; by left).
        apply indicesOf_In in Hi as (Hlt & o & Ho & Hv).
        specialize (Hcov _ _ Hlt Ho). rewrite Hv in Hcov.
        apply has_keys, has_get in Hcov as [? ?]. congruence.
    + destruct (String.eqb_spec (value item) v); [congruence|].
      rewrite app_nil_r. by destruct (Hget _ _ H).
  - rewrite get_bump in H.
    destruct (String.eqb_spec v (value item)) as [->|Hne].
    + injection H as <-. intros E. apply app_eq_nil in E as [_ E]. done.
    + by destruct (Hget _ _ H).
  - intros i o Hi Ho. apply has_keys. apply has_get.
    rewrite get_bump.
    destruct (String.eqb_spec (value o) (value item)); [eauto|].
    apply has_get, has_keys. apply (Hcov i); [|done].
    assert (i <> n) by (intros ->; congruence). lia.
Qed.

Lemma groupByValue_grouped strings rest n m :
  (forall j, nth_error rest j = nth_error strings (n + j)) ->
  grouped strings n m ->
  grouped strings (n + length rest) (groupByValue rest n m).
Proof.
  revert n m. induction rest as [|item rest IH]; intros n m Hrest Hg.
  - simpl. by rewrite Nat.add_0_r.
  - rewrite groupByValue_step. simpl length.
    replace (n + S (length rest))%nat with (S n + length rest)%nat by lia.
    apply IH.
    + intros j. specialize (Hrest (S j)). simpl in Hrest. rewrite Hrest.
      f_equal. lia.
    + apply bump_grouped; [|done]. specialize (Hrest 0%nat).
      rewrite Nat.add_0_r in Hrest. by rewrite <- Hrest.
Qed.

Lemma deduplicateStrings_grouped strings :
  grouped strings (length strings) (snd (deduplicateStrings strings)).
Proof.
  apply (groupByValue_grouped strings strings 0 []); [done|].
  repeat split; [apply NoDup_nil_2|done|done|].
  intros i o Hi. lia.
Qed.

Lemma filter_seq_head (f : nat -> bool) a n x r :
  List.filter f (List.seq a n) = x :: r ->
  (a <= x)%nat /\ forall j, In j r -> (x < j)%nat.
Proof.
  revert a. induction n as [|n IH]; intros a; simpl; [done|].
  destruct (f a).
  - intros [= <- <-]. split; [lia|]. intros j Hj.
    apply List.filter_In in Hj as [Hj _]. apply in_seq in Hj. lia.
  - intros H. destruct (IH _ H) as [? ?]. split; [lia|done].
Qed.

Lemma indicesOf_NoDup strings v n : NoDup (indicesOf strings v n).
Proof.
  apply NoDup_ListNoDup. unfold indicesOf.
  apply List.NoDup_filter, List.seq_NoDup.
Qed.

Lemma unique_In strings u :
  In u (fst (deduplicateStrings strings)) ->
  originalIndices u = indicesOf strings (uvalue u) (length strings) /\
  originalIndices u <> [] /\
  upath u = pathOfFirst strings (originalIndices u).
Proof.
  destruct (deduplicateStrings_grouped strings) as (Hnd & Hget & _).
  unfold deduplicateStrings in *. simpl in *.
  intros Hu. apply in_map_iff in Hu as ([v idx] & <- & Hin). simpl.
  apply In_get in Hin; [|exact Hnd].
  destruct (Hget _ _ Hin). done.
Qed.

Lemma unique_values strings :
  map uvalue (fst (deduplicateStrings strings)) =
  map fst (snd (deduplicateStrings strings)).
Proof.
  unfold deduplicateStrings. simpl. rewrite List.map_map. by apply map_ext.
Qed.

(** C8.  [deduplicateStrings] groups the occurrences by exact equality of
    their values.  The unique strings have distinct values; every
    occurrence index lies in the index list of the unique string with its
    value (the union is the full set of indices); an index list holds
    indices of occurrences with the value of its unique string only, each
    once; two unique strings at different places share no index (the
    lists are pairwise disjoint); and the path of a unique string is the
    path of the occurrence at its first index, which is the least index
    with that value: its first occurrence in traversal order. *)
Theorem deduplicateStrings_partition :
  forall strings : list occurrence,
    let unique := fst (deduplicateStrings strings) in
    NoDup (map uvalue unique) /\
    (forall i o, nth_error strings i = Some o ->
       exists u, In u unique /\ uvalue u = value o /\
                 In i (originalIndices u)) /\
    (forall u i, In u unique -> In i (originalIndices u) ->
       exists o, nth_error strings i = Some o /\ value o = uvalue u) /\
    (forall u, In u unique -> NoDup (originalIndices u)) /\
    (forall a b u1 u2 i,
       nth_error unique a = Some u1 -> nth_error unique b = Some u2 ->
       In i (originalIndices u1) -> In i (originalIndices u2) -> a = b) /\
    (forall u, In u unique ->
       exists first rest o,
         originalIndices u = first :: rest /\
         (forall j, In j rest -> (first < j)%nat) /\
         nth_error strings first = Some o /\
         value o = uvalue u /\
         upath u = path o).
Proof.
  intros strings unique.
  destruct (deduplicateStrings_grouped strings) as (Hnd & Hget & Hcov).
  assert (forall u i, In u unique -> In i (originalIndices u) ->
            exists o, nth_error strings i = Some o /\ value o = uvalue u)
    as Hsame.
  { intros u i Hu Hi. apply unique_In in Hu as (E & _ & _).
    rewrite E in Hi. by apply indicesOf_In in Hi as (_ & o & ? & ?); eauto. }
  assert (NoDup (map uvalue unique)) as Hvalues.
  { unfold unique. rewrite unique_values. exact Hnd. }
  split; [exact Hvalues|]. split; [|split; [exact Hsame|split; [|split]]].
  - intros i o Ho.
    assert (i < length strings)%nat as Hlt
        by (apply nth_error_Some; congruence).
    specialize (Hcov i o Hlt Ho).
    rewrite <- unique_values in Hcov. fold unique in Hcov.
    apply in_map_iff in Hcov as (u & Hv & Hu).
    exists u. split; [done|]. split; [done|].
    apply unique_In in Hu as (-> & _ & _).
    apply indicesOf_In. split; [done|]. exists o. by rewrite Hv.
  - intros u Hu. apply unique_In in Hu as (-> & _ & _).
    apply indicesOf_NoDup.
  - intros a b u1 u2 i Ha Hb H1 H2.
    destruct (Hsame u1 i) as (o1 & Ho1 & Hv1);
      [by eapply nth_error_In|done|].
    destruct (Hsame u2 i) as (o2 & Ho2 & Hv2);
      [by eapply nth_error_In|done|].
    assert (uvalue u1 = uvalue u2) as Hv by congruence.
    apply NoDup_ListNoDup in Hvalues.
    apply (proj1 (List.NoDup_nth_error (map uvalue unique))); [exact Hvalues| |].
    + rewrite length_map. apply nth_error_Some. congruence.
    + rewrite !nth_error_map, Ha, Hb. simpl. by rewrite Hv.
  - intros u Hu. destruct (unique_In _ _ Hu) as (E & Hne & Hp).
    destruct (originalIndices u) as [|first rest] eqn:Hidx; [done|].
    assert (In first (originalIndices u)) as Hfirst
        by (rewrite Hidx; by left).
    destruct (Hsame u first Hu Hfirst) as (o & Ho & Hv).
    exists first, rest, o. split; [done|].
    split; [|split; [done|split; [done|]]].
    + symmetry in E. unfold indicesOf in E.
      by apply filter_seq_head in E as [_ ?].
    + rewrite Hp. simpl. by rewrite Ho.
Qed.

(** ** The patch generator *)

Lemma assoc_set_eq k v l : assoc k (assoc_set k v l) = Some v.
Proof.
  induction l as [|[k' w] l IH]; simpl.
  - by rewrite eqb_refl'.
  - destruct (String.eqb_spec k k') as [->|Hne]; simpl.
    + by rewrite eqb_refl'.
    + by destruct (String.eqb_spec k k').
Qed.

Lemma assoc_set_ne k k' v l :
  k' <> k -> assoc k' (assoc_set k v l) = assoc k' l.
Proof.
  intros Hne. induction l as [|[k0 w] l IH]; simpl.
  - by destruct (String.eqb_spec k' k).
  - destruct (String.eqb_spec k k0) as [->|]; simpl.
    + by destruct (String.eqb_spec k' k0).
    + by rewrite IH.
Qed.

Lemma assoc_set_lookup k k' v l :
  assoc k' (assoc_set k v l) = if String.eqb k' k then Some v else assoc k' l.
Proof.
  destruct (String.eqb_spec k' k) as [->|Hne].
  - apply assoc_set_eq.
  - by apply assoc_set_ne.
Qed.

(** The assignment at the last key *)
Lemma setValueAtPath_last obj k x obj' :
  setValueAtPath obj [k] x = Some obj' ->
  exists l, obj = JObj l /\ obj' = JObj (assoc_set k x l).
Proof. destruct obj; simpl; try done. intros [= <-]. eauto. Qed.

Lemma setValueAtPath_unfold l k k' rest x :
  setValueAtPath (JObj l) (k :: k' :: rest) x =
  match assoc k (if has_key k l then l else assoc_set k (JObj []) l) with
  | Some current =>
      match setValueAtPath current (k' :: rest) x with
      | Some current' =>
          Some (JObj (assoc_set k current'
                        (if has_key k l then l
                         else assoc_set k (JObj []) l)))
      | None => None
      end
  | None => None
  end.
Proof. reflexivity. Qed.

(** One turn of the loop: the object under [k], created if missing, takes
    the rest of the path, and the other keys keep their values. *)
Lemma setValueAtPath_step obj k k' rest x obj' :
  setValueAtPath obj (k :: k' :: rest) x = Some obj' ->
  exists l l' c',
    obj = JObj l /\ obj' = JObj l' /\
    setValueAtPath (currentAt l k) (k' :: rest) x = Some c' /\
    forall k0, assoc k0 l' = if String.eqb k0 k then Some c' else assoc k0 l.
Proof.
  destruct obj as [| | | | |l]; try (simpl; done).
  rewrite setValueAtPath_unfold. unfold has_key, currentAt.
  destruct (assoc k l) as [c|] eqn:E.
  - rewrite E.
    destruct (setValueAtPath c (k' :: rest) x) as [c'|] eqn:E'; [|done].
    intros [= <-]. exists l, (assoc_set k c' l), c'.
    split; [done|]. split; [done|]. split; [by rewrite E|].
    intros k0. apply assoc_set_lookup.
  - rewrite assoc_set_eq.
    destruct (setValueAtPath (JObj []) (k' :: rest) x) as [c'|] eqn:E';
      [|done].
    intros [= <-]. eexists l, _, c'.
    split; [done|]. split; [done|]. split; [by rewrite E|].
    intros k0. rewrite !assoc_set_lookup.
    destruct (String.eqb_spec k0 k) as [->|]; [done|]. done.
Qed.

Lemma setValueAtPath_step_ok l k k' rest x c' :
  setValueAtPath (currentAt l k) (k' :: rest) x = Some c' ->
  exists obj', setValueAtPath (JObj l) (k :: k' :: rest) x = Some obj'.
Proof.
  rewrite setValueAtPath_unfold. unfold has_key, currentAt.
  destruct (assoc k l) as [c|] eqn:E.
  - rewrite E. intros ->. eauto.
  - rewrite assoc_set_eq. intros ->. eauto.
Qed.

Lemma get_path_obj l k q :
  get_path (JObj l) (k :: q) =
  match assoc k l with Some c => get_path c q | None => None end.
Proof. reflexivity. Qed.

Lemma get_path_leaf j k q :
  (forall l, j <> JArr l) -> (forall l, j <> JObj l) ->
  get_path j (k :: q) = None.
Proof.
  destruct j as [| | | |l|l]; simpl; try done; intros H1 H2;
    [by destruct (H1 l)|by destruct (H2 l)].
Qed.

(** The value written is at the path. *)
Lemma setValueAtPath_get obj p x obj' :
  p <> [] -> setValueAtPath obj p x = Some obj' -> get_path obj' p = Some x.
Proof.
  revert obj obj'. induction p as [|k p IH]; intros obj obj' Hp H; [done|].
  destruct p as [|k' rest].
  - apply setValueAtPath_last in H as (l & -> & ->).
    rewrite get_path_obj, assoc_set_eq. done.
  - apply setValueAtPath_step in H as (l & l' & c' & -> & -> & Hc & Hl).
    rewrite get_path_obj, Hl, eqb_refl'. by apply IH in Hc.
Qed.

(** Above the path there are objects. *)
Lemma setValueAtPath_above obj p x obj' q r :
  setValueAtPath obj p x = Some obj' -> p = q ++ r -> r <> [] ->
  exists l, get_path obj' q = Some (JObj l).
Proof.
  revert obj obj' q. induction p as [|k p IH]; intros obj obj' q H Hq Hr.
  - by destruct q, r.
  - destruct q as [|k0 q].
    + simpl. destruct p as [|k' rest].
      * apply setValueAtPath_last in H as (l & -> & ->). eauto.
      * apply setValueAtPath_step in H as (l & l' & c' & -> & -> & _). eauto.
    + injection Hq as <- Hq. destruct p as [|k' rest].
      * by destruct q, r.
      * apply setValueAtPath_step in H as (l & l' & c' & -> & -> & Hc & Hl).
        rewrite get_path_obj, Hl, eqb_refl'. by eapply IH.
Qed.

(** Off the path nothing changes. *)
Lemma setValueAtPath_off obj p x obj' q :
  p <> [] -> setValueAtPath obj p x = Some obj' ->
  ~ q `prefix_of` p -> ~ p `prefix_of` q ->
  get_path obj' q = get_path obj q.
Proof.
  revert obj obj' q. induction p as [|k p IH]; intros obj obj' q Hp H Hqp Hpq;
    [done|].
  destruct q as [|k0 q]; [destruct Hqp; apply prefix_nil|].
  destruct p as [|k' rest].
  - apply setValueAtPath_last in H as (l & -> & ->).
    rewrite !get_path_obj, assoc_set_lookup.
    destruct (String.eqb_spec k0 k) as [->|]; [|done].
    destruct Hpq. by exists q.
  - apply setValueAtPath_step in H as (l & l' & c' & -> & -> & Hc & Hl).
    rewrite !get_path_obj, Hl.
    destruct (String.eqb_spec k0 k) as [->|]; [|done].
    rewrite (IH _ _ q ltac:(done) Hc).
    + unfold currentAt. destruct (assoc k l); [done|].
      destruct q as [|k1 q]; [|done].
      destruct Hqp. by exists (k' :: rest).
    + intros [r Hr]. apply Hqp. exists r. by rewrite Hr.
    + intros [r Hr]. apply Hpq. exists r. by rewrite Hr.
Qed.

(** The call succeeds when the patch is an object with nothing but objects
    above the path. *)
Lemma setValueAtPath_ok l p x :
  p <> [] ->
  (forall q r y, p = q ++ r -> r <> [] -> get_path (JObj l) q = Some y ->
                 exists l', y = JObj l') ->
  exists obj', setValueAtPath (JObj l) p x = Some obj'.
Proof.
  revert l. induction p as [|k p IH]; intros l Hp H; [done|].
  destruct p as [|k' rest]; [simpl; eauto|].
  assert (exists lc, currentAt l k = JObj lc) as [lc Hlc].
  { unfold currentAt. destruct (assoc k l) as [c|] eqn:E; [|eauto].
    apply (H [k] (k' :: rest)); [done|done|]. by rewrite get_path_obj, E. }
  destruct (IH lc) as [c' Hc']; [done| |].
  - intros q r y Hq Hr Hy. revert Hlc Hy. unfold currentAt.
    destruct (assoc k l) as [c|] eqn:E.
    + intros -> Hy. apply (H (k :: q) r); [by rewrite Hq|done|].
      by rewrite get_path_obj, E.
    + intros [= <-]. destruct q as [|k1 q]; [|done].
      simpl. intros [= <-]. eauto.
  - eapply setValueAtPath_step_ok. rewrite Hlc. exact Hc'.
Qed.

(** ** Entries of well-formed trees *)

Lemma indexed_In k x n l : In (k, x) (indexed n l) -> In x l.
Proof.
  revert n. induction l as [|y l IH]; intros n; simpl; [done|].
  intros [[= _ ->]|H]; [by left|right; by eapply IH].
Qed.

Lemma indexed_keys k n l :
  In k (keys (indexed n l)) -> exists i, k = toString (n + i).
Proof.
  revert n. induction l as [|y l IH]; intros n; simpl; [done|].
  intros [<-|H].
  - exists 0%nat. by rewrite Nat.add_0_r.
  - destruct (IH _ H) as [i ->]. exists (S i). f_equal. lia.
Qed.

Lemma indexed_NoDup n l : NoDup (keys (indexed n l)).
Proof.
  revert n. induction l as [|y l IH]; intros n; simpl; [apply NoDup_nil_2|].
  apply NoDup_cons_2; [|apply IH].
  intros H. apply list_elem_of_In, indexed_keys in H as [i H].
  apply toString_inj in H. lia.
Qed.

(** Induction over a tree, with the property for the value of every
    entry. *)
Lemma json_entries_ind (P : json -> Prop) :
  (forall j, (forall kv, In kv (entries j) -> P (snd kv)) -> P j) ->
  forall j, P j.
Proof.
  intros H. induction j as [| | | |l IH|l IH] using json_ind;
    apply H; simpl; try done.
  - intros [k x] Hin. apply indexed_In in Hin.
    rewrite List.Forall_forall in IH. by apply IH.
  - intros kv Hin. rewrite List.Forall_forall in IH. by apply IH.
Qed.

Lemma wf_entries j :
  wf j -> NoDup (keys (entries j)) /\ forall kv, In kv (entries j) -> wf (snd kv).
Proof.
  destruct j as [| | | |l|l]; simpl; try (intros _; split; [apply NoDup_nil_2|done]).
  - intros H. split; [apply indexed_NoDup|].
    intros [k x] Hin. apply indexed_In in Hin. simpl.
    induction l as [|y l IH]; [done|]. destruct H as [Hy Hl].
    destruct Hin as [->|Hin]; [done|by apply IH].
  - intros [Hnd H]. split; [done|]. clear Hnd.
    induction l as [|[k y] l IH]; [done|]. destruct H as [Hy Hl].
    intros kv [<-|Hin]; [done|by apply IH].
Qed.

Lemma child_In j k x : child j k = Some x -> In (k, x) (entries j).
Proof. apply assoc_In. Qed.

Lemma In_child j k x : wf j -> In (k, x) (entries j) -> child j k = Some x.
Proof. intros H. apply In_assoc. by apply wf_entries. Qed.

Lemma child_container j k x : child j k = Some x -> isContainer j = true.
Proof. by destruct j. Qed.

(** ** The leaves emitted by [createPatch] *)

Lemma emitted_cases o t prefix :
  emitted o t prefix =
  match t with
  | JStr v =>
      match o with
      | JStr s => if String.eqb s v then [] else [(prefix, v)]
      | _ => []
      end
  | JArr _ | JObj _ =>
      if isContainer o then
        flat_map (fun kv => match child o (fst kv) with
                            | Some o' => emitted o' (snd kv) (prefix ++ [fst kv])
                            | None => []
                            end) (entries t)
      else []
  | _ => []
  end.
Proof.
  destruct t as [| | | |tl|tl]; try reflexivity.
  - assert (forall o, isContainer o = true ->
              emitted o (JArr tl) prefix =
              flat_map (fun kv => match child o (fst kv) with
                                  | Some o' =>
                                      emitted o' (snd kv) (prefix ++ [fst kv])
                                  | None => []
                                  end) (indexed 0 tl)) as H.
    { intros o' Ho'.
      transitivity
        ((fix forEach (tl : list json) (index : nat)
            : list (list string * string) :=
            match tl with
            | [] => []
            | item :: tl' =>
                match child o' (toString index) with
                | Some o => emitted o item (prefix ++ [toString index])
                | None => []
                end ++ forEach tl' (S index)
            end) tl 0%nat); [by destruct o'|].
      generalize 0%nat. induction tl as [|x tl IH]; intros n; simpl; [done|].
      by rewrite IH. }
    destruct o; try reflexivity; by apply H.
  - assert (forall o, isContainer o = true ->
              emitted o (JObj tl) prefix =
              flat_map (fun kv => match child o (fst kv) with
                                  | Some o' =>
                                      emitted o' (snd kv) (prefix ++ [fst kv])
                                  | None => []
                                  end) tl) as H.
    { intros o' Ho'.
      transitivity
        ((fix forEach (tl : list (string * json))
            : list (list string * string) :=
            match tl with
            | [] => []
            | (key, item) :: tl' =>
                match child o' key with
                | Some o => emitted o item (prefix ++ [key])
                | None => []
                end ++ forEach tl'
            end) tl); [by destruct o'|].
      induction tl as [|[k x] tl IH]; simpl; [done|]. by rewrite IH. }
    destruct o; try reflexivity; by apply H.
Qed.

(** A leaf is emitted only where both trees hold strings that differ. *)
Lemma emitted_sound t : forall o prefix p v,
  wf t -> In (p, v) (emitted o t prefix) ->
  exists q s, p = prefix ++ q /\ get_path o q = Some (JStr s) /\
              get_path t q = Some (JStr v) /\ s <> v.
Proof.
  induction t as [t IH] using json_entries_ind. intros o prefix p v Hwf.
  rewrite emitted_cases.
  assert (isContainer t = true ->
          In (p, v)
            (if isContainer o then
               flat_map (fun kv => match child o (fst kv) with
                                   | Some o' =>
                                       emitted o' (snd kv) (prefix ++ [fst kv])
                                   | None => []
                                   end) (entries t)
             else []) ->
          exists q s, p = prefix ++ q /\ get_path o q = Some (JStr s) /\
                      get_path t q = Some (JStr v) /\ s <> v) as H.
  { intros _. destruct (isContainer o); [|done].
    intros Hin. apply in_flat_map in Hin as ([k x] & Hkx & Hin). simpl in Hin.
    destruct (child o k) as [o'|] eqn:Ho; [|done].
    destruct (wf_entries _ Hwf) as [_ Hwf'].
    destruct (IH _ Hkx o' _ _ _ (Hwf' _ Hkx) Hin) as (q & s & -> & Hq & Ht & Hs).
    exists (k :: q), s. rewrite <- app_assoc. simpl. rewrite Ho.
    by rewrite (In_child _ _ _ Hwf Hkx). }
  destruct t as [| | |tv|tl|tl]; try done; try (by apply H).
  destruct o as [| | |s| |]; try done.
  destruct (String.eqb_spec s tv) as [|Hne]; [done|].
  intros [[= <- <-]|[]]. exists [], s. by rewrite app_nil_r.
Qed.

(** Where both trees hold strings that differ a leaf is emitted. *)
Lemma emitted_complete q : forall o t prefix s v,
  get_path o q = Some (JStr s) -> get_path t q = Some (JStr v) -> s <> v ->
  In (prefix ++ q, v) (emitted o t prefix).
Proof.
  induction q as [|k q IH]; intros o t prefix s v; simpl.
  - intros [= ->] [= ->] Hne. simpl.
    destruct (String.eqb_spec s v); [done|]. rewrite app_nil_r. by left.
  - destruct (child o k) as [o'|] eqn:Ho; [|done].
    destruct (child t k) as [t'|] eqn:Ht; [|done].
    intros Hq Ht' Hne. rewrite emitted_cases.
    rewrite (child_container _ _ _ Ho).
    assert (In (prefix ++ k :: q, v)
              (flat_map (fun kv => match child o (fst kv) with
                                   | Some o' =>
                                       emitted o' (snd kv) (prefix ++ [fst kv])
                                   | None => []
                                   end) (entries t))) as H.
    { apply in_flat_map. exists (k, t'). split; [by apply child_In|].
      simpl. rewrite Ho.
      replace (prefix ++ k :: q) with ((prefix ++ [k]) ++ q)
        by (by rewrite <- app_assoc).
      by eapply IH. }
    apply child_container in Ht. destruct t; try done; exact H.
Qed.

Lemma performWrites_app a b patch :
  performWrites (a ++ b) patch =
  match performWrites a patch with
  | Some patch' => performWrites b patch'
  | None => None
  end.
Proof.
  revert patch. induction a as [|[p v] a IH]; intros patch; simpl; [done|].
  destruct (setValueAtPath patch p (JStr v)); [apply IH|done].
Qed.

(** [createPatchForPath] performs the writes of the leaves emitted. *)
Lemma createPatchForPath_emitted t : forall o path patch,
  createPatchForPath o t path patch = performWrites (emitted o t path) patch.
Proof.
  induction t as [| | |tv|tl IH|tl IH] using json_ind; intros o path patch;
    try (by destruct o).
  - destruct o as [| | |s| |]; try done. simpl.
    destruct (String.eqb s tv); simpl; [done|].
    by destruct (setValueAtPath patch path (JStr tv)).
  - destruct o as [| | | |ol|ol]; try done.
    + simpl. generalize 0%nat. revert patch.
      induction IH as [|x tl Hx _ IHl]; intros patch n; [done|].
      rewrite performWrites_app. rewrite child_arr.
      destruct (nth_error ol n) as [o'|].
      * rewrite <- Hx.
        destruct (createPatchForPath o' x (path ++ [toString n]) patch);
          [apply IHl|done].
      * simpl. apply IHl.
    + simpl. generalize 0%nat. revert patch.
      induction IH as [|x tl Hx _ IHl]; intros patch n; [done|].
      rewrite performWrites_app.
      change (child (JObj ol) (toString n)) with (assoc (toString n) ol).
      destruct (assoc (toString n) ol) as [o'|].
      * rewrite <- Hx.
        destruct (createPatchForPath o' x (path ++ [toString n]) patch);
          [apply IHl|done].
      * simpl. apply IHl.
  - assert (isContainer o = true ->
            createPatchForPath o (JObj tl) path patch =
            performWrites (emitted o (JObj tl) path) patch) as H.
    { intros Ho.
      transitivity
        ((fix forEach (tl : list (string * json)) (patch : json)
            : option json :=
            match tl with
            | [] => Some patch
            | (key, item) :: tl' =>
                match
                  match child o key with
                  | Some o' => createPatchForPath o' item (path ++ [key]) patch
                  | None => Some patch
                  end
                with
                | Some patch' => forEach tl' patch'
                | None => None
                end
            end) tl patch); [by destruct o|].
      rewrite emitted_cases, Ho. simpl entries. revert patch.
      induction IH as [|[k x] tl Hx _ IHl]; intros patch; [done|].
      simpl flat_map. rewrite performWrites_app. simpl in Hx.
      destruct (child o k) as [o'|].
      * rewrite <- Hx.
        destruct (createPatchForPath o' x (path ++ [k]) patch);
          [apply IHl|done].
      * simpl. apply IHl. }
    destruct o; try done; by apply H.
Qed.

(** ** The patch as the record of the writes *)

Lemma get_path_string_below v r : r <> [] -> get_path (JStr v) r = None.
Proof. by destruct r. Qed.

(** A write at a path that no other write lies above or below keeps the
    patch a record of the writes. *)
Lemma write_patchOf W patch p v :
  patchOf W patch -> p <> [] ->
  (forall p' v', In (p', v') W -> p' `prefix_of` p \/ p `prefix_of` p' ->
                 p' = p /\ v' = v) ->
  exists patch', setValueAtPath patch p (JStr v) = Some patch' /\
                 patchOf (W ++ [(p, v)]) patch'.
Proof.
  intros ([l ->] & Hw & Hall) Hp Hfree.
  destruct (setValueAtPath_ok l p (JStr v) Hp) as [patch' Hset].
  { intros q r y -> Hr Hy. destruct (Hall _ _ Hy) as [?|(v' & -> & Hin)]; [done|].
    destruct (Hfree _ _ Hin) as [E _]; [left; by exists r|].
    apply (f_equal length) in E. rewrite length_app in E.
    destruct r; [done|simpl in E; lia]. }
  exists patch'. split; [done|]. split; [|split].
  - destruct (setValueAtPath_above _ _ _ _ [] p Hset eq_refl Hp) as [l' Hl'].
    injection Hl' as ->. eauto.
  - intros p' v' Hin. apply in_app_iff in Hin as [Hin|[[= <- <-]|[]]].
    + destruct (decide (p' `prefix_of` p)) as [Hpre|Hpre].
      { destruct (Hfree _ _ Hin) as [-> ->]; [by left|].
        by eapply setValueAtPath_get. }
      destruct (decide (p `prefix_of` p')) as [Hpre'|Hpre'].
      { destruct (Hfree _ _ Hin) as [-> ->]; [by right|].
        by eapply setValueAtPath_get. }
      rewrite (setValueAtPath_off _ _ _ _ _ Hp Hset Hpre Hpre'). by apply Hw.
    + by eapply setValueAtPath_get.
  - intros q y Hy.
    destruct (decide (q `prefix_of` p)) as [[r Hr]|Hpre].
    { destruct r as [|k r].
      - rewrite app_nil_r in Hr. subst q.
        rewrite (setValueAtPath_get _ _ _ _ Hp Hset) in Hy.
        injection Hy as <-. right. exists v. split; [done|].
        apply in_app_iff. right. by left.
      - left. destruct (setValueAtPath_above _ _ _ _ q (k :: r) Hset Hr)
          as [l' Hl']; [done|]. rewrite Hl' in Hy. injection Hy as <-. eauto. }
    destruct (decide (p `prefix_of` q)) as [[r Hr]|Hpre'].
    { subst q. rewrite get_path_app in Hy.
      rewrite (setValueAtPath_get _ _ _ _ Hp Hset) in Hy.
      destruct r as [|k r]; [|done].
      destruct Hpre. exists []. by rewrite !app_nil_r. }
    rewrite (setValueAtPath_off _ _ _ _ _ Hp Hset Hpre Hpre') in Hy.
    destruct (Hall _ _ Hy) as [?|(v' & -> & Hin)]; [by left|].
    right. exists v'. split; [done|]. apply in_app_iff. by left.
Qed.

Lemma performWrites_patchOf ws : forall W patch,
  patchOf W patch ->
  (forall p v, In (p, v) (W ++ ws) -> p <> []) ->
  (forall p v p' v', In (p, v) (W ++ ws) -> In (p', v') (W ++ ws) ->
                     p `prefix_of` p' -> p = p' /\ v = v') ->
  exists patch', performWrites ws patch = Some patch' /\
                 patchOf (W ++ ws) patch'.
Proof.
  induction ws as [|[p v] ws IH]; intros W patch HW Hne Hfree.
  - exists patch. by rewrite app_nil_r.
  - destruct (write_patchOf W patch p v HW) as (patch1 & Hset & H1).
    + apply (Hne p v). apply in_app_iff. right. by left.
    + intros p' v' Hin [Hpre|Hpre].
      * apply (Hfree p' v' p v); [apply in_app_iff; by left| |done].
        apply in_app_iff. right. by left.
      * destruct (Hfree p v p' v') as [-> ->]; [| |done|done].
        -- apply in_app_iff. right. by left.
        -- apply in_app_iff. by left.
    + simpl. rewrite Hset.
      replace (W ++ (p, v) :: ws) with ((W ++ [(p, v)]) ++ ws)
        by (by rewrite <- app_assoc).
      apply IH; [done| |].
      * intros p0 v0 Hin. apply (Hne p0 v0). by rewrite <- app_assoc in Hin.
      * intros p0 v0 p1 v1 H0 H1'. apply Hfree; by rewrite <- app_assoc in *.
Qed.

(** String leaves of one tree do not lie above one another. *)
Lemma string_leaves_prefix_free j p p' s s' :
  get_path j p = Some (JStr s) -> get_path j p' = Some (JStr s') ->
  p `prefix_of` p' -> p = p'.
Proof.
  intros Hp Hp' [r ->]. rewrite get_path_app, Hp in Hp'.
  destruct r as [|k r]; [by rewrite app_nil_r|done].
Qed.

(** Unless the two roots are strings that differ, [createPatch] returns a
    patch that records the leaves emitted. *)
Lemma createPatch_patchOf original translated :
  wf translated ->
  (forall s v, original = JStr s -> translated = JStr v -> s = v) ->
  exists patch, createPatch original translated = Some patch /\
                patchOf (emitted original translated []) patch.
Proof.
  intros Hwf Hroot. unfold createPatch. rewrite createPatchForPath_emitted.
  apply (performWrites_patchOf _ [] (JObj [])).
  - split; [eauto|]. split; [done|]. intros p x.
    destruct p as [|k p]; [|done]. intros [= <-]. eauto.
  - simpl. intros p v Hin ->.
    apply emitted_sound in Hin as (q & s & Hq & Ho & Ht & Hne); [|done].
    simpl in Hq. subst q. simpl in *. injection Ho as ->. injection Ht as ->.
    by apply Hne, Hroot.
  - simpl. intros p v p' v' Hin Hin' Hpre.
    apply emitted_sound in Hin as (q & s & -> & Ho & Ht & _); [|done].
    apply emitted_sound in Hin' as (q' & s' & -> & Ho' & Ht' & _); [|done].
    simpl in *.
    assert (q = q') as <- by (by eapply string_leaves_prefix_free).
    split; [done|]. congruence.
Qed.


(** ** The patch applied as overrides *)

Lemma override_unfold patch o prefix :
  override patch o prefix =
  match patch_leaf patch prefix with
  | Some leaf => leaf
  | None =>
      match o with
      | JArr l => JArr (overrideArr patch prefix l 0)
      | JObj l => JObj (overrideObj patch prefix l)
      | _ => o
      end
  end.
Proof. by destruct o. Qed.

Lemma overrideArr_length patch prefix l n :
  length (overrideArr patch prefix l n) = length l.
Proof. revert n. induction l; intros; simpl; [done|]. by rewrite IHl. Qed.

Lemma overrideArr_nth patch prefix l n i :
  nth_error (overrideArr patch prefix l n) i =
  option_map (fun x => override patch x (prefix ++ [toString (n + i)]))
    (nth_error l i).
Proof.
  revert n i. induction l as [|x l IH]; intros n i; simpl.
  - by destruct i.
  - destruct i as [|i]; simpl.
    + by rewrite Nat.add_0_r.
    + rewrite IH. by replace (S n + i)%nat with (n + S i)%nat by lia.
Qed.

Lemma overrideObj_assoc patch prefix l k :
  assoc k (overrideObj patch prefix l) =
  option_map (fun x => override patch x (prefix ++ [k])) (assoc k l).
Proof.
  induction l as [|[k' v] l IH]; simpl; [done|].
  destruct (String.eqb_spec k k') as [->|_]; [done|apply IH].
Qed.

Section Reconstruction.
Variables original translated patch : json.
Hypothesis Hwf : wf translated.
Hypothesis Hpatch : patchOf (emitted original translated []) patch.

(** A leaf of the patch is a string that differs from the original. *)
Lemma patch_leaf_sound p leaf :
  patch_leaf patch p = Some leaf ->
  exists s v, leaf = JStr v /\ get_path original p = Some (JStr s) /\
              get_path translated p = Some (JStr v) /\ s <> v.
Proof.
  destruct Hpatch as (_ & _ & Hall). unfold patch_leaf.
  destruct (get_path patch p) as [x|] eqn:Hx; [|done].
  destruct (Hall _ _ Hx) as [[l ->]|(v & -> & Hin)]; [done|].
  intros [= <-].
  apply emitted_sound in Hin as (q & s & Hq & ? & ? & ?); [|done].
  simpl in Hq. subst q. by exists s, v.
Qed.

Lemma patch_leaf_complete p s v :
  get_path original p = Some (JStr s) ->
  get_path translated p = Some (JStr v) -> s <> v ->
  patch_leaf patch p = Some (JStr v).
Proof.
  intros Ho Ht Hne. destruct Hpatch as (_ & Hw & _). unfold patch_leaf.
  rewrite (Hw p v); [done|].
  by apply (emitted_complete p original translated [] s v).
Qed.

Lemma override_retranslation o : forall t prefix,
  retranslation o t ->
  get_path original prefix = Some o -> get_path translated prefix = Some t ->
  deepEqual (override patch o prefix) t.
Proof.
  induction o as [| | |s|l IH|l IH] using json_ind; intros t prefix Hrt Ho Ht;
    rewrite override_unfold;
    (destruct (patch_leaf patch prefix) as [leaf|] eqn:Hleaf;
     [apply patch_leaf_sound in Hleaf as (s0 & v0 & -> & Ho' & Ht' & _);
      rewrite Ht in Ht'; injection Ht' as ->; apply deepEqual_refl|]);
    inversion Hrt; subst; try apply deepEqual_refl.
  - destruct (decide (s = s')) as [->|Hne]; [apply deepEqual_refl|].
    by rewrite (patch_leaf_complete _ _ _ Ho Ht Hne) in Hleaf.
  - constructor; [by rewrite overrideArr_length|].
    intros i x x' Hx Hx'. rewrite overrideArr_nth in Hx. simpl in Hx.
    destruct (nth_error l i) as [y|] eqn:Hy; [|done]. injection Hx as <-.
    rewrite List.Forall_forall in IH.
    apply IH; [by eapply nth_error_In|by eauto| |].
    + rewrite get_path_app, Ho. simpl. by rewrite child_arr, Hy.
    + rewrite get_path_app, Ht. simpl. by rewrite child_arr, Hx'.
  - constructor.
    + intros k. rewrite overrideObj_assoc.
      match goal with H : forall k, assoc k l = None <-> _ |- _ =>
        rewrite <- H end.
      by destruct (assoc k l).
    + intros k x x' Hx Hx'. rewrite overrideObj_assoc in Hx.
      destruct (assoc k l) as [y|] eqn:Hy; [|done]. injection Hx as <-.
      rewrite List.Forall_forall in IH.
      apply (IH (k, y)); [by apply assoc_In|by eauto| |].
      * rewrite get_path_app, Ho. simpl. unfold child. simpl. by rewrite Hy.
      * rewrite get_path_app, Ht. simpl. unfold child. simpl. by rewrite Hx'.
Qed.

End Reconstruction.





(** ** The cache key *)

Module CacheKeyFacts.
Import CacheKey.

Lemma chr_eq a c : Regex.chr a c = true <-> a = c.
Proof.
  unfold Regex.chr, Regex.code. rewrite Nat.eqb_eq. split; [|by intros ->].
  intros H. rewrite <- (ascii_nat_embedding a), <- (ascii_nat_embedding c).
  by rewrite H.
Qed.

(** [b64] is one to one, and no digit is the padding character. *)
Lemma unb64_b64 x : unb64 (b64 x) = Some x.
Proof.
  destruct x as [[[[[x5 x4] x3] x2] x1] x0].
  destruct x5, x4, x3, x2, x1, x0; vm_compute; reflexivity.
Qed.

Lemma b64_inj x y : b64 x = b64 y -> x = y.
Proof.
  intros H. apply (f_equal unb64) in H. rewrite !unb64_b64 in H. congruence.
Qed.

Lemma b64_not_pad x : b64 x <> "="%char.
Proof.
  destruct x as [[[[[x5 x4] x3] x2] x1] x0].
  destruct x5, x4, x3, x2, x1, x0; vm_compute; discriminate.
Qed.

Ltac b64_facts :=
  repeat match goal with
         | H : b64 _ = "="%char |- _ => destruct (b64_not_pad _ H)
         | H : "="%char = b64 _ |- _ => symmetry in H; destruct (b64_not_pad _ H)
         | H : b64 _ = b64 _ |- _ => apply b64_inj in H; simplify_eq
         end.

Lemma btoa_inj_bounded n : forall s1 s2,
  (String.length s1 <= n)%nat -> btoa s1 = btoa s2 -> s1 = s2.
Proof.
  induction n as [|n IH]; intros s1 s2 Hlen H.
  - destruct s1; [|simpl in Hlen; lia].
    destruct s2 as [|[] [|[] [|[] ?]]]; simpl in H; congruence.
  - destruct s1 as [|[a0 a1 a2 a3 a4 a5 a6 a7]
                      [|[b0 b1 b2 b3 b4 b5 b6 b7]
                         [|[c0 c1 c2 c3 c4 c5 c6 c7] s1]]];
      destruct s2 as [|[a0' a1' a2' a3' a4' a5' a6' a7']
                        [|[b0' b1' b2' b3' b4' b5' b6' b7']
                           [|[c0' c1' c2' c3' c4' c5' c6' c7'] s2]]];
      simpl in H; try discriminate; try reflexivity;
      repeat match goal with
             | H : String _ _ = String _ _ |- _ => injection H as ? ?
             end;
      b64_facts; subst; try reflexivity.
    f_equal. f_equal. f_equal. apply IH; [simpl in Hlen; lia|done].
Qed.

Lemma btoa_inj s1 s2 : btoa s1 = btoa s2 -> s1 = s2.
Proof. by apply (btoa_inj_bounded (String.length s1)). Qed.

(** [decodeHead] undoes [encodeUnit]. *)
Lemma decodeHead_encodeUnit c rest :
  decodeHead (encodeUnit c ++ rest) = Some (c, rest).
Proof.
  destruct c as [b0 b1 b2 b3 b4 b5 b6 b7].
  destruct b0, b1, b2, b3, b4, b5, b6, b7; vm_compute; reflexivity.
Qed.

Lemma encodeURIComponent_inj s1 : forall s2,
  encodeURIComponent s1 = encodeURIComponent s2 -> s1 = s2.
Proof.
  induction s1 as [|c1 s1 IH]; intros [|c2 s2] H; simpl in H.
  - done.
  - apply (f_equal decodeHead) in H.
    by rewrite decodeHead_encodeUnit in H.
  - apply (f_equal decodeHead) in H.
    by rewrite decodeHead_encodeUnit in H.
  - apply (f_equal decodeHead) in H.
    rewrite !decodeHead_encodeUnit in H. injection H as -> H.
    f_equal. by apply IH.
Qed.

Lemma append_cons c (a b : string) :
  (String c a ++ b)%string = String c (a ++ b)%string.
Proof. reflexivity. Qed.

Lemma append_nil (b : string) : ("" ++ b)%string = b.
Proof. reflexivity. Qed.

(** A text followed by [-] and a code without [-] splits in one way. *)
Lemma split_at_last_hyphen (a : string) : forall a' b b' : string,
  hyphenFree b = true -> hyphenFree b' = true ->
  (a ++ String "-" b = a' ++ String "-" b')%string -> a = a' /\ b = b'.
Proof.
  assert (forall a b : string, hyphenFree (a ++ String "-" b)%string = false)
    as Hno.
  { intros a0 b0. induction a0 as [|c a0 IH]; [done|].
    rewrite append_cons. simpl. rewrite IH. apply andb_false_r. }
  induction a as [|c a IH]; intros [|c' a'] b b' Hb Hb' H;
    rewrite ?append_cons, ?append_nil in H.
  - by injection H as ->.
  - injection H as <- ->. by rewrite (Hno a' b') in Hb.
  - injection H as -> <-. by rewrite (Hno a b) in Hb'.
  - injection H as -> H. destruct (IH _ _ _ Hb Hb' H) as [-> ->]. done.
Qed.

Lemma append_assoc (a b c : string) :
  (a ++ b ++ c = (a ++ b) ++ c)%string.
Proof.
  induction a as [|x a IH]; [done|]. rewrite !append_cons. by rewrite IH.
Qed.

Lemma template_inj t1 s1 g1 t2 s2 g2 :
  hyphenFree s1 = true -> hyphenFree g1 = true ->
  hyphenFree s2 = true -> hyphenFree g2 = true ->
  template t1 s1 g1 = template t2 s2 g2 ->
  t1 = t2 /\ s1 = s2 /\ g1 = g2.
Proof.
  unfold template. intros Hs1 Hg1 Hs2 Hg2 H.
  change ((t1 ++ String "-" (s1 ++ String "-" g1))%string
          = (t2 ++ String "-" (s2 ++ String "-" g2))%string) in H.
  change (String "-" (s1 ++ String "-" g1)%string)
    with (String "-" s1 ++ String "-" g1)%string in H.
  change (String "-" (s2 ++ String "-" g2)%string)
    with (String "-" s2 ++ String "-" g2)%string in H.
  rewrite !append_assoc in H.
  apply split_at_last_hyphen in H as [H ->]; [|done|done].
  apply split_at_last_hyphen in H as [-> ->]; done.
Qed.

End CacheKeyFacts.

(** C4, as the code has it.  The key is a function of the triple alone.
    Two triples whose language codes hold no [-] have the same key only
    when they are the same triple: identical text between different
    language pairs, and different texts, have different keys. *)
Theorem getCacheKey_injective :
  forall text1 source1 target1 text2 source2 target2 : string,
    CacheKey.hyphenFree source1 = true -> CacheKey.hyphenFree target1 = true ->
    CacheKey.hyphenFree source2 = true -> CacheKey.hyphenFree target2 = true ->
    CacheKey.getCacheKey text1 source1 target1
    = CacheKey.getCacheKey text2 source2 target2 ->
    text1 = text2 /\ source1 = source2 /\ target1 = target2.
Proof.
  intros t1 s1 g1 t2 s2 g2 Hs1 Hg1 Hs2 Hg2 H. unfold CacheKey.getCacheKey in H.
  apply CacheKeyFacts.btoa_inj, CacheKeyFacts.encodeURIComponent_inj in H.
  by apply CacheKeyFacts.template_inj.
Qed.

Lemma getCacheKey_injective_witness :
  CacheKey.getCacheKey "Hello" "en" "fr" = CacheKey.getCacheKey "Hello" "en" "fr"
  /\ ("Hello" = "Hello" /\ "en" = "en" /\ "fr" = "fr").
Proof.
  split; [reflexivity|].
  apply (getCacheKey_injective "Hello" "en" "fr" "Hello" "en" "fr");
    reflexivity.
Defined.

(** C4 as stated fails: the three parts are joined by [-] without
    escaping, so a [-] in a part moves the cut. *)
Lemma getCacheKey_collision_counterexample :
  CacheKey.getCacheKey "a-b" "c" "d" = CacheKey.getCacheKey "a" "b-c" "d" /\
  ("a-b", "c", "d") <> ("a", "b-c", "d").
Proof. split; [vm_compute; reflexivity|discriminate]. Qed.

(** ** The retry loop of a job *)

Section ProcessJob.
Variable translate : nat -> request -> string + string.
Variable detectLanguage : string -> string.

Lemma processJob_loop_post fuel : forall job config w job' w',
  processJob_loop translate detectLanguage fuel job config w = Some (job', w') ->
  (status job' = JobCompleted \/ status job' = JobError) /\
  (status job' = JobError ->
   (maxRetries config < Z.of_nat (retryCount job'))%Z /\
   exists message, error job' = Some message) /\
  (retryCount job <= retryCount job')%nat.
Proof.
  induction fuel as [|fuel IH]; intros job config w job' w'; [done|].
  cbn [processJob_loop].
  destruct (cachedResult w (markTranslating job)) as [cached|].
  { intros [= <- <-]. simpl. split; [by left|]. split; [done|lia]. }
  destruct (translate _ _) as [translated|message].
  { intros [= <- <-]. simpl. split; [by left|]. split; [done|lia]. }
  destruct (Z.leb_spec (Z.of_nat (retryCount (countRetry (markTranslating job))))
              (maxRetries config)) as [Hle|Hgt].
  - intros H. apply IH in H as (H1 & H2 & H3). simpl in H3.
    split; [done|]. split; [done|lia].
  - intros [= <- <-]. simpl in *. split; [by right|]. split; [|lia].
    intros _. split; [lia|eauto].
Qed.

Lemma processJob_loop_total fuel : forall job config w,
  (Z.to_nat (maxRetries config - Z.of_nat (retryCount job)) < fuel)%nat ->
  exists r, processJob_loop translate detectLanguage fuel job config w = Some r.
Proof.
  induction fuel as [|fuel IH]; intros job config w Hfuel; [lia|].
  cbn [processJob_loop].
  destruct (cachedResult w (markTranslating job)) as [cached|]; [eauto|].
  destruct (translate _ _) as [translated|message]; [eauto|].
  destruct (Z.leb_spec (Z.of_nat (retryCount (countRetry (markTranslating job))))
              (maxRetries config)) as [Hle|Hgt]; [|eauto].
  apply IH. simpl in *. lia.
Qed.

Lemma processJob_loop_budget job config w :
  processJob_loop translate detectLanguage (retryBudget job config) job config w
  = Some (processJob translate detectLanguage job config w).
Proof.
  unfold processJob.
  destruct (processJob_loop_total (retryBudget job config) job config w)
    as [r ->]; [unfold retryBudget; lia|done].
Qed.

End ProcessJob.

(** C6.  [processJob] returns for every job.  When an attempt fails (the
    cache misses and the backend throws), [retryCount] is incremented; if
    the incremented count is at most [maxRetries], the job waits
    [2^retryCount] seconds and [processJob] runs again on it, from the
    cache lookup on; otherwise the job gets the status [error] and the
    message of the error.  A job ends as [completed] or [error], and one
    that ends as [error] has a [retryCount] above [maxRetries]. *)
Theorem processJob_retry :
  forall (translate : nat -> request -> string + string)
         (detectLanguage : string -> string)
         (job : TranslationJob) (config : TranslationConfig) (w : world),
    let job1 := countRetry (markTranslating job) in
    let w1 := afterRequest detectLanguage (markTranslating job) w in
    processJob_loop translate detectLanguage (retryBudget job config)
      job config w
    = Some (processJob translate detectLanguage job config w) /\
    (forall message,
        cachedResult w (markTranslating job) = None ->
        translate (length (requests w))
          (attemptRequest detectLanguage (markTranslating job) w)
        = inr message ->
        retryCount job1 = S (retryCount job) /\
        if (Z.of_nat (retryCount job1) <=? maxRetries config)%Z then
          processJob translate detectLanguage job config w
          = processJob translate detectLanguage job1 config
              (sleep (2 ^ Z.of_nat (retryCount job1) * 1000)%Z
                 (addLog (LogRetry (retryCount job1) (maxRetries config)
                            (originalText job)) w1))
        else
          processJob translate detectLanguage job config w
          = (set_job job1 (translatedText job1) JobError (Some message)
               (retryCount job1),
             addLog (LogFailed (originalText job) message) w1)) /\
    (let job' := fst (processJob translate detectLanguage job config w) in
     (status job' = JobCompleted \/ status job' = JobError) /\
     (status job' = JobError ->
      (maxRetries config < Z.of_nat (retryCount job'))%Z /\
      exists message, error job' = Some message) /\
     (retryCount job <= retryCount job')%nat).
Proof.
  intros translate detectLanguage job config w job1 w1.
  split; [apply processJob_loop_budget|]. split.
  - intros message Hmiss Hfail. split; [done|].
    pose proof (processJob_loop_budget translate detectLanguage job config w)
      as H.
    unfold retryBudget in H. cbn [processJob_loop] in H.
    rewrite Hmiss, Hfail in H. fold job1 w1 in H.
    destruct (Z.leb_spec (Z.of_nat (retryCount job1)) (maxRetries config))
      as [Hle|Hgt]; [|by injection H as <-].
    replace (Z.to_nat (maxRetries config - Z.of_nat (retryCount job)))
      with (retryBudget job1 config) in H
      by (unfold retryBudget; subst job1; simpl in *; lia).
    rewrite processJob_loop_budget in H. by injection H as <-.
  - pose proof (processJob_loop_budget translate detectLanguage job config w)
      as H.
    destruct (processJob translate detectLanguage job config w) as [job' w'].
    by apply processJob_loop_post in H.
Qed.

(** A backend that always fails, a retry budget of one: the first failure
    of a fresh job leads to a retry after two seconds. *)
Lemma processJob_retry_witness :
  let translate := fun (_ : nat) (_ : request) => inr "boom" : string + string in
  let detectLanguage := fun _ : string => "en" in
  let job := Job "Hello" None "en" "fr" JobPending None 0 in
  let config := Config "en" "fr" 50%positive 1%Z in
  let w := World ∅ [] [] [] 0 in
  processJob translate detectLanguage job config w
  = processJob translate detectLanguage
      (Job "Hello" None "en" "fr" JobTranslating None 1) config
      (World ∅ [Request "Hello" "en" "fr"] [2000%Z]
         [LogRetry 1 1%Z "Hello"] 0).
Proof.
  intros translate detectLanguage job config w.
  destruct (processJob_retry translate detectLanguage job config w)
    as (_ & H & _).
  destruct (H "boom" eq_refl eq_refl) as [_ H']. exact H'.
Defined.

(** ** Starting a session *)

(** C7.  [startTranslation] on a service that is processing throws
    [AlreadyRunning]; on a service that is not processing and a tree
    without translatable strings it throws [NoTranslatableContent].  In
    both cases the service and the world are left as they were: no
    session, batch or job is created, nothing is logged and the backend is
    not called.  With translatable strings a session is created and becomes
    the current session. *)
Theorem startTranslation_errors :
  forall (translate : nat -> request -> string + string)
         (detectLanguage : string -> string) (pauseSignal : nat -> bool)
         (jsonData : json) (config : TranslationConfig)
         (current : option TranslationSession) (pause : bool) (w : world),
    startTranslation translate detectLanguage pauseSignal jsonData config
      (Service current true pause) w
    = (inl AlreadyRunning, Service current true pause, w) /\
    match extractStrings jsonData [] with
    | [] =>
        startTranslation translate detectLanguage pauseSignal jsonData config
          (Service current false pause) w
        = (inl NoTranslatableContent, Service current false pause, w)
    | _ :: _ =>
        exists session pause' w',
          startTranslation translate detectLanguage pauseSignal jsonData
            config (Service current false pause) w
          = (inr session, Service (Some session) false pause', w')
    end.
Proof.
  intros. split; [reflexivity|]. unfold startTranslation. simpl.
  destruct (extractStrings jsonData []) as [|o strings]; [reflexivity|].
  destruct (processBatches _ _ _ _ _ _ _) as [[session pause'] w'].
  destruct (negb pause'); eauto.
Qed.

(** ** Resuming a session *)

Section Resume.
Variable translate : nat -> request -> string + string.
Variable detectLanguage : string -> string.
Variable pauseSignal : nat -> bool.

Lemma runJobs_paused js config w : runJobs translate detectLanguage pauseSignal js config true w = (true, w).
Proof. by destruct js. Qed.

Lemma runJobs_app a b config paused w :
  runJobs translate detectLanguage pauseSignal (a ++ b) config paused w =
  runJobs translate detectLanguage pauseSignal b config (fst (runJobs translate detectLanguage pauseSignal a config paused w))
    (snd (runJobs translate detectLanguage pauseSignal a config paused w)).
Proof.
  revert paused w. induction a as [|job a IH]; intros paused w; simpl; [done|].
  destruct paused; [by rewrite runJobs_paused|].
  destruct (processJob translate detectLanguage job config w) as [job' w']. apply IH.
Qed.

(** The loop over the jobs of a batch runs the pending and error jobs and
    leaves the other jobs as they are. *)
Lemma processJobs_runJobs js : forall config paused w,
  let '(js', paused', w') := processJobs translate detectLanguage pauseSignal js config paused w in
  (paused', w') = runJobs translate detectLanguage pauseSignal (List.filter pendingOrError js) config paused w /\
  length js' = length js /\
  forall j job, nth_error js j = Some job -> pendingOrError job = false ->
                nth_error js' j = Some job.
Proof.
  induction js as [|job js IH]; intros config paused w; simpl; [done|].
  destruct (pendingOrError job) eqn:Hp; simpl.
  - destruct paused; [done|].
    destruct (processJob translate detectLanguage job config w) as [job' w'].
    specialize (IH config (pauseSignal (ticks w')) (tick w')).
    destruct (processJobs translate detectLanguage pauseSignal js config _ _) as [[js' paused'] w''].
    destruct IH as (-> & Hlen & Hsame). split; [done|]. split; [simpl; lia|].
    intros [|j] job0; simpl; [|by apply Hsame]. intros [= ->]. congruence.
  - specialize (IH config paused w).
    destruct (processJobs translate detectLanguage pauseSignal js config _ _) as [[js' paused'] w''].
    destruct IH as (-> & Hlen & Hsame). split; [done|]. split; [simpl; lia|].
    intros [|j] job0; simpl; [done|by apply Hsame].
Qed.

(** The loop over the batches runs the jobs of [todo] and leaves the jobs
    that are not pending or error as they are. *)
Lemma processBatchList_runJobs bs : forall config touched paused w,
  let '(bs', _, paused', w') := processBatchList translate detectLanguage pauseSignal bs config touched paused w in
  (paused', w') = runJobs translate detectLanguage pauseSignal (todo bs) config paused w /\
  length bs' = length bs /\
  forall i b, nth_error bs i = Some b ->
    exists b', nth_error bs' i = Some b' /\
      forall j job, nth_error (jobs b) j = Some job ->
                    pendingOrError job = false ->
                    nth_error (jobs b') j = Some job.
Proof.
  induction bs as [|batch bs IH]; intros config touched paused w.
  - simpl. split; [done|]. split; [done|]. by intros [|i] b.
  - cbn [processBatchList]. destruct paused.
    { rewrite runJobs_paused. split; [done|]. split; [done|]. eauto. }
    assert (batch_status batch = BatchCompleted \/
            batch_status batch <> BatchCompleted) as [Hc|Hc]
        by (destruct (batch_status batch); auto; right; discriminate).
    + rewrite Hc. specialize (IH config touched false w).
      destruct (processBatchList translate detectLanguage pauseSignal bs config touched false w)
        as [[[bs' touched'] paused'] w'].
      destruct IH as (-> & Hlen & Hsame).
      unfold todo at 1. simpl. rewrite Hc. simpl. fold (todo bs).
      split; [done|]. split; [simpl; lia|].
      intros [|i] b; simpl; [intros [= <-]; eauto|by apply Hsame].
    + assert (todo (batch :: bs) =
              List.filter pendingOrError (jobs batch) ++ todo bs) as ->
          by (unfold todo; simpl; by destruct (batch_status batch)).
      rewrite runJobs_app.
      assert (forall A (x y : A),
                 match batch_status batch with
                 | BatchCompleted => x
                 | _ => y
                 end = y) as -> by (intros; by destruct (batch_status batch)).
      unfold processBatch.
      pose proof (processJobs_runJobs (jobs batch) config false w) as Hjobs.
      destruct (processJobs translate detectLanguage pauseSignal (jobs batch) config false w)
        as [[js' paused1] w1].
      destruct Hjobs as (<- & Hlen1 & Hsame1). simpl.
      specialize (IH config true paused1 w1).
      destruct (processBatchList translate detectLanguage pauseSignal bs config true paused1 w1)
        as [[[bs' touched'] paused'] w'].
      destruct IH as (-> & Hlen & Hsame).
      split; [done|]. split; [simpl; lia|].
      intros [|i] b; simpl; [intros [= <-]; eauto|by apply Hsame].
Qed.

(** The calls of the backend that a run of [processJob] adds are calls for
    the text of the job. *)
Lemma processJob_loop_requests fuel : forall job config w job' w',
  processJob_loop translate detectLanguage fuel job config w = Some (job', w') ->
  exists new, requests w' = requests w ++ new /\
              forall r, In r new -> q r = originalText job.
Proof.
  induction fuel as [|fuel IH]; intros job config w job' w'; [done|].
  cbn [processJob_loop].
  assert (requests (afterRequest detectLanguage (markTranslating job) w)
          = requests w
              ++ [attemptRequest detectLanguage (markTranslating job) w])
    as Hreq.
  { unfold afterRequest, detectSource. simpl.
    by destruct (String.eqb (sourceLanguage job) "auto"). }
  destruct (cachedResult w (markTranslating job)) as [cached|].
  { intros [= <- <-]. exists []. by rewrite app_nil_r. }
  destruct (translate _ _) as [translated|message].
  { intros [= <- <-]. eexists. split; [exact Hreq|].
    by intros r [<-|[]]. }
  destruct (Z.leb_spec (Z.of_nat (retryCount (countRetry (markTranslating job))))
              (maxRetries config)) as [Hle|Hgt].
  - intros H. apply IH in H as (new & Hnew & Hq).
    change (requests w' =
            requests (afterRequest detectLanguage (markTranslating job) w)
              ++ new) in Hnew.
    rewrite Hreq in Hnew. rewrite <- app_assoc in Hnew.
    eexists. split; [exact Hnew|]. intros r [<-|Hin]; [done|].
    by apply Hq in Hin.
  - intros [= <- <-]. eexists. split; [exact Hreq|].
    by intros r [<-|[]].
Qed.

Lemma runJobs_requests js : forall config paused w,
  exists new,
    requests (snd (runJobs translate detectLanguage pauseSignal js config paused w)) = requests w ++ new /\
    forall r, In r new -> exists job, In job js /\ q r = originalText job.
Proof.
  induction js as [|job js IH]; intros config paused w; simpl.
  - exists []. by rewrite app_nil_r.
  - destruct paused; [exists []; by rewrite app_nil_r|].
    pose proof (processJob_loop_budget translate detectLanguage job config w)
      as H.
    destruct (processJob translate detectLanguage job config w) as [job' w'].
    apply processJob_loop_requests in H as (new1 & H1 & Hq1).
    destruct (IH config (pauseSignal (ticks w')) (tick w'))
      as (new2 & H2 & Hq2).
    exists (new1 ++ new2). split.
    + rewrite H2. simpl. rewrite H1. by rewrite app_assoc.
    + intros r Hin. apply in_app_iff in Hin as [Hin|Hin].
      * exists job. split; [by left|by apply Hq1].
      * destruct (Hq2 _ Hin) as (job0 & ? & ?). exists job0.
        split; [by right|done].
Qed.

Lemma todo_pendingOrError bs :
  List.Forall (fun job => pendingOrError job = true) (todo bs).
Proof.
  apply List.Forall_forall. intros job Hin. unfold todo in Hin.
  apply in_flat_map in Hin as (b & _ & Hin).
  destruct (batch_status b); try done; by apply List.filter_In in Hin as [_ ?].
Qed.

End Resume.

Lemma batches_set_batches session bs touched :
  batches (set_batches session bs touched) = bs.
Proof. by destruct touched. Qed.

(** [processBatches] in terms of the loop over the batches *)
Lemma processBatches_unfold translate detectLanguage pauseSignal
    session config w :
  processBatches translate detectLanguage pauseSignal session config false w =
  match processBatchList translate detectLanguage pauseSignal
          (batches session) config false false w with
  | (bs', touched', paused', w1) =>
      if paused' then
        (set_status (set_batches session bs' touched') SessionPaused,
         true, w1)
      else
        (fst (generateFinalResult (set_batches session bs' touched') w1),
         false, addLog LogFinalResult w1)
  end.
Proof.
  unfold processBatches.
  destruct (processBatchList translate detectLanguage pauseSignal
              (batches session) config false false w)
    as [[[bs' touched'] paused'] w1].
  by destruct paused'.
Qed.


(** ** The final result after a job that failed *)

(** The unique string that [generateFinalResult] pairs with a job is
    found by [uniqueIndex], which counts the jobs with a translation met
    before, not the jobs met before: the pairing is by position only as
    long as every job before has a translation. *)
Lemma finalStep_index allStrings uniqueStrings jobs : forall n m,
  fst (fold_left (finalStep allStrings uniqueStrings) jobs (n, m))
  = (n + length (List.filter hasTranslation jobs))%nat.
Proof.
  induction jobs as [|job jobs IH]; intros n m; [simpl; lia|].
  change (fold_left (finalStep allStrings uniqueStrings) (job :: jobs) (n, m))
    with (fold_left (finalStep allStrings uniqueStrings) jobs
            (finalStep allStrings uniqueStrings (n, m) job)).
  destruct (finalStep allStrings uniqueStrings (n, m) job) as [n' m'] eqn:E.
  rewrite IH. cbn [List.filter]. unfold finalStep, hasTranslation in *.
  destruct (status job); try (injection E as <- _; lia).
  destruct (translatedText job) as [[|c text]|];
    injection E as <- _; simpl; lia.
Qed.

Lemma finalStep_index_position allStrings uniqueStrings jobs m :
  List.Forall (fun job => hasTranslation job = true) jobs ->
  fst (fold_left (finalStep allStrings uniqueStrings) jobs (0%nat, m))
  = length jobs.
Proof.
  intros H. rewrite finalStep_index. simpl. f_equal.
  induction H as [|job jobs Hjob _ IH]; simpl; [done|].
  by rewrite Hjob, IH.
Qed.

(** C1 fails on the code.  The tree
    [{"a": "Hello world", "b": "Good morning"}] is translated with a
    backend that is down for ["Hello world"] and answers ["Bonjour"] for
    ["Good morning"], with no retry.  The first job ends in [error], the
    second is [completed].  [generateFinalResult] counts the unique
    strings with [uniqueIndex], which it advances for completed jobs only:
    the translation of the second job is written to the path of the first
    unique string. *)
Lemma generateFinalResult_after_error :
  let tree := JObj [("a", JStr "Hello world"); ("b", JStr "Good morning")] in
  let translate := fun (_ : nat) (r : request) =>
    if String.eqb (q r) "Good morning" then inl "Bonjour"
    else inr "backend down" : string + string in
  let config := Config "en" "fr" 50%positive 0%Z in
  match fst (fst (startTranslation translate (fun _ => "en")
                    (fun _ => false) tree config
                    (Service None false false) (World ∅ [] [] [] 0))) with
  | inr session =>
      session_status session = SessionCompleted /\
      map (fun job => (originalText job, status job, translatedText job))
        (allJobs (batches session))
      = [("Hello world", JobError, None);
         ("Good morning", JobCompleted, Some "Bonjour")] /\
      map (fun u => (uvalue u, upath u))
        (fst (deduplicateStrings (extractStrings tree [])))
      = [("Hello world", ["a"]); ("Good morning", ["b"])] /\
      finalTranslationMap session !! "a" = Some "Bonjour" /\
      finalTranslationMap session !! "b" = None /\
      translatedJson session
      = Some (JObj [("a", JStr "Bonjour"); ("b", JStr "Good morning")])
  | inl _ => False
  end.
Proof. vm_compute. repeat split. Qed.

(** With a backend that answers for both strings the same tree is
    translated as C1 says. *)
Lemma generateFinalResult_all_completed :
  let tree := JObj [("a", JStr "Hello world"); ("b", JStr "Good morning")] in
  let translate := fun (_ : nat) (r : request) =>
    if String.eqb (q r) "Good morning" then inl "Bonjour"
    else inl "Bonjour le monde" : string + string in
  let config := Config "en" "fr" 50%positive 0%Z in
  match fst (fst (startTranslation translate (fun _ => "en")
                    (fun _ => false) tree config
                    (Service None false false) (World ∅ [] [] [] 0))) with
  | inr session =>
      translatedJson session
      = Some (JObj [("a", JStr "Bonjour le monde"); ("b", JStr "Bonjour")])
  | inl _ => False
  end.
Proof. vm_compute. reflexivity. Qed.

(** * Further properties of the code *)

(** ** The tree walker, continued *)

Lemma extractArr_flat_map prefix l n :
  extractArr prefix l n =
  flat_map (fun kv => extractStrings (snd kv) (prefix ++ [fst kv]))
    (indexed n l).
Proof.
  revert n. induction l as [|x l IH]; intros n; simpl; [done|].
  by rewrite IH.
Qed.

Lemma extractObj_flat_map prefix l :
  extractObj prefix l =
  flat_map (fun kv => extractStrings (snd kv) (prefix ++ [fst kv])) l.
Proof. induction l as [|[k x] l IH]; simpl; [done|]. by rewrite IH. Qed.

(** [extractStrings] on an array or an object goes through the entries. *)
Lemma extractStrings_entries j prefix :
  extractStrings j prefix =
  match j with
  | JStr s => if shouldTranslate s then [Occurrence prefix s] else []
  | _ => flat_map (fun kv => extractStrings (snd kv) (prefix ++ [fst kv]))
           (entries j)
  end.
Proof.
  destruct j as [| | |s|l|l]; try reflexivity.
  - rewrite extractStrings_arr. apply extractArr_flat_map.
  - rewrite extractStrings_obj. apply extractObj_flat_map.
Qed.

Lemma extractStrings_sound_at j : forall prefix o,
  wf j -> In o (extractStrings j prefix) ->
  exists q, path o = prefix ++ q /\ get_path j q = Some (JStr (value o)) /\
            shouldTranslate (value o) = true.
Proof.
  induction j as [j IH] using json_entries_ind. intros prefix o Hwf.
  rewrite extractStrings_entries.
  assert (In o (flat_map (fun kv => extractStrings (snd kv)
                                      (prefix ++ [fst kv])) (entries j)) ->
          exists q, path o = prefix ++ q /\
                    get_path j q = Some (JStr (value o)) /\
                    shouldTranslate (value o) = true) as H.
  { intros Hin. apply in_flat_map in Hin as ([k x] & Hkx & Hin).
    destruct (wf_entries _ Hwf) as [_ Hwf'].
    destruct (IH _ Hkx _ _ (Hwf' _ Hkx) Hin) as (q & Hq & Hget & Hs).
    exists (k :: q). rewrite Hq, <- app_assoc. split; [done|].
    simpl. by rewrite (In_child _ _ _ Hwf Hkx). }
  destruct j as [| | |s|l|l]; try (by apply H).
  destruct (shouldTranslate s) eqn:Hs; [|done].
  intros [<-|[]]. exists []. simpl. by rewrite app_nil_r.
Qed.

Lemma extractStrings_complete_at q : forall j prefix s,
  get_path j q = Some (JStr s) -> shouldTranslate s = true ->
  In (Occurrence (prefix ++ q) s) (extractStrings j prefix).
Proof.
  induction q as [|k q IH]; intros j prefix s; simpl.
  - intros [= ->] Hs. simpl. rewrite Hs, app_nil_r. by left.
  - destruct (child j k) as [c|] eqn:Hc; [|done]. intros Hq Hs.
    rewrite extractStrings_entries.
    assert (In (Occurrence (prefix ++ k :: q) s)
              (flat_map (fun kv => extractStrings (snd kv)
                                     (prefix ++ [fst kv])) (entries j)))
      as H.
    { apply in_flat_map. exists (k, c). split; [by apply child_In|].
      simpl. replace (prefix ++ k :: q) with ((prefix ++ [k]) ++ q)
        by (by rewrite <- app_assoc).
      by apply IH. }
    apply child_container in Hc. by destruct j.
Qed.

(** X1.  The occurrences that [extractStrings] returns for a tree are the
    string leaves that the classifier accepts, each with its path: an
    occurrence is in the result exactly when the tree holds the string
    [value] at [path] and [shouldTranslate] accepts it. *)
Theorem extractStrings_spec :
  forall (tree : json) (o : occurrence),
    wf tree ->
    (In o (extractStrings tree []) <->
     get_path tree (path o) = Some (JStr (value o)) /\
     shouldTranslate (value o) = true).
Proof.
  intros tree o Hwf. split.
  - intros Hin.
    apply extractStrings_sound_at in Hin as (q & Hq & Hget & Hs); [|done].
    simpl in Hq. by rewrite Hq.
  - intros [Hget Hs]. destruct o as [p s]. simpl in *.
    by apply (extractStrings_complete_at p tree [] s).
Qed.

Lemma extractStrings_spec_witness :
  let tree := JObj [("a", JStr "Hello"); ("b", JArr [JStr "42"; JStr "World"])] in
  In (Occurrence ["b"; "1"] "World") (extractStrings tree []) <->
  get_path tree ["b"; "1"] = Some (JStr "World") /\
  shouldTranslate "World" = true.
Proof.
  apply (extractStrings_spec
           (JObj [("a", JStr "Hello"); ("b", JArr [JStr "42"; JStr "World"])])
           (Occurrence ["b"; "1"] "World")).
  simpl. split; [|done]. apply NoDup_ListNoDup.
  repeat constructor; simpl; intuition discriminate.
Defined.

(** Paths under different keys are different. *)
Lemma extractStrings_paths_NoDup_at j : forall prefix,
  wf j -> NoDup (map path (extractStrings j prefix)).
Proof.
  induction j as [j IH] using json_entries_ind. intros prefix Hwf.
  rewrite extractStrings_entries.
  assert (NoDup (map path
                   (flat_map (fun kv => extractStrings (snd kv)
                                          (prefix ++ [fst kv])) (entries j))))
    as H.
  { destruct (wf_entries _ Hwf) as [Hnd Hwf'].
    revert IH Hnd Hwf'. generalize (entries j) as l.
    induction l as [|[k x] l IHl]; intros IH Hnd Hwf'; simpl;
      [apply NoDup_nil_2|].
    rewrite map_app. apply NoDup_app. split; [|split].
    - apply (IH (k, x)); [by left|]. apply (Hwf' (k, x)). by left.
    - intros p Hp Hp'. apply list_elem_of_In in Hp, Hp'.
      apply in_map_iff in Hp as (o & <- & Ho).
      apply in_map_iff in Hp' as (o' & Heq & Ho').
      apply in_flat_map in Ho' as ([k' x'] & Hk' & Ho'). simpl in Ho'.
      apply extractStrings_sound_at in Ho as (q & Hq & _);
        [|apply (Hwf' (k, x)); by left].
      apply extractStrings_sound_at in Ho' as (q' & Hq' & _);
        [|apply (Hwf' (k', x')); by right].
      rewrite Hq, Hq', <- !app_assoc in Heq. apply app_inv_head in Heq.
      injection Heq as -> _. simpl in Hnd.
      apply NoDup_cons in Hnd as [Hnot _]. apply Hnot, list_elem_of_In.
      change k with (fst (k, x')). by apply in_map.
    - apply IHl.
      + intros kv Hkv. apply IH. by right.
      + simpl in Hnd. by apply NoDup_cons in Hnd as [_ ?].
      + intros kv Hkv. apply Hwf'. by right. }
  destruct j as [| | |s|l|l]; try done.
  destruct (shouldTranslate s); simpl; [|apply NoDup_nil_2].
  apply NoDup_singleton.
Qed.

(** X2.  In the result of [extractStrings] no path comes twice: a path
    addresses one occurrence. *)
Theorem extractStrings_paths_distinct :
  forall tree : json, wf tree -> NoDup (map path (extractStrings tree [])).
Proof. intros tree Hwf. by apply extractStrings_paths_NoDup_at. Qed.

Lemma extractStrings_paths_distinct_witness :
  NoDup (map path (extractStrings
                     (JObj [("a", JStr "Hello");
                            ("b", JArr [JStr "Hello"; JStr "World"])]) [])).
Proof.
  apply (extractStrings_paths_distinct
           (JObj [("a", JStr "Hello");
                  ("b", JArr [JStr "Hello"; JStr "World"])])).
  simpl. split; [|done]. apply NoDup_ListNoDup.
  repeat constructor; simpl; intuition discriminate.
Defined.


Lemma translated_or_idem translations k s :
  translated_or translations k (translated_or translations k s)
  = translated_or translations k s.
Proof.
  unfold translated_or. destruct (translations !! k) as [t|]; [|done].
  by destruct (String.eqb t "").
Qed.

Lemma applyToValue_idem translations j : forall prefix,
  applyToValue translations (applyToValue translations j prefix) prefix
  = applyToValue translations j prefix.
Proof.
  induction j as [| | |s|l IH|l IH] using json_ind; intros prefix;
    try reflexivity.
  - simpl. by rewrite translated_or_idem.
  - rewrite !applyToValue_arr. f_equal. generalize 0%nat.
    induction IH as [|x l Hx _ IHl]; intros n; simpl; [done|].
    by rewrite Hx, IHl.
  - rewrite !applyToValue_obj. f_equal.
    induction IH as [|[k x] l Hx _ IHl]; simpl; [done|].
    simpl in Hx. by rewrite Hx, IHl.
Qed.

(** X4.  Applying a map of translations to a tree that the same map was
    applied to changes nothing more. *)
Theorem applyTranslations_idempotent :
  forall (tree : json) (translations : gmap string string),
    applyTranslations (applyTranslations tree translations) translations
    = applyTranslations tree translations.
Proof. intros. apply applyToValue_idem. Qed.

(** ** The value grouping, continued *)

Lemma bump_total v n m :
  list_sum (map (fun e : string * list nat => length (snd e)) (bump v n m))
  = S (list_sum (map (fun e : string * list nat => length (snd e)) m)).
Proof.
  induction m as [|[k idx] m IH]; simpl; [done|].
  destruct (String.eqb v k); simpl.
  - rewrite length_app. simpl. lia.
  - rewrite IH. lia.
Qed.

Lemma groupByValue_total rest : forall n m,
  list_sum (map (fun e : string * list nat => length (snd e))
              (groupByValue rest n m))
  = (list_sum (map (fun e : string * list nat => length (snd e)) m)
     + length rest)%nat.
Proof.
  induction rest as [|item rest IH]; intros n m.
  - simpl. lia.
  - rewrite groupByValue_step, IH, bump_total. simpl. lia.
Qed.

Lemma list_sum_pos {A} (f : A -> nat) (l : list A) :
  (forall x, In x l -> (1 <= f x)%nat) ->
  (length l <= list_sum (map f l))%nat.
Proof.
  induction l as [|x l IH]; intros H; simpl; [lia|].
  specialize (H x (or_introl eq_refl)) as Hx.
  specialize (IH (fun y Hy => H y (or_intror Hy))). lia.
Qed.

(** X5.  The index lists of the unique strings of [deduplicateStrings]
    have, together, as many indices as there are occurrences, and there
    are at most as many unique strings as occurrences. *)
Theorem deduplicateStrings_counts :
  forall strings : list occurrence,
    let unique := fst (deduplicateStrings strings) in
    list_sum (map (fun u => length (originalIndices u)) unique)
    = length strings /\
    (length unique <= length strings)%nat.
Proof.
  intros strings unique.
  assert (list_sum (map (fun u => length (originalIndices u)) unique)
          = length strings) as Hsum.
  { unfold unique, deduplicateStrings. simpl. rewrite List.map_map. simpl.
    by rewrite groupByValue_total. }
  split; [done|]. rewrite <- Hsum. apply list_sum_pos.
  intros u Hu. apply unique_In in Hu as (_ & Hne & _).
  destruct (originalIndices u); [done|]. simpl. lia.
Qed.

(** X6.  The map [duplicateMap] that [deduplicateStrings] returns sends a
    value to the ascending list of all indices of the occurrences with
    that value, and has no entry for a value that does not occur. *)
Theorem deduplicateStrings_duplicateMap :
  forall (strings : list occurrence) (v : string),
    let duplicateMap := snd (deduplicateStrings strings) in
    ValueMap.get duplicateMap v =
    if existsb (fun o => String.eqb (value o) v) strings
    then Some (indicesOf strings v (length strings))
    else None.
Proof.
  intros strings v duplicateMap.
  destruct (deduplicateStrings_grouped strings) as (Hnd & Hget & Hall).
  fold duplicateMap in Hnd, Hget, Hall.
  destruct (existsb _ strings) eqn:Hex.
  - apply existsb_exists in Hex as (o & Ho & Hv).
    apply String.eqb_eq in Hv.
    apply In_nth_error in Ho as (i & Hi).
    assert (i < length strings)%nat as Hlt
      by (apply nth_error_Some; by rewrite Hi).
    specialize (Hall i o Hlt Hi). rewrite Hv in Hall.
    apply has_keys, has_get in Hall as (idx & Hidx).
    rewrite Hidx. by destruct (Hget _ _ Hidx) as [-> _].
  - destruct (ValueMap.get duplicateMap v) as [idx|] eqn:Hidx; [|done].
    destruct (Hget _ _ Hidx) as [-> Hne]. exfalso.
    destruct (indicesOf strings v (length strings)) as [|i r] eqn:E;
      [done|].
    assert (In i (indicesOf strings v (length strings))) as Hi
      by (rewrite E; by left).
    apply indicesOf_In in Hi as (_ & o & Ho & Hv).
    apply nth_error_In in Ho.
    assert (existsb (fun o => String.eqb (value o) v) strings = true) as Hc.
    { apply existsb_exists. exists o. split; [done|].
      by apply String.eqb_eq. }
    congruence.
Qed.

Lemma bump_firsts v n m :
  (forall e, In e m -> snd e <> []) ->
  map (fun e : string * list nat => hd 0%nat (snd e)) (bump v n m) =
  if ValueMap.has m v
  then map (fun e : string * list nat => hd 0%nat (snd e)) m
  else map (fun e : string * list nat => hd 0%nat (snd e)) m ++ [n].
Proof.
  induction m as [|[k idx] m IH]; intros Hne; simpl; [done|].
  destruct (String.eqb v k) eqn:E; simpl.
  - f_equal. specialize (Hne (k, idx) (or_introl eq_refl)). simpl in Hne.
    by destruct idx.
  - rewrite IH by (intros e He; apply Hne; by right).
    by destruct (ValueMap.has m v).
Qed.

Lemma grouped_entries strings n m e :
  grouped strings n m -> In e m ->
  snd e = indicesOf strings (fst e) n /\ snd e <> [].
Proof.
  intros (Hnd & Hget & _) He. destruct e as [k idx].
  apply (In_get _ _ _ Hnd) in He. by apply Hget in He.
Qed.

Lemma grouped_first_below strings n m e :
  grouped strings n m -> In e m -> (hd 0%nat (snd e) < n)%nat.
Proof.
  intros Hg He. destruct (grouped_entries _ _ _ _ Hg He) as [Heq Hne].
  destruct (snd e) as [|i r] eqn:E; [done|]. simpl.
  assert (In i (indicesOf strings (fst e) n)) as Hi
    by (rewrite <- Heq; by left).
  by apply indicesOf_In in Hi as [? _].
Qed.

(** The first indices of the entries ascend along the map. *)
Lemma groupByValue_ascending strings rest : forall n m,
  (forall j, nth_error rest j = nth_error strings (n + j)) ->
  grouped strings n m ->
  (forall a b x y, (a < b)%nat ->
     nth_error (map (fun e : string * list nat => hd 0%nat (snd e)) m) a
       = Some x ->
     nth_error (map (fun e : string * list nat => hd 0%nat (snd e)) m) b
       = Some y -> (x < y)%nat) ->
  forall a b x y, (a < b)%nat ->
    nth_error (map (fun e : string * list nat => hd 0%nat (snd e))
                 (groupByValue rest n m)) a = Some x ->
    nth_error (map (fun e : string * list nat => hd 0%nat (snd e))
                 (groupByValue rest n m)) b = Some y -> (x < y)%nat.
Proof.
  induction rest as [|item rest IH]; intros n m Hrest Hg Hasc; [done|].
  rewrite groupByValue_step.
  assert (nth_error strings n = Some item) as Hitem.
  { specialize (Hrest 0%nat). simpl in Hrest. by rewrite Nat.add_0_r in Hrest. }
  apply IH.
  - intros j. specialize (Hrest (S j)). simpl in Hrest.
    by rewrite Nat.add_succ_r in Hrest.
  - by apply bump_grouped.
  - rewrite bump_firsts
      by (intros e He; by destruct (grouped_entries _ _ _ _ Hg He)).
    destruct (ValueMap.has m (value item)); [done|].
    intros a b x y Hab Ha Hb.
    set (l := map (fun e : string * list nat => hd 0%nat (snd e)) m) in *.
    assert (forall c z, nth_error l c = Some z -> (z < n)%nat) as Hbelow.
    { intros c z Hc. apply nth_error_In in Hc. unfold l in Hc.
      apply in_map_iff in Hc as (e & <- & He).
      by apply (grouped_first_below strings n m). }
    destruct (Nat.lt_ge_cases b (length l)) as [Hb'|Hb'].
    + rewrite nth_error_app1 in Ha, Hb by lia. by apply (Hasc a b).
    + rewrite nth_error_app2 in Hb by lia.
      destruct (b - length l)%nat as [|c] eqn:Eb; [|by destruct c].
      injection Hb as <-.
      rewrite nth_error_app1 in Ha by lia. by apply (Hbelow a).
Qed.

(** X7.  The unique strings of [deduplicateStrings] come in the order in
    which their values first occur: of two unique strings, the earlier
    one has the smaller first index. *)
Theorem deduplicateStrings_first_occurrence_order :
  forall (strings : list occurrence) (a b : nat) (u1 u2 : uniqueString)
         (i1 i2 : nat) (r1 r2 : list nat),
    let unique := fst (deduplicateStrings strings) in
    (a < b)%nat ->
    nth_error unique a = Some u1 -> nth_error unique b = Some u2 ->
    originalIndices u1 = i1 :: r1 -> originalIndices u2 = i2 :: r2 ->
    (i1 < i2)%nat.
Proof.
  intros strings a b u1 u2 i1 i2 r1 r2 unique Hab Ha Hb H1 H2.
  apply (groupByValue_ascending strings strings 0 [] (fun j => eq_refl))
    with (a := a) (b := b).
  - split; [apply NoDup_nil_2|]. split; [done|]. intros i o Hi. lia.
  - intros ? ? ? ? _ Hc. by destruct a0.
  - done.
  - unfold unique, deduplicateStrings in Ha. simpl in Ha.
    rewrite nth_error_map in Ha. rewrite nth_error_map.
    destruct (nth_error (groupByValue strings 0 []) a) as [e|]; [|done].
    simpl in *. injection Ha as <-. simpl in H1. by rewrite H1.
  - unfold unique, deduplicateStrings in Hb. simpl in Hb.
    rewrite nth_error_map in Hb. rewrite nth_error_map.
    destruct (nth_error (groupByValue strings 0 []) b) as [e|]; [|done].
    simpl in *. injection Hb as <-. simpl in H2. by rewrite H2.
Qed.

Lemma deduplicateStrings_first_occurrence_order_witness :
  (1 < 3)%nat.
Proof.
  apply (deduplicateStrings_first_occurrence_order
           [Occurrence ["a"] "Yes"; Occurrence ["b"] "No";
            Occurrence ["c"] "Yes"; Occurrence ["d"] "Maybe";
            Occurrence ["e"] "No"]
           1 2 (UniqueString ["b"] "No" [1; 4]%nat)
           (UniqueString ["d"] "Maybe" [3]%nat) 1 3 [4%nat] []);
    [lia | reflexivity | reflexivity | reflexivity | reflexivity].
Defined.

(** ** The patch generator, continued *)

(** X8.  When no string of the original stands against a different string
    of the translated tree, [createPatch] returns the empty object: a
    change of a number, a boolean or a key alone leaves no trace in the
    patch, and the patch of a tree against itself is empty. *)
Theorem createPatch_empty :
  forall original translated : json,
    wf translated ->
    (forall p s v, get_path original p = Some (JStr s) ->
                   get_path translated p = Some (JStr v) -> s = v) ->
    createPatch original translated = Some (JObj []).
Proof.
  intros original translated Hwf Hsame. unfold createPatch.
  rewrite createPatchForPath_emitted.
  destruct (emitted original translated []) as [|[p v] ws] eqn:E; [done|].
  exfalso.
  assert (In (p, v) (emitted original translated [])) as Hin
    by (rewrite E; by left).
  apply emitted_sound in Hin as (q & s & _ & Ho & Ht & Hne); [|done].
  by apply Hne, (Hsame q).
Qed.

Lemma createPatch_empty_witness :
  createPatch (JObj [("n", JNum 1); ("a", JStr "Hello")])
              (JObj [("n", JNum 2); ("a", JStr "Hello"); ("z", JStr "New")])
  = Some (JObj []).
Proof.
  apply (createPatch_empty
           (JObj [("n", JNum 1); ("a", JStr "Hello")])
           (JObj [("n", JNum 2); ("a", JStr "Hello"); ("z", JStr "New")])).
  - simpl. split; [|done]. apply NoDup_ListNoDup.
    repeat constructor; simpl; intuition discriminate.
  - intros p s v.
    destruct p as [|k [|k' p]]; cbn; try done;
      destruct (String.eqb k "n"); try done;
      destruct (String.eqb k "a"); try congruence;
      destruct (String.eqb k "z"); try congruence; by destruct (child _ _).
Defined.



Lemma setValueAtPath_string k rest s x :
  setValueAtPath (JStr s) (k :: rest) x = None.
Proof. by destruct rest. Qed.

(** X10.  [setValueAtPath] throws when the path leads through a string of
    the object: a write below a string leaf fails, and the string stays. *)
Theorem setValueAtPath_below_string :
  forall (above below : list string) (obj : json) (s : string)
         (value : json),
    get_path obj above = Some (JStr s) -> below <> [] ->
    setValueAtPath obj (above ++ below) value = None.
Proof.
  intros above. induction above as [|k above IH];
    intros below obj s x Hget Hbelow.
  - simpl in Hget. injection Hget as ->.
    destruct below as [|k below]; [done|]. apply setValueAtPath_string.
  - assert (exists k' rest, above ++ below = k' :: rest) as (k' & rest & E).
    { destruct above; simpl; [destruct below; [done|]|]; eauto. }
    simpl app. rewrite E.
    destruct obj as [| | | |l|l]; try done.
    rewrite setValueAtPath_unfold.
    rewrite get_path_obj in Hget.
    destruct (assoc k l) as [c|] eqn:Hc; [|done].
    unfold has_key. rewrite Hc, Hc, <- E.
    by rewrite (IH below c s x Hget Hbelow).
Qed.

Lemma setValueAtPath_below_string_witness :
  setValueAtPath (JObj [("a", JStr "x")]) (["a"] ++ ["b"]) (JStr "y") = None.
Proof.
  apply (setValueAtPath_below_string ["a"] ["b"] (JObj [("a", JStr "x")]) "x").
  - reflexivity.
  - discriminate.
Defined.

(** ** The diff *)

Lemma flat_map_ext_In {A B} (f g : A -> list B) l :
  (forall x, In x l -> f x = g x) -> flat_map f l = flat_map g l.
Proof.
  induction l as [|x l IH]; intros H; simpl; [done|].
  rewrite (H x) by (by left). f_equal. apply IH. intros y Hy. apply H.
  by right.
Qed.

Lemma indexed_key_above k x n l :
  In (k, x) (indexed n l) -> exists i, k = toString (n + i).
Proof.
  intros H. apply (indexed_keys k n l). change k with (fst (k, x)).
  by apply in_map.
Qed.

Lemma generateDiff_cases o t prefix :
  generateDiff o t prefix =
  match o, t with
  | JStr s, JStr v =>
      [Diff prefix (Some o) (Some t)
         (if String.eqb s v then Unchanged else Changed)]
  | (JArr _ | JObj _), (JArr _ | JObj _) =>
      flat_map (fun kv =>
                  match child t (fst kv) with
                  | Some t' => generateDiff (snd kv) t' (prefix ++ [fst kv])
                  | None =>
                      [Diff (prefix ++ [fst kv]) (Some (snd kv)) None Removed]
                  end) (entries o)
      ++ addedKeys o prefix (entries t)
  | _, _ =>
      [Diff prefix (Some o) (Some t)
         (if isEqual o t then Unchanged else Changed)]
  end.
Proof.
  destruct o as [| | |s|ol|ol]; destruct t as [| | |v|tl|tl];
    try reflexivity;
    try (cbn; match goal with
              | |- context [negb ?b] => by destruct b
              end).
  - (* two arrays *)
    simpl generateDiff. unfold child, addedKeys, child. simpl entries.
    generalize 0%nat. revert tl.
    induction ol as [|o ol IH]; intros tl n.
    + simpl. induction tl as [|t tl IHt] in n |- *; simpl; [done|].
      by rewrite IHt.
    + destruct tl as [|t tl].
      * simpl. rewrite IH. simpl. by rewrite app_nil_r.
      * simpl. rewrite !eqb_refl'. simpl. rewrite IH, <- app_assoc.
        f_equal. f_equal.
        -- apply flat_map_ext_In. intros [k x] Hk. simpl.
           apply indexed_key_above in Hk as [i ->].
           destruct (String.eqb_spec (toString (S n + i)) (toString n))
             as [E|_]; [|done].
           apply toString_inj in E. lia.
        -- apply flat_map_ext_In. intros [k x] Hk. simpl.
           apply indexed_key_above in Hk as [i ->].
           destruct (String.eqb_spec (toString (S n + i)) (toString n))
             as [E|_]; [|done].
           apply toString_inj in E. lia.
  - (* an array against an object *)
    simpl generateDiff. f_equal. unfold child. simpl entries.
    generalize 0%nat. induction ol as [|o ol IH]; intros n; simpl; [done|].
    by rewrite IH.
  - simpl generateDiff. f_equal.
    induction ol as [|[k o] ol IH]; simpl; [done|]. by rewrite IH.
  - simpl generateDiff. f_equal.
    induction ol as [|[k o] ol IH]; simpl; [done|]. by rewrite IH.
Qed.


Lemma isEqual_leaf a b :
  isContainer a && isContainer b = false -> isEqual a b = true -> a = b.
Proof.
  destruct a as [|x|x|x|l|l]; destruct b as [|y|y|y|l'|l']; simpl;
    try done; intros _ H.
  - by apply Bool.eqb_prop in H as ->.
  - by apply Z.eqb_eq in H as ->.
  - by apply String.eqb_eq in H as ->.
Qed.

Lemma isEqual_leaf_refl a : isContainer a = false -> isEqual a a = true.
Proof.
  destruct a as [|x|x|x|l|l]; simpl; try done; intros _.
  - by destruct x.
  - apply Z.eqb_refl.
  - apply String.eqb_refl.
Qed.

(** The record that [generateDiff] pushes for two values that are not
    both containers *)
Lemma generateDiff_leaf a b prefix :
  isContainer a && isContainer b = false ->
  generateDiff a b prefix =
  [Diff prefix (Some a) (Some b) (if isEqual a b then Unchanged else Changed)].
Proof.
  rewrite generateDiff_cases.
  destruct a as [|x|x|x|l|l]; destruct b as [|y|y|y|l'|l']; simpl; done.
Qed.

Lemma generateDiff_containers o t prefix :
  isContainer o && isContainer t = true ->
  generateDiff o t prefix =
  flat_map (fun kv =>
              match child t (fst kv) with
              | Some t' => generateDiff (snd kv) t' (prefix ++ [fst kv])
              | None =>
                  [Diff (prefix ++ [fst kv]) (Some (snd kv)) None Removed]
              end) (entries o)
  ++ addedKeys o prefix (entries t).
Proof.
  rewrite generateDiff_cases.
  destruct o as [|x|x|x|l|l]; destruct t as [|y|y|y|l'|l']; simpl; done.
Qed.

Lemma generateDiff_sound_at o : forall t prefix d,
  wf o -> wf t -> In d (generateDiff o t prefix) ->
  exists q, dpath d = prefix ++ q /\
            doriginal d = get_path o q /\ dtranslated d = get_path t q /\
            match dtype d with
            | Added => doriginal d = None /\ is_Some (dtranslated d)
            | Removed => is_Some (doriginal d) /\ dtranslated d = None
            | Changed =>
                exists a b, doriginal d = Some a /\ dtranslated d = Some b /\
                            isContainer a && isContainer b = false /\
                            isEqual a b = false
            | Unchanged =>
                exists a, doriginal d = Some a /\ dtranslated d = Some a /\
                          isContainer a = false
            end.
Proof.
  induction o as [o IH] using json_entries_ind. intros t prefix d Hwo Hwt.
  destruct (isContainer o && isContainer t) eqn:Hc.
  - rewrite generateDiff_containers by done. intros Hin.
    apply in_app_or in Hin as [Hin|Hin].
    + apply in_flat_map in Hin as ([k x] & Hkx & Hin). simpl in Hin.
      pose proof (In_child _ _ _ Hwo Hkx) as Hox.
      destruct (child t k) as [t'|] eqn:Ht.
      * destruct (wf_entries _ Hwo) as [_ Hwo'].
        destruct (wf_entries _ Hwt) as [_ Hwt'].
        apply child_In in Ht as Ht'.
        destruct (IH _ Hkx t' _ d (Hwo' _ Hkx) (Hwt' _ Ht') Hin)
          as (q & Hq & Ho & Hd & Hty).
        exists (k :: q). rewrite Hq, <- app_assoc. simpl.
        by rewrite Hox, Ht.
      * destruct Hin as [<-|[]]. exists [k]. simpl. rewrite Hox, Ht.
        repeat split; eauto.
    + unfold addedKeys in Hin.
      apply in_flat_map in Hin as ([k y] & Hky & Hin). simpl in Hin.
      destruct (child o k) as [x|] eqn:Ho; [done|].
      destruct Hin as [<-|[]]. exists [k]. simpl.
      rewrite Ho, (In_child _ _ _ Hwt Hky). repeat split; eauto.
  - rewrite generateDiff_leaf by done. intros [<-|[]]. exists [].
    rewrite app_nil_r. simpl. split; [done|]. split; [done|]. split; [done|].
    destruct (isEqual o t) eqn:E.
    + apply isEqual_leaf in E as <-; [|done]. exists o.
      split; [done|]. split; [done|]. by destruct (isContainer o).
    + by exists o, t.
Qed.

Lemma generateDiff_complete_at q : forall o t prefix a b,
  get_path o q = Some a -> get_path t q = Some b ->
  isContainer a && isContainer b = false ->
  In (Diff (prefix ++ q) (Some a) (Some b)
        (if isEqual a b then Unchanged else Changed))
     (generateDiff o t prefix).
Proof.
  induction q as [|k q IH]; intros o t prefix a b; simpl.
  - intros [= ->] [= ->] Hc. rewrite generateDiff_leaf, app_nil_r by done.
    by left.
  - destruct (child o k) as [c|] eqn:Ho; [|done].
    destruct (child t k) as [c'|] eqn:Ht; [|done]. intros Ha Hb Hc.
    rewrite generateDiff_containers
      by (by rewrite (child_container _ _ _ Ho), (child_container _ _ _ Ht)).
    apply in_or_app. left. apply in_flat_map. exists (k, c).
    split; [by apply child_In|]. simpl. rewrite Ht.
    replace (prefix ++ k :: q) with ((prefix ++ [k]) ++ q)
      by (by rewrite <- app_assoc).
    by apply IH.
Qed.





(** X13.  The diff of a tree against itself has records of kind
    [unchanged] only. *)
Theorem generateDiff_self :
  forall (tree : json) (d : JsonDiff),
    wf tree -> In d (generateDiff tree tree []) -> dtype d = Unchanged.
Proof.
  intros tree d Hwf Hin.
  apply generateDiff_sound_at in Hin as (q & _ & Ho & Ht & Hty);
    [|done|done].
  destruct (dtype d); [| | |done].
  - destruct Hty as [Hn [y Hy]]. congruence.
  - destruct Hty as [[x Hx] Hn]. congruence.
  - destruct Hty as (a & b & Ha & Hb & Hc & E).
    assert (a = b) as <- by congruence.
    rewrite isEqual_leaf_refl in E; [done|]. by destruct (isContainer a).
Qed.

Lemma generateDiff_self_witness :
  dtype (Diff ["a"; "0"] (Some (JStr "Hello")) (Some (JStr "Hello")) Unchanged)
  = Unchanged.
Proof.
  apply (generateDiff_self (JObj [("a", JArr [JStr "Hello"; JNum 3])])).
  - simpl. split; [|done]. apply NoDup_ListNoDup.
    repeat constructor; simpl; intuition discriminate.
  - simpl. auto.
Defined.




Lemma wf_applyToValue translations j : forall prefix,
  wf j -> wf (applyToValue translations j prefix).
Proof.
  induction j as [| | |s|l IH|l IH] using json_ind; intros prefix Hwf;
    try done.
  - rewrite applyToValue_arr. simpl in *. generalize 0%nat.
    induction IH as [|x l Hx _ IHl]; intros n; simpl; [done|].
    destruct Hwf as [Hwx Hwl]. split; [by apply Hx|by apply IHl].
  - rewrite applyToValue_obj. simpl in *. destruct Hwf as [Hnd Hwf].
    split.
    + by rewrite applyObj_keys.
    + clear Hnd. induction IH as [|[k x] l Hx _ IHl]; simpl; [done|].
      destruct Hwf as [Hwx Hwl]. split; [by apply Hx|by apply IHl].
Qed.



(** ** The batches of a session *)

Lemma chunks_spec fuel : forall size l,
  (1 <= size)%nat -> (length l <= fuel)%nat ->
  concat (chunks fuel size l) = l /\
  forall i c, nth_error (chunks fuel size l) i = Some c ->
              c = take size (drop (i * size) l) /\ c <> [].
Proof.
  induction fuel as [|fuel IH]; intros size l Hsize Hlen.
  - destruct l; [|simpl in Hlen; lia]. split; [done|]. by intros [|i] c.
  - destruct l as [|x l]; [split; [done|]; by intros [|i] c|].
    cbn [chunks].
    destruct (IH size (drop size (x :: l)) Hsize) as [Hcat Hnth];
      [rewrite length_drop; simpl in *; lia|].
    split.
    + cbn [concat]. rewrite Hcat. apply take_drop.
    + intros [|i] c; cbn [nth_error].
      * intros [= <-]. split; [done|]. destruct size; [lia|done].
      * intros Hc. destruct (Hnth i c Hc) as [-> Hne]. split; [|done].
        rewrite drop_drop. repeat f_equal; try lia.
Qed.

(** X16.  [createBatches] cuts the jobs of the unique strings into
    batches without losing or reordering one: the jobs of the batches in
    a row are the jobs of the unique strings in order, each pending and
    without a translation; the batch at place [i] holds the jobs of the
    unique strings from [i * batchSize] on, at least one and at most
    [batchSize] of them, and is pending. *)
Theorem createBatches_partition :
  forall (src tgt : string) (strings : list uniqueString)
         (batchSize : positive),
    let bs := createBatches src tgt strings batchSize in
    allJobs bs = map (newJob src tgt) strings /\
    forall i b, nth_error bs i = Some b ->
      jobs b = map (newJob src tgt)
                 (take (Pos.to_nat batchSize)
                    (drop (i * Pos.to_nat batchSize) strings)) /\
      (1 <= length (jobs b) <= Pos.to_nat batchSize)%nat /\
      batch_status b = BatchPending.
Proof.
  intros src tgt strings batchSize bs.
  destruct (chunks_spec (length strings) (Pos.to_nat batchSize)
              (map (newJob src tgt) strings)) as [Hcat Hnth];
    [lia|by rewrite length_map|].
  split.
  - unfold bs, createBatches, allJobs. rewrite List.map_map. simpl.
    by rewrite map_id.
  - intros i b Hb. unfold bs, createBatches in Hb.
    rewrite nth_error_map in Hb.
    destruct (nth_error (chunks _ _ _) i) as [c|] eqn:Hc; [|done].
    injection Hb as <-. simpl. destruct (Hnth i c Hc) as [-> Hne].
    split.
    + change (@map uniqueString TranslationJob) with
        (@fmap list _ uniqueString TranslationJob).
      by rewrite <- fmap_drop, <- fmap_take.
    + split; [|done]. split.
      * destruct (take _ _); [done|simpl; lia].
      * rewrite length_take. lia.
Qed.

(** ** Resuming, continued *)

(** X17.  [resumeTranslation] throws exactly when the service holds no
    session or is processing, and then leaves the service and the world
    as they were; when [canResume] holds it does not throw. *)
Theorem resumeTranslation_errors :
  forall (translate : nat -> request -> string + string)
         (detectLanguage : string -> string) (pauseSignal : nat -> bool)
         (envBatchSize : positive) (envMaxRetries : Z)
         (sv : service) (w : world),
    let result := resumeTranslation translate detectLanguage pauseSignal
                    envBatchSize envMaxRetries sv w in
    (currentSession sv = None \/ isProcessing sv = true ->
     result = (inl NothingToResume, sv, w)) /\
    (fst (fst result) = inl NothingToResume ->
     currentSession sv = None \/ isProcessing sv = true) /\
    (canResume sv = true -> fst (fst result) = inr tt).
Proof.
  intros translate detectLanguage pauseSignal envBatchSize envMaxRetries
    sv w result.
  assert (forall session, currentSession sv = Some session ->
            isProcessing sv = false -> fst (fst result) = inr tt) as Hok.
  { intros session Hs Hp. unfold result, resumeTranslation.
    rewrite Hs, Hp.
    destruct (processBatches _ _ _ _ _ _ _) as [[session' paused] w'].
    by destruct (negb paused). }
  split; [|split].
  - unfold result, resumeTranslation.
    intros [->|Hp]; [done|]. rewrite Hp. by destruct (currentSession sv).
  - intros Hres. destruct (currentSession sv) as [session|] eqn:Hs;
      [|by left].
    destruct (isProcessing sv) eqn:Hp; [by right|].
    rewrite (Hok session eq_refl eq_refl) in Hres. done.
  - unfold canResume. destruct (currentSession sv) as [session|] eqn:Hs;
      [|done].
    destruct (session_status session); try done.
    destruct (isProcessing sv) eqn:Hp; [done|]. intros _.
    by apply (Hok session).
Qed.

(** ** A run of the session *)

Section Run.
Variable translate : nat -> request -> string + string.
Variable detectLanguage : string -> string.
Variable pauseSignal : nat -> bool.

Lemma processJob_loop_keeps fuel : forall job config w job' w',
  processJob_loop translate detectLanguage fuel job config w
  = Some (job', w') ->
  originalText job' = originalText job /\ ticks w' = ticks w.
Proof.
  induction fuel as [|fuel IH]; intros job config w job' w'; [done|].
  cbn [processJob_loop].
  destruct (cachedResult w (markTranslating job)) as [cached|].
  { by intros [= <- <-]. }
  destruct (translate _ _) as [translated|message].
  { intros [= <- <-]. split; [done|]. unfold afterRequest, detectSource.
    simpl. by destruct (String.eqb (sourceLanguage job) "auto"). }
  assert (ticks (afterRequest detectLanguage (markTranslating job) w)
          = ticks w) as Hticks.
  { unfold afterRequest, detectSource. simpl.
    by destruct (String.eqb (sourceLanguage job) "auto"). }
  destruct (Z.leb_spec (Z.of_nat (retryCount (countRetry (markTranslating job))))
              (maxRetries config)) as [Hle|Hgt].
  - intros H. apply IH in H as [H1 H2]. simpl in *. by rewrite H1, H2.
  - by intros [= <- <-].
Qed.

(** A run of [processJob] ends the job, as completed or as failed, and
    keeps its text. *)
Lemma processJob_post job config w :
  let r := processJob translate detectLanguage job config w in
  originalText (fst r) = originalText job /\
  (status (fst r) = JobCompleted \/ status (fst r) = JobError) /\
  ticks (snd r) = ticks w.
Proof.
  pose proof (processJob_loop_budget translate detectLanguage job config w)
    as H.
  destruct (processJob translate detectLanguage job config w) as [job' w'].
  simpl. destruct (processJob_loop_keeps _ _ _ _ _ _ H) as [H1 H2].
  apply processJob_loop_post in H as [H3 _]. done.
Qed.

(** After a request for a pause the loops change nothing. *)
Lemma processJobs_paused js config w :
  processJobs translate detectLanguage pauseSignal js config true w
  = (js, true, w).
Proof.
  induction js as [|job js IH]; simpl; [done|].
  destruct (pendingOrError job); [done|]. by rewrite IH.
Qed.

Lemma processBatchList_paused bs config touched w :
  processBatchList translate detectLanguage pauseSignal bs config touched
    true w
  = (bs, touched, true, w).
Proof. by destruct bs. Qed.

End Run.

Lemma createBatches_cons src tgt u rest batchSize :
  exists r1 bs,
    createBatches src tgt (u :: rest) batchSize
    = Batch (newJob src tgt u :: r1) BatchPending :: bs /\
    r1 ++ allJobs bs = map (newJob src tgt) rest.
Proof.
  destruct (chunks_spec (length (u :: rest)) (Pos.to_nat batchSize)
              (map (newJob src tgt) (u :: rest))) as [Hcat _];
    [lia|by rewrite length_map|].
  unfold createBatches. simpl in *.
  destruct (take (Pos.to_nat batchSize)
              (newJob src tgt u :: map (newJob src tgt) rest))
    as [|j1 r1] eqn:E.
  { destruct (Pos.to_nat batchSize) eqn:E'; [lia|done]. }
  assert (j1 = newJob src tgt u) as ->.
  { destruct (Pos.to_nat batchSize); [done|]. simpl in E. congruence. }
  eexists r1, _. split; [reflexivity|].
  unfold allJobs. rewrite List.map_map. simpl. rewrite map_id.
  simpl in Hcat. congruence.
Qed.

(** X18.  A request for a pause that arrives while the first job of a new
    session runs lets that job finish and starts no other: the other jobs
    stay pending, the session is paused without a translated tree, and it
    can be resumed. *)
Theorem startTranslation_pause_first_job :
  forall (translate : nat -> request -> string + string)
         (detectLanguage : string -> string) (pauseSignal : nat -> bool)
         (jsonData : json) (config : TranslationConfig)
         (current : option TranslationSession) (pause : bool) (w : world)
         (u : uniqueString) (rest : list uniqueString),
    let strings := extractStrings jsonData [] in
    let src := config_sourceLanguage config in
    let tgt := config_targetLanguage config in
    let w0 := addLog (LogStarting (length strings) (S (length rest))) w in
    let first := processJob translate detectLanguage (newJob src tgt u)
                   config w0 in
    fst (deduplicateStrings strings) = u :: rest ->
    pauseSignal (ticks w) = true ->
    exists session,
      startTranslation translate detectLanguage pauseSignal jsonData config
        (Service current false pause) w
      = (inr session, Service (Some session) false true, tick (snd first)) /\
      session_status session = SessionPaused /\
      translatedJson session = None /\
      allJobs (batches session)
      = fst first :: map (newJob src tgt) rest /\
      canResume (Service (Some session) false true) = true.
Proof.
  intros translate detectLanguage pauseSignal jsonData config current pause
    w u rest strings src tgt w0 first Hu Hpause.
  set (s := config_sourceLanguage config) in *.
  set (t := config_targetLanguage config) in *.
  unfold startTranslation. cbn [isProcessing]. fold strings s t.
  destruct strings as [|o strings'] eqn:Hs; [done|].
  rewrite processBatches_unfold. cbn [batches]. rewrite Hu.
  destruct (createBatches_cons s t u rest (batchSize config))
    as (r1 & bs & -> & Hrest).
  cbn [processBatchList batch_status]. unfold processBatch.
  cbn [jobs processJobs pendingOrError newJob status].
  change (length (u :: rest)) with (S (length rest)). fold w0.
  change (Job (uvalue u) None s t JobPending None 0)
    with (newJob s t u).
  subst src tgt. fold first.
  pose proof (processJob_post translate detectLanguage (newJob s t u)
                config w0) as (_ & _ & Hticks).
  fold first in Hticks.
  destruct first as [job' w'] eqn:Hfirst. simpl in Hticks.
  assert (pauseSignal (ticks w') = true) as -> by (by rewrite Hticks).
  rewrite processJobs_paused, processBatchList_paused. cbn [negb].
  eexists. split; [reflexivity|]. split; [done|]. split; [done|].
  split; [|done]. cbn [batches set_status set_batches updateSessionProgress].
  unfold allJobs in *. simpl. by rewrite Hrest.
Qed.

Lemma startTranslation_pause_first_job_witness :
  let tree := JObj [("a", JStr "Hello world"); ("b", JStr "Good morning")] in
  let translate := fun (_ : nat) (_ : request) =>
                     inl "Bonjour" : string + string in
  let config := Config "en" "fr" 50%positive 0%Z in
  let w := World ∅ [] [] [] 0 in
  exists session,
    startTranslation translate (fun _ => "en") (fun _ => true) tree config
      (Service None false false) w
    = (inr session, Service (Some session) false true,
       tick (snd (processJob translate (fun _ => "en")
                    (newJob "en" "fr" (UniqueString ["a"] "Hello world" [0%nat]))
                    config (addLog (LogStarting 2 2) w)))) /\
    session_status session = SessionPaused /\
    translatedJson session = None /\
    allJobs (batches session)
    = fst (processJob translate (fun _ => "en")
             (newJob "en" "fr" (UniqueString ["a"] "Hello world" [0%nat]))
             config (addLog (LogStarting 2 2) w))
      :: map (newJob "en" "fr") [UniqueString ["b"] "Good morning" [1%nat]] /\
    canResume (Service (Some session) false true) = true.
Proof.
  intros tree translate config w.
  apply (startTranslation_pause_first_job translate (fun _ => "en")
           (fun _ => true) tree config None false w
           (UniqueString ["a"] "Hello world" [0%nat])
           [UniqueString ["b"] "Good morning" [1%nat]]).
  - vm_compute. reflexivity.
  - reflexivity.
Defined.


Section RunToTheEnd.
Variable translate : nat -> request -> string + string.
Variable detectLanguage : string -> string.
Variable pauseSignal : nat -> bool.
Hypothesis no_pause : forall n, pauseSignal n = false.

Lemma processJobs_no_pause js : forall config w,
  let '(js', paused', w') :=
    processJobs translate detectLanguage pauseSignal js config false w in
  paused' = false /\
  map originalText js' = map originalText js /\
  (List.Forall (fun job => pendingOrError job = true) js ->
   List.Forall (fun job => status job = JobCompleted \/ status job = JobError)
     js').
Proof.
  induction js as [|job js IH]; intros config w; simpl.
  - split; [done|]. split; [done|]. intros _. constructor.
  - destruct (pendingOrError job) eqn:Hp.
    + pose proof (processJob_post translate detectLanguage job config w)
        as (Htext & Hst & _).
      destruct (processJob translate detectLanguage job config w)
        as [job' w'].
      rewrite no_pause. specialize (IH config (tick w')).
      destruct (processJobs translate detectLanguage pauseSignal js config
                  false (tick w')) as [[js' paused'] w''].
      destruct IH as (-> & Hmap & Hall). simpl in *. split; [done|].
      split; [by rewrite Htext, Hmap|].
      intros H. inversion H; subst. constructor; [done|by apply Hall].
    + specialize (IH config w).
      destruct (processJobs translate detectLanguage pauseSignal js config
                  false w) as [[js' paused'] w''].
      destruct IH as (-> & Hmap & Hall). simpl. split; [done|].
      split; [by rewrite Hmap|].
      intros H. inversion H; subst. congruence.
Qed.

Lemma processBatchList_no_pause bs : forall config touched w,
  List.Forall (fun b => batch_status b = BatchPending /\ jobs b <> [] /\
                        List.Forall (fun job => pendingOrError job = true)
                          (jobs b)) bs ->
  let '(bs', touched', paused', w') :=
    processBatchList translate detectLanguage pauseSignal bs config touched
      false w in
  paused' = false /\
  (touched = true \/ bs <> [] -> touched' = true) /\
  map originalText (allJobs bs') = map originalText (allJobs bs) /\
  List.Forall (fun b => batch_status b = BatchCompleted) bs' /\
  List.Forall (fun job => status job = JobCompleted \/ status job = JobError)
    (allJobs bs').
Proof.
  induction bs as [|batch bs IH]; intros config touched w Hbs.
  - simpl. split; [done|]. split; [by intros [?|?]|].
    split; [done|]. split; constructor.
  - cbn [processBatchList]. inversion Hbs as [|? ? (Hst & Hne & Hjobs) Hbs'];
      subst.
    rewrite Hst. unfold processBatch.
    pose proof (processJobs_no_pause (jobs batch) config w) as Hj.
    destruct (processJobs translate detectLanguage pauseSignal (jobs batch)
                config false w) as [[js' paused1] w1].
    destruct Hj as (-> & Hmap & Hall).
    specialize (IH config true w1 Hbs').
    destruct (processBatchList translate detectLanguage pauseSignal bs config
                true false w1) as [[[bs' touched'] paused'] w'].
    destruct IH as (-> & Htouched & Hmap' & Hbatch & Hall').
    split; [done|]. split.
    + intros _. apply Htouched. by left.
    + unfold allJobs in *. simpl. rewrite !map_app, Hmap, Hmap'.
      split; [done|]. split; [by constructor|].
      apply List.Forall_app. split; [by apply Hall|done].
Qed.

End RunToTheEnd.


Lemma countStatus_allJobs f bs :
  countStatus f bs = length (filter f (allJobs bs)).
Proof.
  unfold countStatus, allJobs.
  assert (forall n, fold_left (fun sum batch =>
                       (sum + length (filter f (jobs batch)))%nat) bs n
                    = (n + length (filter f (concat (map jobs bs))))%nat)
    as H; [|apply (H 0%nat)].
  induction bs as [|b bs IH]; intros n; simpl; [lia|].
  rewrite IH, filter_app, length_app. lia.
Qed.

Lemma count_completed_failed (failed skipped : TranslationJob -> bool) js :
  (forall job, failed job = match status job with
                            | JobError => true
                            | _ => false
                            end) ->
  (forall job, skipped job = match status job with
                             | JobSkipped => true
                             | _ => false
                             end) ->
  List.Forall (fun job => status job = JobCompleted \/ status job = JobError)
    js ->
  (length (filter isCompleted js) + length (filter failed js)
   = length js)%nat /\
  length (filter skipped js) = 0%nat.
Proof.
  intros Hf Hs.
  induction 1 as [|job js Hjob _ [IH1 IH2]]; [done|].
  rewrite !filter_cons, Hf, Hs. unfold isCompleted in *.
  destruct Hjob as [E|E]; rewrite E; simpl; split; lia.
Qed.

(** X19.  When no pause is requested, [startTranslation] on a tree with
    translatable strings runs every job to its end: the session returned
    is completed and is the current session, the service is no longer
    processing, there is one job per unique string, in order, each
    completed or failed, every batch is completed, the counts of
    translated and failed strings add up to the number of jobs, and the
    translated tree is the original with the final translation map
    applied. *)
Theorem startTranslation_completes :
  forall (translate : nat -> request -> string + string)
         (detectLanguage : string -> string) (pauseSignal : nat -> bool)
         (jsonData : json) (config : TranslationConfig)
         (current : option TranslationSession) (pause : bool) (w : world),
    (forall n, pauseSignal n = false) ->
    extractStrings jsonData [] <> [] ->
    exists session w',
      startTranslation translate detectLanguage pauseSignal jsonData config
        (Service current false pause) w
      = (inr session, Service (Some session) false false, w') /\
      session_status session = SessionCompleted /\
      originalJson session = jsonData /\
      totalStrings session = length (extractStrings jsonData []) /\
      map originalText (allJobs (batches session))
      = map uvalue (fst (deduplicateStrings (extractStrings jsonData []))) /\
      List.Forall (fun job => status job = JobCompleted \/
                              status job = JobError)
        (allJobs (batches session)) /\
      List.Forall (fun b => batch_status b = BatchCompleted)
        (batches session) /\
      (translatedStrings session + errorStrings session
       = length (allJobs (batches session)))%nat /\
      skippedStrings session = 0%nat /\
      translatedJson session
      = Some (applyTranslations jsonData (finalTranslationMap session)).
Proof.
  intros translate detectLanguage pauseSignal jsonData config current pause
    w Hno Hstrings.
  unfold startTranslation. cbn [isProcessing].
  destruct (extractStrings jsonData []) as [|o strings] eqn:Hs; [done|].
  rewrite processBatches_unfold. cbn [batches].
  set (s := config_sourceLanguage config).
  set (t := config_targetLanguage config).
  set (unique := fst (deduplicateStrings (o :: strings))).
  set (bs := createBatches s t unique (batchSize config)).
  destruct (chunks_spec (length unique) (Pos.to_nat (batchSize config))
              (map (newJob s t) unique)) as [Hcat Hnth];
    [lia|by rewrite length_map|].
  assert (allJobs bs = map (newJob s t) unique) as Hall.
  { unfold bs, createBatches, allJobs. rewrite List.map_map. simpl.
    by rewrite map_id. }
  assert (List.Forall
            (fun b => batch_status b = BatchPending /\ jobs b <> [] /\
                      List.Forall (fun job => pendingOrError job = true)
                        (jobs b)) bs) as Hfresh.
  { apply List.Forall_forall. intros b Hb.
    apply In_nth_error in Hb as [i Hb]. unfold bs, createBatches in Hb.
    rewrite nth_error_map in Hb.
    destruct (nth_error (chunks _ _ _) i) as [c|] eqn:Hc; [|done].
    injection Hb as <-. simpl. destruct (Hnth i c Hc) as [-> Hne].
    split; [done|]. split; [done|].
    apply List.Forall_forall. intros job Hjob.
    apply list_elem_of_In, elem_of_take in Hjob as (j & Hj & _).
    rewrite lookup_drop in Hj.
    apply list_elem_of_lookup_2, list_elem_of_In, in_map_iff in Hj
      as (x & <- & _). done. }
  assert (bs <> []) as Hne.
  { intros E. rewrite E in Hall. unfold allJobs in Hall. simpl in Hall.
    destruct unique as [|u rest] eqn:Hu; [|done].
    pose proof (deduplicateStrings_grouped (o :: strings)) as (_ & _ & H).
    specialize (H 0%nat o (Nat.lt_0_succ _) eq_refl).
    rewrite <- unique_values in H. fold unique in H. rewrite Hu in H.
    done. }
  pose proof (processBatchList_no_pause translate detectLanguage pauseSignal
                Hno bs config false
                (addLog (LogStarting (length (o :: strings)) (length unique))
                   w) Hfresh) as H.
  destruct (processBatchList translate detectLanguage pauseSignal bs config
              false false _) as [[[bs' touched'] paused'] w1].
  destruct H as (-> & Htouched & Hmap & Hbatch & Hjobs).
  rewrite (Htouched (or_intror Hne)). cbn [negb].
  eexists _, _. split; [reflexivity|].
  cbn [generateFinalResult fst set_status set_batches updateSessionProgress
       session_status originalJson totalStrings batches translatedStrings
       errorStrings skippedStrings translatedJson session_sourceLanguage
       session_targetLanguage].
  split; [done|]. split; [done|]. split; [done|]. split.
  { rewrite Hmap, Hall, List.map_map. done. }
  split; [done|]. split; [done|].
  rewrite !countStatus_allJobs.
  destruct (count_completed_failed _ _ _ (fun _ => eq_refl)
              (fun _ => eq_refl) Hjobs) as [Hsum Hskip].
  split; [exact Hsum|]. split; [exact Hskip|]. reflexivity.
Qed.

Lemma startTranslation_completes_witness :
  let tree := JObj [("a", JStr "Hello world"); ("b", JStr "Good morning")] in
  let translate := fun (_ : nat) (_ : request) =>
                     inl "Bonjour" : string + string in
  let config := Config "en" "fr" 50%positive 0%Z in
  exists session w',
    startTranslation translate (fun _ => "en") (fun _ => false) tree config
      (Service None false false) (World ∅ [] [] [] 0)
    = (inr session, Service (Some session) false false, w') /\
    session_status session = SessionCompleted /\
    originalJson session = tree /\
    totalStrings session = length (extractStrings tree []) /\
    map originalText (allJobs (batches session))
    = map uvalue (fst (deduplicateStrings (extractStrings tree []))) /\
    List.Forall (fun job => status job = JobCompleted \/
                            status job = JobError)
      (allJobs (batches session)) /\
    List.Forall (fun b => batch_status b = BatchCompleted)
      (batches session) /\
    (translatedStrings session + errorStrings session
     = length (allJobs (batches session)))%nat /\
    skippedStrings session = 0%nat /\
    translatedJson session
    = Some (applyTranslations tree (finalTranslationMap session)).
Proof.
  intros tree translate config.
  apply (startTranslation_completes translate (fun _ => "en")
           (fun _ => false) tree config None false (World ∅ [] [] [] 0)).
  - reflexivity.
  - vm_compute. discriminate.
Defined.

(** ** The final result *)

Section FinalResult.
Variable allStrings : list occurrence.
Variable translated : string.
Variable k : string.

(** The loop over [originalIndices] in [generateFinalResult], at one key *)
Lemma setPaths_other idxs : forall m : gmap string string,
  (forall i o, In i idxs -> nth_error allStrings i = Some o ->
               join (path o) <> k) ->
  fold_left (fun m originalIndex =>
               match nth_error allStrings originalIndex with
               | Some originalString =>
                   <[join (path originalString) := translated]> m
               | None => m
               end) idxs m !! k = m !! k.
Proof.
  induction idxs as [|i idxs IH]; intros m H; simpl; [done|].
  rewrite IH by (intros i' o' Hi'; apply H; by right).
  destruct (nth_error allStrings i) as [o|] eqn:E; [|done].
  rewrite lookup_insert_ne; [done|]. apply (H i o); [by left|done].
Qed.

Lemma setPaths_keep idxs : forall m : gmap string string,
  m !! k = Some translated ->
  fold_left (fun m originalIndex =>
               match nth_error allStrings originalIndex with
               | Some originalString =>
                   <[join (path originalString) := translated]> m
               | None => m
               end) idxs m !! k = Some translated.
Proof.
  induction idxs as [|i idxs IH]; intros m H; simpl; [done|].
  apply IH. destruct (nth_error allStrings i) as [o|]; [|done].
  destruct (decide (join (path o) = k)) as [->|Hne].
  - apply lookup_insert_eq.
  - by rewrite lookup_insert_ne.
Qed.

Lemma setPaths_hit idxs : forall (m : gmap string string) i o,
  In i idxs -> nth_error allStrings i = Some o -> join (path o) = k ->
  fold_left (fun m originalIndex =>
               match nth_error allStrings originalIndex with
               | Some originalString =>
                   <[join (path originalString) := translated]> m
               | None => m
               end) idxs m !! k = Some translated.
Proof.
  induction idxs as [|i' idxs IH]; intros m i o Hin Ho Hk; [done|].
  simpl. destruct Hin as [->|Hin]; [|by apply (IH _ i o)].
  rewrite Ho. apply setPaths_keep. rewrite <- Hk. apply lookup_insert_eq.
Qed.

End FinalResult.


Lemma nth_error_NoDup {A} (l : list A) i j x :
  NoDup l -> nth_error l i = Some x -> nth_error l j = Some x -> i = j.
Proof.
  revert i j. induction l as [|y l IH]; intros i j Hnd Hi Hj;
    [by destruct i|].
  apply NoDup_cons in Hnd as [Hy Hnd].
  destruct i as [|i], j as [|j]; simpl in *; try done.
  - injection Hi as ->. exfalso. apply Hy, list_elem_of_In.
    by apply nth_error_In in Hj.
  - injection Hj as ->. exfalso. apply Hy, list_elem_of_In.
    by apply nth_error_In in Hi.
  - f_equal. by apply IH.
Qed.

(** A value has one unique string. *)
Lemma unique_position strings a b u u' :
  nth_error (fst (deduplicateStrings strings)) a = Some u ->
  nth_error (fst (deduplicateStrings strings)) b = Some u' ->
  uvalue u = uvalue u' -> a = b.
Proof.
  intros Ha Hb Hv.
  destruct (deduplicateStrings_grouped strings) as (Hnd & _).
  rewrite <- unique_values in Hnd.
  apply (nth_error_NoDup _ a b (uvalue u) Hnd).
  - by rewrite nth_error_map, Ha.
  - by rewrite nth_error_map, Hb, Hv.
Qed.

Section FinalMap.
Variable allStrings : list occurrence.
Variable uniqueStrings : list uniqueString.
Variable k : string.
Variable a : nat.
Hypothesis others :
  forall b ub i o, nth_error uniqueStrings b = Some ub -> b <> a ->
    In i (originalIndices ub) -> nth_error allStrings i = Some o ->
    join (path o) <> k.
Hypothesis hit :
  exists u i o, nth_error uniqueStrings a = Some u /\
                In i (originalIndices u) /\
                nth_error allStrings i = Some o /\ join (path o) = k.

Lemma finalStep_lookup js : forall n (m : gmap string string),
  List.Forall (fun job => hasTranslation job = true) js ->
  ((a < n)%nat ->
   snd (fold_left (finalStep allStrings uniqueStrings) js (n, m)) !! k
   = m !! k) /\
  ((n <= a)%nat -> forall job text,
     nth_error js (a - n) = Some job -> translatedText job = Some text ->
     snd (fold_left (finalStep allStrings uniqueStrings) js (n, m)) !! k
     = Some text).
Proof.
  induction js as [|job js IH]; intros n m Hall.
  - split; [done|]. intros _ job text H. by destruct (a - n)%nat.
  - inversion Hall as [|? ? Hjob Hall']; subst.
    change (fold_left (finalStep allStrings uniqueStrings) (job :: js) (n, m))
      with (fold_left (finalStep allStrings uniqueStrings) js
              (finalStep allStrings uniqueStrings (n, m) job)).
    unfold hasTranslation in Hjob.
    destruct (status job) eqn:Hst; try done.
    destruct (translatedText job) as [[|c t]|] eqn:Htext; try done.
    set (m1 := match nth_error uniqueStrings n with
               | Some uniqueString =>
                   fold_left
                     (fun m originalIndex =>
                        match nth_error allStrings originalIndex with
                        | Some originalString =>
                            <[join (path originalString) := String c t]> m
                        | None => m
                        end) (originalIndices uniqueString) m
               | None => m
               end).
    assert (finalStep allStrings uniqueStrings (n, m) job = (S n, m1)) as ->
        by (unfold finalStep; by rewrite Hst, Htext).
    destruct (IH (S n) m1 Hall') as [IHlater IHearlier]. subst m1.
    split.
    + intros Hlt. rewrite IHlater by lia.
      destruct (nth_error uniqueStrings n) as [ub|] eqn:Hub; [|done].
      apply setPaths_other. intros i o. apply (others n ub); [done|lia].
    + intros Hle job' text Hjob' Htext'.
      destruct (decide (n = a)) as [->|Hne].
      * rewrite Nat.sub_diag in Hjob'. simpl in Hjob'. injection Hjob' as <-.
        rewrite Htext in Htext'. injection Htext' as <-.
        rewrite IHlater by lia.
        destruct hit as (u & i & o & -> & Hi & Ho & Hk).
        by apply (setPaths_hit allStrings (String c t) k _ _ i o).
      * apply (IHearlier ltac:(lia) job' text); [|done].
        replace (a - n)%nat with (S (a - S n)) in Hjob' by lia. done.
Qed.

End FinalMap.



(** ** The rate limiter *)

Section RateLimiterProperties.
Import RateLimiterService.
Local Open Scope Z_scope.

Lemma filter_window_later w now now' (l : list Z) :
  now <= now' ->
  List.filter (fun t => now' - t <? w) (List.filter (fun t => now - t <? w) l)
  = List.filter (fun t => now' - t <? w) l.
Proof.
  intros Hle. induction l as [|t l IH]; simpl; [done|].
  destruct (Z.ltb_spec (now - t) w) as [H|H]; simpl.
  - by rewrite IH.
  - rewrite IH. destruct (Z.ltb_spec (now' - t) w); [lia|done].
Qed.

Lemma minimum_spec l :
  match minimum l with
  | Some m => In m l /\ forall t, In t l -> m <= t
  | None => l = []
  end.
Proof.
  induction l as [|x l IH]; simpl; [done|].
  destruct (minimum l) as [m|].
  - destruct IH as [Hin Hle]. split.
    + destruct (Z.min_spec x m) as [[_ ->]|[_ ->]]; auto.
    + intros t [<-|Ht]; [lia|]. specialize (Hle t Ht). lia.
  - subst l. split; [by left|]. intros t [<-|[]]. lia.
Qed.

(** The delay of a timer of [checkSlot] is not negative. *)
Lemma delay_nonneg oldest w now :
  0 <= match oldest with
       | Some oldestRequest => Z.min (Z.max 0 (oldestRequest + w - now)) 1000
       | None => 1000
       end.
Proof. destruct oldest; lia. Qed.

Lemma checkSlot_admits late fuel : forall k now limiter T limiter',
  (forall k, 0 <= late k) ->
  checkSlot late fuel k now limiter = Some (T, limiter') ->
  now <= T /\
  requests limiter'
  = List.filter (fun t => T - t <? windowMs limiter) (requests limiter)
    ++ [T] /\
  Z.of_nat (length (requests limiter')) <= maxRequests limiter /\
  maxRequests limiter' = maxRequests limiter /\
  windowMs limiter' = windowMs limiter.
Proof.
  induction fuel as [|fuel IH]; intros k now limiter T limiter' Hlate;
    [done|].
  cbn [checkSlot].
  destruct (Z.ltb_spec
              (Z.of_nat (length (requests (cleanupOldRequests now limiter))))
              (maxRequests (cleanupOldRequests now limiter))) as [Hfree|Hfull].
  - intros [= <- <-]. simpl in *. split; [lia|]. split; [done|].
    rewrite length_app. simpl. lia.
  - intros H. apply IH in H as (Hle & Hreq & Hlen & Hmax & Hwin); [|done].
    pose proof (delay_nonneg
                  (minimum (requests (cleanupOldRequests now limiter)))
                  (windowMs (cleanupOldRequests now limiter)) now) as Hd.
    specialize (Hlate k). simpl in *.
    split; [lia|]. split; [|done].
    rewrite Hreq. f_equal. apply filter_window_later. lia.
Qed.

(** X21.  When [waitForSlot] resolves, at the time [T], it has recorded
    [T] as the last request; the requests recorded before are those of
    the limiter that are less than [windowMs] old at [T], and with [T]
    they are at most [maxRequests]: no more than [maxRequests] slots are
    granted within a window. *)
Theorem waitForSlot_window :
  forall (late : nat -> Z) (fuel : nat) (now : Z) (limiter : RateLimiter)
         (T : Z) (limiter' : RateLimiter),
    (forall k, 0 <= late k) ->
    waitForSlot late fuel now limiter = Some (T, limiter') ->
    now <= T /\
    requests limiter'
    = List.filter (fun t => T - t <? windowMs limiter) (requests limiter)
      ++ [T] /\
    Z.of_nat (length (requests limiter')) <= maxRequests limiter /\
    maxRequests limiter' = maxRequests limiter /\
    windowMs limiter' = windowMs limiter.
Proof. intros late fuel now limiter T limiter'. apply checkSlot_admits. Qed.

Lemma waitForSlot_window_witness :
  let limiter := Limiter [0; 30000] 2 60000 in
  let T := 60000 in
  let limiter' := Limiter [30000; 60000] 2 60000 in
  59000 <= T /\
  requests limiter'
  = List.filter (fun t => T - t <? windowMs limiter) (requests limiter)
    ++ [T] /\
  Z.of_nat (length (requests limiter')) <= maxRequests limiter /\
  maxRequests limiter' = maxRequests limiter /\
  windowMs limiter' = windowMs limiter.
Proof.
  apply (waitForSlot_window (fun _ => 0) 5 59000 (Limiter [0; 30000] 2 60000)).
  - intros _. lia.
  - reflexivity.
Defined.

Lemma checkSlot_resolves late fuel : forall k now limiter,
  (forall k, 0 <= late k) -> 1 <= maxRequests limiter ->
  (forall t, In t (requests limiter) ->
             t + windowMs limiter - now < Z.of_nat fuel) ->
  (0 < fuel)%nat ->
  exists r, checkSlot late fuel k now limiter = Some r.
Proof.
  induction fuel as [|fuel IH]; intros k now limiter Hlate Hmax Hbound Hfuel;
    [lia|].
  cbn [checkSlot].
  destruct (Z.ltb_spec
              (Z.of_nat (length (requests (cleanupOldRequests now limiter))))
              (maxRequests (cleanupOldRequests now limiter))) as [Hfree|Hfull];
    [eauto|].
  pose proof (minimum_spec (requests (cleanupOldRequests now limiter)))
    as Hmin.
  destruct (minimum (requests (cleanupOldRequests now limiter)))
    as [oldest|].
  - destruct Hmin as [Hin _]. simpl in Hin.
    apply List.filter_In in Hin as [Hin Hwin].
    apply Z.ltb_lt in Hwin. specialize (Hbound oldest Hin) as Hold.
    specialize (Hlate k) as Hk.
    apply IH; [done|done| |lia].
    intros t Ht. simpl in Ht. apply List.filter_In in Ht as [Ht _].
    specialize (Hbound t Ht). simpl. lia.
  - simpl in *. rewrite Hmin in Hfull. simpl in Hfull. lia.
Qed.

Lemma checkSlot_never late fuel : forall k now limiter,
  maxRequests limiter <= 0 -> checkSlot late fuel k now limiter = None.
Proof.
  induction fuel as [|fuel IH]; intros k now limiter Hmax; [done|].
  cbn [checkSlot].
  destruct (Z.ltb_spec
              (Z.of_nat (length (requests (cleanupOldRequests now limiter))))
              (maxRequests (cleanupOldRequests now limiter))) as [Hfree|Hfull].
  - simpl in Hfree. lia.
  - by apply IH.
Qed.

(** X22.  [waitForSlot] resolves when [maxRequests] is at least 1: with
    enough checks it returns.  With a [maxRequests] of 0 or less it never
    resolves, however many checks it makes. *)
Theorem waitForSlot_resolves :
  forall (late : nat -> Z) (now : Z) (limiter : RateLimiter),
    (forall k, 0 <= late k) ->
    (1 <= maxRequests limiter ->
     exists fuel0, forall fuel, (fuel0 <= fuel)%nat ->
       exists T limiter', waitForSlot late fuel now limiter
                          = Some (T, limiter')) /\
    (maxRequests limiter <= 0 ->
     forall fuel, waitForSlot late fuel now limiter = None).
Proof.
  intros late now limiter Hlate. split.
  - intros Hmax.
    exists (S (Z.to_nat (fold_right Z.max 0
                           (map (fun t => t + windowMs limiter - now)
                              (requests limiter))))).
    intros fuel Hfuel.
    destruct (checkSlot_resolves late fuel 0 now limiter) as [[T limiter'] H];
      try done; [|lia|by exists T, limiter'].
    intros t Ht.
    assert (forall l, In t l ->
              t + windowMs limiter - now
              <= fold_right Z.max 0
                   (map (fun t => t + windowMs limiter - now) l)) as Hfold.
    { induction l as [|x l IH]; simpl; [done|].
      intros [->|Hin]; [lia|]. specialize (IH Hin). lia. }
    specialize (Hfold _ Ht). lia.
  - intros Hmax fuel. by apply checkSlot_never.
Qed.

Lemma waitForSlot_resolves_witness :
  exists fuel0, forall fuel, (fuel0 <= fuel)%nat ->
    exists T limiter',
      waitForSlot (fun _ => 0) fuel 59000 (Limiter [0; 30000] 2 60000)
      = Some (T, limiter').
Proof.
  apply (waitForSlot_resolves (fun _ => 0) 59000 (Limiter [0; 30000] 2 60000)).
  - intros _. lia.
  - simpl. lia.
Defined.

Lemma filter_shorter (f : Z -> bool) (l : list Z) :
  (length (List.filter f l) < length l)%nat ->
  exists t, In t l /\ f t = false.
Proof.
  induction l as [|x l IH]; simpl; [lia|].
  destruct (f x) eqn:E; simpl.
  - intros H. destruct IH as (t & Ht & Hf); [lia|]. eauto.
  - intros _. eauto.
Qed.

(** X23.  [waitForSlot] agrees with [getRemainingRequests] and
    [getResetTime]: when requests remain at the time of the call, the
    slot is granted at once; when none remains, it is granted later, and
    not before the reset time of the limiter, at which the oldest request
    of the window expires. *)
Theorem waitForSlot_remaining :
  forall (late : nat -> Z) (fuel : nat) (now : Z) (limiter : RateLimiter)
         (T : Z) (limiter' : RateLimiter),
    (forall k, 0 <= late k) ->
    waitForSlot late fuel now limiter = Some (T, limiter') ->
    let remaining := getRemainingRequests now limiter in
    (0 < fst remaining -> T = now) /\
    (fst remaining = 0 -> now < T /\ getResetTime (snd remaining) <= T).
Proof.
  intros late fuel now limiter T limiter' Hlate Hwait remaining. split.
  - intros Hrem. unfold waitForSlot in Hwait. destruct fuel; [done|].
    cbn [checkSlot] in Hwait. unfold remaining, getRemainingRequests in Hrem.
    simpl in Hrem.
    destruct (Z.ltb_spec
                (Z.of_nat (length (requests (cleanupOldRequests now limiter))))
                (maxRequests (cleanupOldRequests now limiter)))
      as [Hfree|Hfull]; [by injection Hwait as <- _|].
    simpl in Hfull. lia.
  - intros Hrem.
    apply checkSlot_admits in Hwait as (Hle & Hreq & Hlen & _); [|done].
    unfold remaining, getRemainingRequests in *. simpl in Hrem.
    rewrite Hreq, length_app in Hlen. simpl in Hlen.
    rewrite <- (filter_window_later _ now T) in Hlen by done.
    destruct (filter_shorter (fun t => T - t <? windowMs limiter)
                (List.filter (fun t => now - t <? windowMs limiter)
                   (requests limiter))) as (t & Ht & Hout); [lia|].
    apply Z.ltb_ge in Hout.
    apply List.filter_In in Ht as Ht'. destruct Ht' as [_ Hin].
    apply Z.ltb_lt in Hin. split; [lia|].
    unfold getResetTime. simpl.
    pose proof (minimum_spec
                  (List.filter (fun t => now - t <? windowMs limiter)
                     (requests limiter))) as Hmin.
    destruct (minimum _) as [oldest|].
    + destruct Hmin as [_ Hmin]. specialize (Hmin t Ht). lia.
    + rewrite Hmin in Ht. done.
Qed.

Lemma waitForSlot_remaining_witness :
  let limiter := Limiter [0; 30000] 2 60000 in
  let remaining := getRemainingRequests 59000 limiter in
  (0 < fst remaining -> 60000 = 59000) /\
  (fst remaining = 0 -> 59000 < 60000 /\ getResetTime (snd remaining) <= 60000).
Proof.
  apply (waitForSlot_remaining (fun _ => 0) 5 59000
           (Limiter [0; 30000] 2 60000) 60000
           (Limiter [30000; 60000] 2 60000)).
  - intros _. lia.
  - reflexivity.
Defined.

End RateLimiterProperties.

(** ** The cache *)

Lemma btoa_nonempty s : CacheKey.btoa s = "" -> s = "".
Proof.
  destruct s as [|[a0 a1 a2 a3 a4 a5 a6 a7] [|[b0 b1 b2 b3 b4 b5 b6 b7]
                   [|[c0 c1 c2 c3 c4 c5 c6 c7] rest]]]; simpl; done.
Qed.

Lemma getCacheKey_nonempty text src tgt :
  CacheKey.getCacheKey text src tgt <> "".
Proof.
  unfold CacheKey.getCacheKey. intros H. apply btoa_nonempty in H.
  unfold CacheKey.template in H.
  destruct text as [|c text].
  - change (CacheKey.encodeURIComponent (String "-" (src ++ "-" ++ tgt)) = "")
      in H.
    simpl in H. vm_compute (CacheKey.encodeUnit "-") in H.
    by rewrite CacheKeyFacts.append_cons in H.
  - change (CacheKey.encodeURIComponent
              (String c (text ++ "-" ++ src ++ "-" ++ tgt)) = "") in H.
    simpl in H. unfold CacheKey.encodeUnit in H.
    destruct (CacheKey.unreserved c);
      [by rewrite CacheKeyFacts.append_cons in H|].
    unfold CacheKey.percent in H.
    destruct (N_of_ascii c <? 128)%N;
      by rewrite CacheKeyFacts.append_cons in H.
Qed.

Section CacheProperties.
Import CacheService.

Lemma memoryGet_memorySet key entry m :
  memoryGet key (memorySet key entry m) = Some entry.
Proof.
  induction m as [|[k e] m IH]; simpl.
  - by rewrite eqb_refl'.
  - destruct (String.eqb key k) eqn:E; simpl; by rewrite E.
Qed.

Lemma memorySet_keys key entry m :
  map fst (memorySet key entry m) =
  if existsb (String.eqb key) (map fst m) then map fst m
  else map fst m ++ [key].
Proof.
  induction m as [|[k e] m IH]; simpl; [done|].
  destruct (String.eqb_spec key k) as [->|Hne]; simpl; [done|].
  rewrite IH. by destruct (existsb _ _).
Qed.

Lemma existsb_eqb key (l : list string) :
  existsb (String.eqb key) l = true <-> In key l.
Proof.
  rewrite existsb_exists. split.
  - intros (x & Hx & E). by apply String.eqb_eq in E as ->.
  - intros H. exists key. split; [done|apply String.eqb_refl].
Qed.

Lemma memorySet_ok key entry m :
  key <> "" -> NoDup (map fst m) -> ~ In "" (map fst m) ->
  NoDup (map fst (memorySet key entry m)) /\
  ~ In "" (map fst (memorySet key entry m)) /\
  (length (memorySet key entry m) <= S (length m))%nat.
Proof.
  intros Hkey Hnd Hne.
  assert (length (memorySet key entry m) = length (map fst (memorySet key entry m)))
    as -> by (by rewrite length_map).
  rewrite memorySet_keys.
  destruct (existsb (String.eqb key) (map fst m)) eqn:E.
  - rewrite length_map. split; [done|]. split; [done|lia].
  - split; [|split].
    + apply NoDup_app. split; [done|]. split; [|apply NoDup_singleton].
      intros x Hx Hx'. apply list_elem_of_In in Hx, Hx'.
      destruct Hx' as [<-|[]]. apply existsb_eqb in Hx. congruence.
    + rewrite in_app_iff. intros [H|[H|[]]]; [done|congruence].
    + rewrite length_app, length_map. simpl. lia.
Qed.

Lemma memoryDelete_head k e m :
  NoDup (map fst ((k, e) :: m)) -> memoryDelete k ((k, e) :: m) = m.
Proof.
  intros Hnd. simpl in Hnd. apply NoDup_cons in Hnd as [Hk _].
  unfold memoryDelete. simpl. rewrite eqb_refl'. simpl.
  induction m as [|[k' e'] m IH]; simpl; [done|].
  destruct (String.eqb_spec k k') as [->|_]; simpl.
  - exfalso. apply Hk. simpl. left.
  - f_equal. apply IH. intros H. apply Hk. simpl. by right.
Qed.

(** What [addToMemoryCache] does to a cache that is in order: it sets the
    entry, after dropping the oldest entry when the cache is full. *)
Lemma addToMemoryCache_cases key entry m :
  memoryOk m ->
  addToMemoryCache key entry m =
  memorySet key entry
    (if (maxMemorySize <=? length m)%nat then tl m else m).
Proof.
  intros (Hnd & Hne & _). unfold addToMemoryCache.
  destruct (maxMemorySize <=? length m)%nat; [|done].
  destruct m as [|[k e] m]; [done|].
  destruct (String.eqb_spec k "") as [->|_].
  - exfalso. apply Hne. by left.
  - by rewrite memoryDelete_head.
Qed.

Lemma addToMemoryCache_ok key entry m :
  key <> "" -> memoryOk m -> memoryOk (addToMemoryCache key entry m).
Proof.
  intros Hkey Hok. rewrite addToMemoryCache_cases by done.
  destruct Hok as (Hnd & Hne & Hlen).
  destruct (Nat.leb_spec maxMemorySize (length m)) as [Hfull|Hfree].
  - destruct m as [|[k e] m].
    + destruct (memorySet_ok key entry [] Hkey Hnd Hne) as (H1 & H2 & H3).
      split; [done|]. split; [done|]. simpl in *. unfold maxMemorySize. lia.
    + simpl tl. simpl in Hnd, Hne, Hlen.
      apply NoDup_cons in Hnd as [_ Hnd].
      destruct (memorySet_ok key entry m Hkey Hnd) as (H1 & H2 & H3);
        [tauto|].
      split; [done|]. split; [done|]. lia.
  - destruct (memorySet_ok key entry m Hkey Hnd Hne) as (H1 & H2 & H3).
    split; [done|]. split; [done|]. lia.
Qed.

Lemma memoryGet_addToMemoryCache key entry m :
  memoryGet key (addToMemoryCache key entry m) = Some entry.
Proof. unfold addToMemoryCache. apply memoryGet_memorySet. Qed.

(** X24.  The memory cache never holds more than [maxMemorySize]
    entries: a cache in order stays in order under [set] and under
    [get]. *)
Theorem memoryCache_bounded :
  forall (ttl now : Z) (available : bool)
         (text src tgt translated : string) (st : state),
    memoryOk (memoryCache st) ->
    memoryOk (memoryCache (set now available text src tgt translated st)) /\
    memoryOk (memoryCache (snd (get ttl now available text src tgt st))).
Proof.
  intros ttl now available text src tgt translated st Hok. split.
  - simpl. apply addToMemoryCache_ok; [apply getCacheKey_nonempty|done].
  - unfold get.
    assert (memoryOk
              (memoryCache
                 (snd (if available then
                         match store st !! CacheKey.getCacheKey text src tgt with
                         | Some entry =>
                             if isValidEntry ttl now entry
                             then (Some (translatedText entry),
                                   State (addToMemoryCache
                                            (CacheKey.getCacheKey text src tgt)
                                            entry (memoryCache st))
                                     (store st))
                             else (None, st)
                         | None => (None, st)
                         end
                       else (None, st))))) as Hstore.
    { destruct available; [|done].
      destruct (store st !! _) as [entry|]; [|done].
      destruct (isValidEntry ttl now entry); [|done].
      simpl. apply addToMemoryCache_ok; [apply getCacheKey_nonempty|done]. }
    destruct (memoryGet _ _) as [memoryEntry|]; [|done].
    by destruct (isValidEntry ttl now memoryEntry).
Qed.

Lemma memoryCache_bounded_witness :
  let st := State [] ∅ in
  memoryOk (memoryCache (set 0 true "Hello" "en" "fr" "Bonjour" st)) /\
  memoryOk (memoryCache (snd (get 86400000 0 true "Hello" "en" "fr" st))).
Proof.
  apply (memoryCache_bounded 86400000 0 true "Hello" "en" "fr" "Bonjour"
           (State [] ∅)).
  split; [apply NoDup_nil_2|]. split; [simpl; tauto|].
  simpl. unfold maxMemorySize. lia.
Defined.

(** X25.  A translation stored by [set] is returned by [get] as long as
    it is less than [ttl] old; once it is [ttl] old or older, [get]
    returns [null] (when [set] could write the store too). *)
Theorem set_get_round_trip :
  forall (ttl now now' : Z) (available available' : bool)
         (text src tgt translated : string) (st : state),
    let st1 := set now available text src tgt translated st in
    let result := fst (get ttl now' available' text src tgt st1) in
    ((now' - now < ttl)%Z -> result = Some translated) /\
    ((ttl <= now' - now)%Z -> available = true -> result = None).
Proof.
  intros ttl now now' available available' text src tgt translated st st1
    result.
  unfold result, get, st1, set. cbn [memoryCache store].
  rewrite memoryGet_addToMemoryCache.
  unfold isValidEntry. cbn [timestamp translatedText]. split.
  - intros Hlt. by rewrite (proj2 (Z.ltb_lt _ _) Hlt).
  - intros Hge ->. rewrite (proj2 (Z.ltb_ge _ _) Hge).
    destruct available'; [|done]. rewrite lookup_insert_eq.
    cbn [timestamp]. by rewrite (proj2 (Z.ltb_ge _ _) Hge).
Qed.


Lemma set_get_round_trip_witness :
  let st1 := set 0 true "Hello" "en" "fr" "Bonjour" (State [] ∅) in
  ((1000 - 0 < 86400000)%Z ->
   fst (get 86400000 1000 true "Hello" "en" "fr" st1) = Some "Bonjour") /\
  ((86400000 <= 1000 - 0)%Z -> true = true ->
   fst (get 86400000 1000 true "Hello" "en" "fr" st1) = None).
Proof.
  apply (set_get_round_trip 86400000 0 1000 true true "Hello" "en" "fr"
           "Bonjour" (State [] ∅)).
Defined.

Lemma memoryGet_None key m :
  ~ In key (map fst m) -> memoryGet key m = None.
Proof.
  induction m as [|[k e] m IH]; simpl; [done|]. intros H.
  destruct (String.eqb_spec key k) as [->|_]; [tauto|]. apply IH. tauto.
Qed.

Lemma memorySet_length key entry m :
  In key (map fst m) -> length (memorySet key entry m) = length m.
Proof.
  intros H. rewrite <- (length_map fst), memorySet_keys.
  rewrite (proj2 (existsb_eqb key (map fst m)) H). apply length_map.
Qed.

Lemma memoryGet_memorySet_other key key' entry m :
  key' <> key -> memoryGet key' (memorySet key entry m) = memoryGet key' m.
Proof.
  intros Hne. induction m as [|[k e] m IH]; simpl.
  - by destruct (String.eqb_spec key' key).
  - destruct (String.eqb_spec key k) as [->|_]; simpl.
    + by destruct (String.eqb_spec key' k).
    + by rewrite IH.
Qed.

(** X26.  The memory cache evicts in the order of insertion.  When it is
    full, [addToMemoryCache] drops the oldest entry, whatever the key
    added: the other entries stay, the oldest key is no longer found
    unless it is the key added, and when the key added was already in
    the cache the cache ends with one entry less. *)
Theorem addToMemoryCache_evicts_oldest :
  forall (key : string) (entry : CacheEntry) (oldestKey : string)
         (oldest : CacheEntry) (m : list (string * CacheEntry)),
    memoryOk ((oldestKey, oldest) :: m) ->
    length ((oldestKey, oldest) :: m) = maxMemorySize ->
    let m' := addToMemoryCache key entry ((oldestKey, oldest) :: m) in
    m' = memorySet key entry m /\
    (key <> oldestKey -> memoryGet oldestKey m' = None) /\
    (forall k, k <> key -> k <> oldestKey ->
               memoryGet k m' = memoryGet k ((oldestKey, oldest) :: m)) /\
    (In key (map fst m) -> S (length m') = maxMemorySize).
Proof.
  intros key entry oldestKey oldest m Hok Hfull m'.
  assert (m' = memorySet key entry m) as ->.
  { unfold m'. rewrite addToMemoryCache_cases by done.
    by rewrite Hfull, Nat.leb_refl. }
  destruct Hok as (Hnd & _ & _). simpl in Hnd.
  apply NoDup_cons in Hnd as [Hold _].
  split; [done|]. split; [|split].
  - intros Hne. rewrite memoryGet_memorySet_other by done.
    apply memoryGet_None. intros H. by apply Hold, list_elem_of_In.
  - intros k Hk Hk'. rewrite memoryGet_memorySet_other by done. simpl.
    by destruct (String.eqb_spec k oldestKey).
  - intros Hin. rewrite memorySet_length by done. by rewrite <- Hfull.
Qed.

(** A full cache: the keys [k0], [k1], ... up to [maxMemorySize]. *)
Lemma addToMemoryCache_evicts_oldest_witness :
  let e := Entry "Hello" "en" "fr" "Bonjour" 0 in
  let m := map (fun i => (String "k" (toString i), e)) (List.seq 1 999) in
  let m' := addToMemoryCache "new" e (("k0", e) :: m) in
  m' = memorySet "new" e m /\
  ("new" <> "k0" -> memoryGet "k0" m' = None) /\
  (forall k, k <> "new" -> k <> "k0" ->
             memoryGet k m' = memoryGet k (("k0", e) :: m)) /\
  (In "new" (map fst m) -> S (length m') = maxMemorySize).
Proof.
  intros e m.
  assert (map fst m = map (fun i => String "k" (toString i)) (List.seq 1 999))
    as Hkeys by (unfold m; by rewrite List.map_map).
  assert (length m = 999%nat) as Hlen
      by (unfold m; by rewrite length_map, length_seq).
  apply (addToMemoryCache_evicts_oldest "new" e "k0" e m).
  - unfold memoryOk. rewrite map_cons, length_cons, Hkeys, Hlen.
    cbn [fst]. split; [|split].
    + apply NoDup_cons_2.
      * intros H. apply list_elem_of_In, in_map_iff in H as (i & Hi & Hin).
        injection Hi as Hi. apply (toString_inj i 0) in Hi.
        apply in_seq in Hin. lia.
      * assert (Inj (=) (=) (fun i => String "k" (toString i))) as Hinj
            by (intros i j Hij; injection Hij as Hij; by apply toString_inj).
        apply (NoDup_fmap_2 (fun i => String "k" (toString i))).
        apply NoDup_ListNoDup, List.seq_NoDup.
    + intros [H|H]; [done|]. by apply in_map_iff in H as (i & Hi & _).
    + done.
  - by rewrite length_cons, Hlen.
Defined.

Lemma memoryGet_filter (P : CacheEntry -> bool) key m :
  NoDup (map fst m) ->
  memoryGet key (List.filter (fun kv => P (snd kv)) m) =
  match memoryGet key m with
  | Some e => if P e then Some e else None
  | None => None
  end.
Proof.
  induction m as [|[k e] m IH]; simpl; [done|]. intros Hnd.
  apply NoDup_cons in Hnd as [Hk Hnd].
  destruct (String.eqb_spec key k) as [->|Hne].
  - destruct (P e) eqn:E; simpl; [by rewrite eqb_refl'|].
    rewrite IH by done. rewrite memoryGet_None; [done|].
    intros H. by apply Hk, list_elem_of_In.
  - destruct (P e); simpl.
    + destruct (String.eqb_spec key k); [done|by apply IH].
    + by apply IH.
Qed.

(** What [get] returns, apart from the state *)
Lemma get_result ttl now available text src tgt st :
  fst (get ttl now available text src tgt st) =
  let fromStore :=
    if available then
      match store st !! CacheKey.getCacheKey text src tgt with
      | Some entry =>
          if isValidEntry ttl now entry then Some (translatedText entry)
          else None
      | None => None
      end
    else None in
  match memoryGet (CacheKey.getCacheKey text src tgt) (memoryCache st) with
  | Some memoryEntry =>
      if isValidEntry ttl now memoryEntry
      then Some (translatedText memoryEntry)
      else fromStore
  | None => fromStore
  end.
Proof.
  unfold get. cbv zeta.
  assert (forall A (f : A -> option string * state) (o : option A) d,
            fst (match o with Some a => f a | None => d end)
            = match o with Some a => fst (f a) | None => fst d end) as Hm
      by (by intros A f [a|] d).
  assert (forall (b : bool) (x y : option string * state),
            fst (if b then x else y) = if b then fst x else fst y) as Hi
      by (by intros [] x y).
  rewrite Hm. destruct (memoryGet _ _) as [e|].
  - rewrite Hi. destruct (isValidEntry ttl now e); [done|].
    rewrite Hi. destruct available; [|done]. rewrite Hm.
    destruct (store st !! _) as [e'|]; [|done]. by rewrite Hi.
  - rewrite Hi. destruct available; [|done]. rewrite Hm.
    destruct (store st !! _) as [e'|]; [|done]. by rewrite Hi.
Qed.

(** X27.  The sweep of the memory cache in [cleanupExpired] removes no
    entry that [get] would return: [get] returns the same with the swept
    cache as with the cache as it was.  An entry that is exactly [ttl]
    old is kept by the sweep although [isValidEntry] rejects it. *)
Theorem cleanupExpired_keeps_valid :
  forall (ttl now : Z) (available : bool) (text src tgt : string)
         (st : state),
    NoDup (map fst (memoryCache st)) ->
    fst (get ttl now available text src tgt
           (State (cleanupExpiredMemory ttl now (memoryCache st)) (store st)))
    = fst (get ttl now available text src tgt st) /\
    (forall key entry,
        memoryGet key (memoryCache st) = Some entry ->
        timestamp entry = (now - ttl)%Z ->
        memoryGet key (cleanupExpiredMemory ttl now (memoryCache st))
        = Some entry /\
        isValidEntry ttl now entry = false).
Proof.
  intros ttl now available text src tgt st Hnd. split.
  - rewrite !get_result. cbn [memoryCache store]. unfold cleanupExpiredMemory.
    rewrite (memoryGet_filter
               (fun e => negb (timestamp e <? now - ttl)%Z)) by done.
    destruct (memoryGet _ (memoryCache st)) as [e|]; [|done].
    destruct (Z.ltb_spec (timestamp e) (now - ttl)) as [Hout|Hin]; simpl;
      [|done].
    unfold isValidEntry at 2.
    by destruct (Z.ltb_spec (now - timestamp e) ttl); [lia|].
  - intros key entry Hget Hts. unfold cleanupExpiredMemory, isValidEntry.
    rewrite (memoryGet_filter
               (fun e => negb (timestamp e <? now - ttl)%Z)) by done.
    rewrite Hget, Hts, Z.ltb_irrefl. simpl. split; [done|].
    apply Z.ltb_ge. lia.
Qed.

Lemma cleanupExpired_keeps_valid_witness :
  let entry := Entry "Hello" "en" "fr" "Bonjour" 0 in
  let st := State [(CacheKey.getCacheKey "Hello" "en" "fr", entry)] ∅ in
  fst (get 1000 1000 true "Hello" "en" "fr"
         (State (cleanupExpiredMemory 1000 1000 (memoryCache st)) (store st)))
  = fst (get 1000 1000 true "Hello" "en" "fr" st) /\
  (forall key entry,
      memoryGet key (memoryCache st) = Some entry ->
      timestamp entry = (1000 - 1000)%Z ->
      memoryGet key (cleanupExpiredMemory 1000 1000 (memoryCache st))
      = Some entry /\
      isValidEntry 1000 1000 entry = false).
Proof.
  apply (cleanupExpired_keeps_valid 1000 1000 true "Hello" "en" "fr"
           (State [(CacheKey.getCacheKey "Hello" "en" "fr",
                    Entry "Hello" "en" "fr" "Bonjour" 0)] ∅)).
  simpl. apply NoDup_singleton.
Defined.

End CacheProperties.

(** ** The classifier *)

Lemma lower_not_space c : Regex.lower c = true -> Regex.space c = false.
Proof.
  destruct c as [[] [] [] [] [] [] [] []]; vm_compute; congruence.
Qed.

Lemma trimStart_id s :
  (forall c, In c (list_ascii_of_string s) -> Regex.space c = false) ->
  trimStart s = s.
Proof.
  destruct s as [|c s]; [done|]. intros H. simpl.
  by rewrite (H c (or_introl eq_refl)).
Qed.

Lemma trimEnd_id s :
  (forall c, In c (list_ascii_of_string s) -> Regex.space c = false) ->
  trimEnd s = s.
Proof.
  induction s as [|c s IH]; [done|]. intros H. simpl.
  rewrite IH by (intros c' Hc'; apply H; by right).
  destruct s; [|done]. by rewrite (H c (or_introl eq_refl)).
Qed.

Lemma lower_not_upper c : Regex.lower c = true -> Regex.upper c = false.
Proof.
  destruct c as [[] [] [] [] [] [] [] []]; vm_compute; congruence.
Qed.

(** The pattern for camelCase after a lower-case letter, and what a
    lower-case letter makes of it *)
Lemma camelCase_lower c :
  Regex.lower c = true ->
  let camelCase :=
    Patterns.cat [Regex.RPlus (Regex.RChar Regex.lower);
                  Regex.RStar (Patterns.cat
                                 [Regex.RChar Regex.upper;
                                  Regex.RStar (Regex.RChar Regex.lower)])] in
  Regex.deriv c camelCase = Regex.deriv "a" camelCase /\
  Regex.deriv c (Regex.deriv "a" camelCase) = Regex.deriv "a" camelCase.
Proof.
  intros H. pose proof (lower_not_upper c H) as Hu.
  assert (Regex.lower "a" = true) as Ha by reflexivity.
  assert (Regex.upper "a" = false) as Hua by reflexivity.
  unfold Patterns.cat, Regex.RPlus.
  cbn [fold_right Regex.deriv Regex.nullable andb orb].
  rewrite H, Ha. cbn [Regex.seq' Regex.alt'].
  split; [done|].
  cbn [Regex.deriv Regex.nullable andb orb].
  rewrite H, Hu. cbn [Regex.seq' Regex.alt']. done.
Qed.

Lemma camelCase_matches s :
  s <> "" ->
  (forall c, In c (list_ascii_of_string s) -> Regex.lower c = true) ->
  Regex.matches
    (Patterns.cat [Regex.RPlus (Regex.RChar Regex.lower);
                   Regex.RStar (Patterns.cat
                                  [Regex.RChar Regex.upper;
                                   Regex.RStar (Regex.RChar Regex.lower)])])
    s = true.
Proof.
  destruct s as [|c s]; [done|]. intros _ H. cbn [Regex.matches].
  destruct (camelCase_lower c (H c (or_introl eq_refl))) as [-> _].
  assert (forall c', In c' (list_ascii_of_string s) -> Regex.lower c' = true)
    as Hs by (intros c' Hc'; apply H; by right).
  clear H. induction s as [|c' s IH]; [by vm_compute|].
  cbn [Regex.matches].
  destruct (camelCase_lower c' (Hs c' (or_introl eq_refl))) as [_ ->].
  apply IH. intros c'' Hc''. apply Hs. by right.
Qed.

(** X28.  [shouldTranslate] rejects every string made of lower-case
    letters [a]-[z] only, whatever its length: a single word written in
    lower case counts as an identifier, by the pattern for camelCase. *)
Theorem shouldTranslate_rejects_lower_case_words :
  forall s : string,
    (forall c, In c (list_ascii_of_string s) -> Regex.lower c = true) ->
    shouldTranslate s = false.
Proof.
  intros s H. unfold shouldTranslate.
  destruct (String.eqb_spec s "") as [->|Hne]; [done|].
  assert (trim s = s) as ->.
  { unfold trim. rewrite trimStart_id, trimEnd_id; [done| |];
      intros c Hc; by apply lower_not_space, H. }
  repeat match goal with
         | |- (if ?b then false else _) = false => destruct b; [done|]
         end.
  cbv zeta.
  repeat match goal with
         | |- (if ?b then false else _) = false => destruct b; [done|]
         end.
  apply negb_false_iff.
  unfold Patterns.technicalPatterns. cbn [existsb].
  apply orb_true_iff. right. apply orb_true_iff. left.
  unfold Patterns.test. cbn [fst snd]. by apply camelCase_matches.
Qed.

Lemma shouldTranslate_rejects_lower_case_words_witness :
  shouldTranslate "hello" = false.
Proof.
  apply (shouldTranslate_rejects_lower_case_words "hello").
  intros c Hc. simpl in Hc.
  repeat destruct Hc as [<-|Hc]; try reflexivity. done.
Defined.

(** ** The cache in the retry loop *)

Lemma getCacheKey_inj t1 s1 g1 t2 s2 g2 :
  CacheKey.hyphenFree s1 = true -> CacheKey.hyphenFree g1 = true ->
  CacheKey.hyphenFree s2 = true -> CacheKey.hyphenFree g2 = true ->
  CacheKey.getCacheKey t1 s1 g1 = CacheKey.getCacheKey t2 s2 g2 ->
  t1 = t2 /\ s1 = s2 /\ g1 = g2.
Proof.
  intros Hs1 Hg1 Hs2 Hg2 H. unfold CacheKey.getCacheKey in H.
  apply CacheKeyFacts.btoa_inj, CacheKeyFacts.encodeURIComponent_inj in H.
  by apply CacheKeyFacts.template_inj.
Qed.

Section AutoDetect.
Variable translate : nat -> request -> string + string.
Variable detectLanguage : string -> string.
Hypothesis detected :
  forall text, CacheKey.hyphenFree (detectLanguage text) = true /\
               detectLanguage text <> "auto".

Lemma auto_loop fuel : forall job config w job' w',
  sourceLanguage job = "auto" ->
  (forall text tgt, CacheKey.hyphenFree tgt = true ->
     cache w !! CacheKey.getCacheKey text "auto" tgt = None) ->
  CacheKey.hyphenFree (targetLanguage job) = true ->
  processJob_loop translate detectLanguage fuel job config w
  = Some (job', w') ->
  (forall text tgt, CacheKey.hyphenFree tgt = true ->
     cache w' !! CacheKey.getCacheKey text "auto" tgt = None) /\
  (length (requests w) < length (requests w'))%nat.
Proof.
  induction fuel as [|fuel IH]; intros job config w job' w' Hauto Hnone Htgt;
    [done|].
  cbn [processJob_loop].
  assert (cachedResult w (markTranslating job) = None) as ->.
  { unfold cachedResult, cache_get. simpl. by rewrite Hauto, Hnone. }
  assert (attemptRequest detectLanguage (markTranslating job) w
          = Request (originalText job) (detectLanguage (originalText job))
              (targetLanguage job)) as Hreq.
  { unfold attemptRequest, detectSource. simpl. by rewrite Hauto. }
  assert (requests (afterRequest detectLanguage (markTranslating job) w)
          = requests w
              ++ [attemptRequest detectLanguage (markTranslating job) w] /\
          cache (afterRequest detectLanguage (markTranslating job) w)
          = cache w) as [Hafter Hcache].
  { unfold afterRequest, detectSource. simpl. by rewrite Hauto. }
  destruct (translate _ _) as [translated|message].
  - intros [= <- <-]. cbn [addLog cache_set cache requests].
    rewrite Hafter, Hcache, length_app. cbn [length].
    split; [|lia]. intros text tgt Hhf.
    assert ((detectSource detectLanguage (markTranslating job) w).1
            = detectLanguage (originalText job)) as ->
        by (unfold detectSource; simpl; by rewrite Hauto).
    rewrite lookup_insert_ne; [by apply Hnone|].
    intros E. destruct (detected (originalText job)) as [Hd Hne].
    apply getCacheKey_inj in E as (_ & E & _); done.
  - destruct (Z.leb_spec
                (Z.of_nat (retryCount (countRetry (markTranslating job))))
                (maxRetries config)) as [Hle|Hgt].
    + intros H. apply IH in H as [Hnone' Hlen]; try done.
      * split; [done|]. cbn [addLog sleep requests] in Hlen.
        rewrite Hafter, length_app in Hlen. cbn [length] in Hlen. lia.
      * intros text tgt Hhf. cbn [addLog sleep cache]. rewrite Hcache.
        by apply Hnone.
    + intros [= <- <-]. cbn [addLog cache requests].
      rewrite Hafter, Hcache, length_app. cbn [length]. split; [done|lia].
Qed.

End AutoDetect.

(** X29.  A job whose source language is ["auto"] is never served from
    the cache: [processJob] looks the text up under the language
    ["auto"] but stores the translation under the language detected, so
    that no entry is ever written for ["auto"], and every run of a job
    with the source ["auto"] calls the backend at least once.  (The
    language codes hold no [-], and the detection does not answer
    ["auto"].) *)
Theorem processJob_auto_source_misses_cache :
  forall (translate : nat -> request -> string + string)
         (detectLanguage : string -> string)
         (job : TranslationJob) (config : TranslationConfig) (w : world),
    (forall text, CacheKey.hyphenFree (detectLanguage text) = true /\
                  detectLanguage text <> "auto") ->
    sourceLanguage job = "auto" ->
    CacheKey.hyphenFree (targetLanguage job) = true ->
    (forall text tgt, CacheKey.hyphenFree tgt = true ->
       cache w !! CacheKey.getCacheKey text "auto" tgt = None) ->
    let w' := snd (processJob translate detectLanguage job config w) in
    (forall text tgt, CacheKey.hyphenFree tgt = true ->
       cache w' !! CacheKey.getCacheKey text "auto" tgt = None) /\
    (length (requests w) < length (requests w'))%nat.
Proof.
  intros translate detectLanguage job config w Hdet Hauto Htgt Hnone w'.
  pose proof (processJob_loop_budget translate detectLanguage job config w)
    as H.
  unfold w'.
  destruct (processJob translate detectLanguage job config w) as [job1 w1].
  by apply (auto_loop translate detectLanguage Hdet) in H.
Qed.

Lemma processJob_auto_source_misses_cache_witness :
  let translate := fun (_ : nat) (_ : request) =>
                     inl "Bonjour" : string + string in
  let job := Job "Hello" None "auto" "fr" JobPending None 0 in
  let config := Config "auto" "fr" 50%positive 0%Z in
  let w := World ∅ [] [] [] 0 in
  let w' := snd (processJob translate (fun _ => "en") job config w) in
  (forall text tgt, CacheKey.hyphenFree tgt = true ->
     cache w' !! CacheKey.getCacheKey text "auto" tgt = None) /\
  (length (requests w) < length (requests w'))%nat.
Proof.
  intros translate job config w.
  apply (processJob_auto_source_misses_cache translate (fun _ => "en") job
           config w).
  - intros _. split; [reflexivity|discriminate].
  - reflexivity.
  - reflexivity.
  - intros text tgt _. apply lookup_empty.
Defined.

(** X30.  With a source language that is not ["auto"], a translation
    obtained from the backend is stored under the key that the next
    lookup uses: a later job with the same text and languages is
    completed from the cache with the same translation, without a call of
    the backend and without a delay. *)
Theorem processJob_reuses_cache :
  forall (translate : nat -> request -> string + string)
         (detectLanguage : string -> string)
         (job job2 : TranslationJob) (config config2 : TranslationConfig)
         (w : world) (c : ascii) (translated : string),
    sourceLanguage job <> "auto" ->
    cachedResult w (markTranslating job) = None ->
    translate (length (requests w))
      (Request (originalText job) (sourceLanguage job) (targetLanguage job))
    = inl (String c translated) ->
    originalText job2 = originalText job ->
    sourceLanguage job2 = sourceLanguage job ->
    targetLanguage job2 = targetLanguage job ->
    let first := processJob translate detectLanguage job config w in
    let second := processJob translate detectLanguage job2 config2
                    (snd first) in
    status (fst first) = JobCompleted /\
    translatedText (fst first) = Some (String c translated) /\
    status (fst second) = JobCompleted /\
    translatedText (fst second) = Some (String c translated) /\
    requests (snd second) = requests (snd first) /\
    waits (snd second) = waits (snd first).
Proof.
  intros translate detectLanguage job job2 config config2 w c translated
    Hsrc Hmiss Hanswer Htext Hsource Htarget first second.
  assert (String.eqb (sourceLanguage job) "auto" = false) as Hne
      by (by apply String.eqb_neq).
  assert (first =
          (set_job (markTranslating job) (Some (String c translated))
             JobCompleted (error job) (retryCount job),
           addLog (LogTranslated (originalText job) (String c translated))
             (cache_set (originalText job) (sourceLanguage job)
                (targetLanguage job) (String c translated)
                (afterRequest detectLanguage (markTranslating job) w))))
    as Hfirst.
  { unfold first, processJob, retryBudget. cbn [processJob_loop].
    rewrite Hmiss. unfold attemptRequest, detectSource. simpl.
    rewrite Hne. simpl. by rewrite Hanswer. }
  assert (cachedResult (snd first) (markTranslating job2)
          = Some (String c translated)) as Hhit.
  { rewrite Hfirst. unfold cachedResult, cache_get. simpl.
    rewrite Htext, Hsource, Htarget. by rewrite lookup_insert_eq. }
  assert (second =
          (set_job (markTranslating job2) (Some (String c translated))
             JobCompleted (error job2) (retryCount job2),
           addLog (LogCacheHit (originalText job2)) (snd first)))
    as Hsecond.
  { unfold second, processJob, retryBudget. cbn [processJob_loop].
    by rewrite Hhit. }
  rewrite Hsecond, Hfirst. done.
Qed.

Lemma processJob_reuses_cache_witness :
  let translate := fun (_ : nat) (_ : request) =>
                     inl "Bonjour" : string + string in
  let job := Job "Hello" None "en" "fr" JobPending None 0 in
  let config := Config "en" "fr" 50%positive 0%Z in
  let first := processJob translate (fun _ => "en") job config
                 (World ∅ [] [] [] 0) in
  let second := processJob translate (fun _ => "en") job config
                  (snd first) in
  status (fst first) = JobCompleted /\
  translatedText (fst first) = Some "Bonjour" /\
  status (fst second) = JobCompleted /\
  translatedText (fst second) = Some "Bonjour" /\
  requests (snd second) = requests (snd first) /\
  waits (snd second) = waits (snd first).
Proof.
  intros translate job config.
  apply (processJob_reuses_cache translate (fun _ => "en") job job config
           config (World ∅ [] [] [] 0) "B" "onjour");
    try reflexivity.
  discriminate.
Defined.
